(** * Truffle box unpacking: [packages/box/lib/utils/unbox.ts]

    A shallow embedding of the destination merger
    ([copyTempIntoDestination], [promptOverwrites]) and of the recipe engine
    ([traverseDir], [removeEmptyDirs], [followBoxRecipe]), together with the
    properties stated about them.

    The file system is a finite tree of named entries: files with their
    content and directories, without links or permissions.  The calls into
    [fs-extra], [fs], [path] and [inquirer] are modelled by functions on
    that tree, on path strings and on an explicit user oracle.  A call that
    throws returns [Err]; what the file system looks like after an
    exception is not modelled. *)

From Stdlib Require Import Ascii String.
From stdpp Require Import base option list strings gmap.

#[global] Set Warnings "-clear-no-such-hyp".

(** ** Results of calls that may throw *)

Inductive errno : Set :=
| ENOENT      (* no such file or directory *)
| ENOTDIR     (* a path component is not a directory *)
| EISDIR      (* a file cannot replace a directory *)
| EEXIST      (* mkdir over an existing file *)
| ENOTEMPTY   (* a directory cannot replace a non-empty directory *)
| EINVAL      (* rename of a directory into itself *)
| ECOPY       (* fs-extra refuses the copy *)
| ETYPE       (* JavaScript TypeError *)
| EOUTSIDE.   (* the path leaves the modelled directory *)

Inductive result (A : Type) : Type :=
| Ok (a : A)
| Err (e : errno).

Arguments Ok {A} a.
Arguments Err {A} e.

Definition bind {A B : Type} (r : result A) (k : A -> result B) : result B :=
  match r with
  | Ok a => k a
  | Err e => Err e
  end.

Notation "'let?' x := r 'in' k" := (bind r (fun x => k))
  (at level 10, x name, r at level 100, k at level 200).
Notation "'let?' ' pat := r 'in' k" :=
  (bind r (fun x => match x with pat => k end))
  (at level 10, pat pattern, r at level 100, k at level 200).

(** [xs.forEach(x => body)] where [body] updates the state and may throw:
    the first exception leaves the loop. *)
Fixpoint forEach {A S : Type} (body : A -> S -> result S) (xs : list A) (s : S)
  : result S :=
  match xs with
  | [] => Ok s
  | x :: rest => let? s' := body x s in forEach body rest s'
  end.

(** ** Path strings (POSIX flavour of Node's [path]) *)

Definition slash : ascii := "/"%char.
Definition comma : ascii := ","%char.

(** [s.split(sep)] for a one-character separator. *)
Fixpoint split_on (sep : ascii) (s : string) : list string :=
  match s with
  | EmptyString => [""]
  | String c rest =>
      if Ascii.eqb c sep then "" :: split_on sep rest
      else match split_on sep rest with
           | [] => [String c ""]
           | w :: ws => String c w :: ws
           end
  end.

(** [segs.join("/")]. *)
Definition join_segs (segs : list string) : string := String.concat "/" segs.

Definition first_char (s : string) : option ascii :=
  match s with
  | EmptyString => None
  | String c _ => Some c
  end.

Fixpoint last_char (s : string) : option ascii :=
  match s with
  | EmptyString => None
  | String c EmptyString => Some c
  | String _ rest => last_char rest
  end.

Definition is_slash (o : option ascii) : bool :=
  match o with
  | Some c => Ascii.eqb c slash
  | None => false
  end.

(** [normalizeString]: the stack [res] holds the segments kept so far, the
    last one first. *)
Fixpoint normalizeString (allowAboveRoot : bool) (res segs : list string)
  : list string :=
  match segs with
  | [] => rev res
  | seg :: rest =>
      if String.eqb seg "" || String.eqb seg "." then
        normalizeString allowAboveRoot res rest
      else if String.eqb seg ".." then
        match res with
        | last :: res' =>
            if String.eqb last ".." then
              normalizeString allowAboveRoot
                (if allowAboveRoot then ".." :: res else res) rest
            else normalizeString allowAboveRoot res' rest
        | [] =>
            normalizeString allowAboveRoot
              (if allowAboveRoot then [".."] else []) rest
        end
      else normalizeString allowAboveRoot (seg :: res) rest
  end.

(** [path.normalize]. *)
Definition normalize (p : string) : string :=
  match p with
  | EmptyString => "."
  | _ =>
      let isAbsolute := is_slash (first_char p) in
      let trailingSeparator := is_slash (last_char p) in
      let body :=
        join_segs (normalizeString (negb isAbsolute) [] (split_on slash p)) in
      match body with
      | EmptyString =>
          if isAbsolute then "/" else if trailingSeparator then "./" else "."
      | _ =>
          let body' := if trailingSeparator then body +:+ "/" else body in
          if isAbsolute then "/" +:+ body' else body'
      end
  end.

(** [path.join(a, b)]: empty arguments are skipped. *)
Definition path_join (a b : string) : string :=
  match a, b with
  | EmptyString, EmptyString => "."
  | EmptyString, _ => normalize b
  | _, EmptyString => normalize a
  | _, _ => normalize (a +:+ "/" +:+ b)
  end.

(** The file-system calls of [followBoxRecipe] all receive
    [path.join(destination, p)].  [resolve_segs] runs the segments of [p] on
    the stack discipline of [normalizeString], starting at the destination
    directory: the result is the list of entry names leading from the
    destination to the designated entry, or [None] when a [..] climbs out of
    the destination, which this model does not follow. *)
Fixpoint resolve_segs (res segs : list string) : option (list string) :=
  match segs with
  | [] => Some (rev res)
  | seg :: rest =>
      if String.eqb seg "" || String.eqb seg "." then resolve_segs res rest
      else if String.eqb seg ".." then
        match res with
        | _ :: res' => resolve_segs res' rest
        | [] => None
        end
      else resolve_segs (seg :: res) rest
  end.

Definition resolve (p : string) : option (list string) :=
  resolve_segs [] (split_on slash p).

(** A trailing separator survives [path.join]; the operating system then
    insists that the entry be a directory. *)
Definition trailing_slash (p : string) : bool := is_slash (last_char p).

(** A name as [readdirSync] returns it: not empty, not [.] or [..], and
    without a separator. *)
Fixpoint has_slash (s : string) : bool :=
  match s with
  | EmptyString => false
  | String c rest => Ascii.eqb c slash || has_slash rest
  end.

Definition valid_nameb (s : string) : bool :=
  negb (String.eqb s "") && negb (String.eqb s ".")
  && negb (String.eqb s "..") && negb (has_slash s).

(** ** The file system *)

(** A directory lists its entries in the order [readdirSync] reports them. *)
#[warnings="-register-all"]
Inductive node : Type :=
| File (content : string)
| Dir (entries : list (string * node)).

Abbreviation entries := (list (string * node)).

Definition isDirectory (n : node) : bool :=
  match n with
  | Dir _ => true
  | File _ => false
  end.

Fixpoint get_entry (name : string) (es : entries) : option node :=
  match es with
  | [] => None
  | (n, v) :: rest => if String.eqb n name then Some v else get_entry name rest
  end.

Fixpoint set_entry (name : string) (v : node) (es : entries) : entries :=
  match es with
  | [] => [(name, v)]
  | (n, w) :: rest =>
      if String.eqb n name then (n, v) :: rest
      else (n, w) :: set_entry name v rest
  end.

Definition del_entry (name : string) (es : entries) : entries :=
  List.filter (fun e => negb (String.eqb e.1 name)) es.

(** [readdirSync]: the names, in listing order. *)
Definition names (es : entries) : list string := map fst es.

(** The entry a list of names leads to. *)
Fixpoint lookup_path (p : list string) (n : node) : option node :=
  match p with
  | [] => Some n
  | name :: rest =>
      match n with
      | File _ => None
      | Dir es =>
          match get_entry name es with
          | None => None
          | Some c => lookup_path rest c
          end
      end
  end.

(** [statSync]. *)
Fixpoint stat (p : list string) (n : node) : result node :=
  match p with
  | [] => Ok n
  | name :: rest =>
      match n with
      | File _ => Err ENOTDIR
      | Dir es =>
          match get_entry name es with
          | None => Err ENOENT
          | Some c => stat rest c
          end
      end
  end.

(** [fse.removeSync] ([rm -rf]): a missing entry is not an error, a file on
    the way to the entry is one.  The root of the tree is not an entry the
    tree could lose. *)
Fixpoint remove_at (p : list string) (n : node) : result node :=
  match p with
  | [] => Err EOUTSIDE
  | name :: rest =>
      match n with
      | File _ => Err ENOTDIR
      | Dir es =>
          match rest, get_entry name es with
          | [], _ => Ok (Dir (del_entry name es))
          | _, None => Ok n
          | _, Some c =>
              let? c' := remove_at rest c in Ok (Dir (set_entry name c' es))
          end
      end
  end.

(** [fse.ensureDirSync] ([mkdir -p]): the directories that are missing on
    the way are created; a file on the way or at the end is an error. *)
Fixpoint ensureDir_at (p : list string) (n : node) : result node :=
  match p with
  | [] =>
      match n with
      | Dir _ => Ok n
      | File _ => Err EEXIST
      end
  | name :: rest =>
      match n with
      | File _ => Err ENOTDIR
      | Dir es =>
          let c := default (Dir []) (get_entry name es) in
          let? c' := ensureDir_at rest c in Ok (Dir (set_entry name c' es))
      end
  end.

(** Put [v] at [p]; the directory that is to hold it must exist. *)
Fixpoint write_at (p : list string) (v : node) (n : node) : result node :=
  match p with
  | [] => Ok v
  | name :: rest =>
      match n with
      | File _ => Err ENOTDIR
      | Dir es =>
          match rest, get_entry name es with
          | [], _ => Ok (Dir (set_entry name v es))
          | _, None => Err ENOENT
          | _, Some c =>
              let? c' := write_at rest v c in Ok (Dir (set_entry name c' es))
          end
      end
  end.

Fixpoint is_prefix (p q : list string) : bool :=
  match p, q with
  | [], _ => true
  | _ :: _, [] => false
  | a :: p', b :: q' => String.eqb a b && is_prefix p' q'
  end.

Fixpoint path_eqb (p q : list string) : bool :=
  match p, q with
  | [], [] => true
  | a :: p', b :: q' => String.eqb a b && path_eqb p' q'
  | _, _ => false
  end.

(** [fs.renameSync] ([rename(2)]).  [fromDir] and [toDir] tell whether the
    path strings ended in a separator.  The source must exist; renaming an
    entry to itself does nothing; a directory does not go into itself; a
    file replaces a file, a directory an empty directory. *)
Definition rename_at (from to : list string) (fromDir toDir : bool) (n : node)
  : result node :=
  let? src := stat from n in
  if (fromDir || toDir) && negb (isDirectory src) then Err ENOTDIR
  else if path_eqb from to then Ok n
  else if is_prefix from to then Err EINVAL
  else
    match lookup_path to n, src with
    | Some (File _), Dir _ => Err ENOTDIR
    | Some (Dir _), File _ => Err EISDIR
    | Some (Dir (_ :: _)), Dir _ => Err ENOTEMPTY
    | _, _ => let? n' := remove_at from n in write_at to src n'
    end.

(** ** [traverseDir] and [removeEmptyDirs] *)

(** The body of [traverseDir] for a directory whose node is [d]: [dir] is
    its path and [relativeDir] its path below the directory the traversal
    started from. *)
Fixpoint traverse (d : node) (dir : string) (returnRelative : bool)
    (relativeDir : string) : list string :=
  match d with
  | File _ => []
  | Dir es =>
      flat_map
        (fun e =>
           let absPath := path_join dir e.1 in
           let relativePath := path_join relativeDir e.1 in
           match e.2 with
           | Dir _ =>
               if returnRelative then traverse e.2 absPath true relativePath
               else traverse e.2 absPath false ""
           | File _ => [if returnRelative then relativePath else absPath]
           end)
        es
  end.

(** [traverseDir(dir, returnRelative, relativeDir)]; [readdirSync] throws on
    a path that is not a directory. *)
Definition traverseDir (d : node) (dir : string) (returnRelative : bool)
    (relativeDir : string) : result (list string) :=
  match d with
  | File _ => Err ENOTDIR
  | Dir _ => Ok (traverse d dir returnRelative relativeDir)
  end.

(** [removeEmptyDirs(dir, isRoot)] on the node at [dir]: [None] when
    [rmdirSync(dir)] has removed it, the node left at [dir] otherwise. *)
Fixpoint removeEmptyDirs (dir : node) (isRoot : bool) : option node :=
  match dir with
  | File _ => Some dir
  | Dir files =>
      let files' :=
        omap (fun e => pair e.1 <$> removeEmptyDirs e.2 false) files in
      match files' with
      | [] => if isRoot then Some (Dir []) else None
      | _ :: _ => Some (Dir files')
      end
  end.

(** ** Recipes *)

Record boxConfigRecipeSpecMv : Set := { from : string; to : string }.

(** An entry of a recipe: [typeof file === "string"] or a move. *)
Inductive FileSpec : Set :=
| Plain (file : string)
| Mv (mv : boxConfigRecipeSpecMv).

(** [recipes.specs]: an array of file specifications, or an object whose
    keys are the choices (in the order of [Object.keys]). *)
#[warnings="-register-all"]
Inductive scope : Type :=
| Leaf (files : list FileSpec)
| Branch (children : list (string * scope)).

Record prompt : Set := { message : string }.

Record recipesT : Type :=
  { specs : scope; common : list FileSpec; prompts : list prompt }.

(** [boxConfig.recipes]: [None] is the object without keys. *)
Record boxConfig : Type := { recipes : option recipesT }.

(** A question of type [list] put to the user. *)
Record question : Set := { q_message : string; q_choices : list string }.

(** The person at the terminal: the answer to the [n]-th question asked. *)
Definition chooser := nat -> question -> string.

(** [recipeScope[choice]], handed to the rest of the loop. *)
Definition select {A : Type} (choice : string) (k : scope -> A) (undefined : A)
  : list (string * scope) -> A :=
  fix go children :=
    match children with
    | [] => undefined
    | (key, child) :: rest =>
        if String.eqb key choice then k child else go rest
    end.

(** The state of the loop that locates the recipe. *)
Record nav : Type :=
  { useOption : bool; counter : nat; asked : list question }.

(** One [inquirer.prompt] of the loop.  [when] runs first: with a valid
    preset token it stores the token and the user is not asked; otherwise
    it clears [useOption] and the user is asked. *)
Definition prompt_choice (user : chooser) (optionArr : list string)
    (msg : string) (curScopeChoices : list string) (st : nav) : string * nav :=
  let q := {| q_message := msg; q_choices := curScopeChoices |} in
  let ask useOption' :=
    (user (length (asked st)) q,
     {| useOption := useOption'; counter := S (counter st);
        asked := asked st ++ [q] |}) in
  if useOption st then
    match optionArr !! counter st with
    | Some curOptionChoice =>
        if bool_decide (curOptionChoice ∈ curScopeChoices) then
          (curOptionChoice,
           {| useOption := true; counter := S (counter st);
              asked := asked st |})
        else ask false
    | None => ask false
    end
  else ask false.

(** The [while (!recipeFiles)] loop. *)
Fixpoint locate (user : chooser) (rs : recipesT) (optionArr : list string)
    (recipeScope : scope) (st : nav) {struct recipeScope}
  : result (list FileSpec * nav) :=
  match recipeScope with
  | Leaf files => Ok (files ++ common rs, st)
  | Branch children =>
      match prompts rs !! counter st with
      | None => Err ETYPE
      | Some p =>
          let '(choice, st') :=
            prompt_choice user optionArr (message p) (map fst children) st in
          select choice (fun child => locate user rs optionArr child st')
            (Err ETYPE) children
      end
  end.

(** [recipeMvs] and [recipeFilesSet]. *)
Definition classify (recipeFiles : list FileSpec)
  : list boxConfigRecipeSpecMv * gset string :=
  fold_left
    (fun '(recipeMvs, recipeFilesSet) file =>
       match file with
       | Plain f => (recipeMvs, {[f]} ∪ recipeFilesSet)
       | Mv mv => (recipeMvs ++ [mv], {[from mv]} ∪ recipeFilesSet)
       end)
    recipeFiles ([], ∅).

(** ** [followBoxRecipe] *)

(** [fse.removeSync(path.join(destination, p))]. *)
Definition removeSync (p : string) (fs : node) : result node :=
  match resolve p with
  | None => Err EOUTSIDE
  | Some segs => remove_at segs fs
  end.

(** [extraFiles]. *)
Definition extraFiles (recipeFilesSet : gset string) (allFiles : list string)
  : list string :=
  List.filter (fun file => negb (bool_decide (file ∈ recipeFilesSet))) allFiles.

(** The body of [recipeMvs.forEach]. *)
Definition applyMv (mv : boxConfigRecipeSpecMv) (fs : node) : result node :=
  match resolve (from mv), resolve (to mv) with
  | Some mvFrom, Some mvTo =>
      let? fs' := ensureDir_at (removelast mvTo) fs in
      rename_at mvFrom mvTo (trailing_slash (from mv)) (trailing_slash (to mv))
        fs'
  | _, _ => Err EOUTSIDE
  end.

(** What a run did, besides the tree it left. *)
Record run : Type :=
  { tree : node;
    questions : list question;
    removed : list string;
    moved : list boxConfigRecipeSpecMv }.

(** Lines 274 to 291: prune, move, clean up. *)
Definition reconcile (destination : string) (recipeFilesSet : gset string)
    (recipeMvs : list boxConfigRecipeSpecMv) (fs : node)
  : result (node * list string) :=
  let? allFiles := traverseDir fs destination true "" in
  let extra := extraFiles recipeFilesSet allFiles in
  let? fs1 := forEach removeSync extra fs in
  let? fs2 := forEach applyMv recipeMvs fs1 in
  (* the root of the call is never removed *)
  match removeEmptyDirs fs2 true with
  | Some fs3 => Ok (fs3, extra)
  | None => Err ENOENT
  end.

(** The [option] argument: the text given on the command line, or
    [undefined]. *)
Inductive optionArg : Set :=
| Undefined
| Given (text : string).

(** [option.split?.(",") || []]: reading [split] off [undefined] throws. *)
Definition optionArrOf (option : optionArg) : result (list string) :=
  match option with
  | Undefined => Err ETYPE
  | Given text => Ok (split_on comma text)
  end.

Definition followBoxRecipe (user : chooser) (cfg : boxConfig)
    (destination : string) (option : optionArg) (fs : node) : result run :=
  match recipes cfg with
  | None =>
      Ok {| tree := fs; questions := []; removed := []; moved := [] |}
  | Some rs =>
      let useOption :=
        match option with
        | Undefined => false
        | Given _ => true
        end in
      let? optionArr := optionArrOf option in
      let? '(recipeFiles, st) :=
        locate user rs optionArr (specs rs)
          {| useOption := useOption; counter := 0; asked := [] |} in
      let '(recipeMvs, recipeFilesSet) := classify recipeFiles in
      let? '(fs', extra) :=
        reconcile destination recipeFilesSet recipeMvs fs in
      Ok {| tree := fs'; questions := asked st; removed := extra;
            moved := recipeMvs |}
  end.

(** ** The destination merger *)

(** Here the tree is the whole file system and paths are lists of names
    from its root: [tmpDir], [destination] and the working directory of the
    process may lie anywhere in it. *)

Record unboxOptions : Set := { force : bool }.

(** The answer to the [n]-th [confirm] question, [Overwrite file?]. *)
Definition confirmer := nat -> string -> bool.

(** [fs.readdirSync]. *)
Definition readdirSync (p : list string) (fs : node) : result (list string) :=
  let? d := stat p fs in
  match d with
  | Dir es => Ok (names es)
  | File _ => Err ENOTDIR
  end.

(** Copying the entries [es] of a directory, one after the other, into a
    directory that lists [ds]. *)
Definition copy_entries (copy : node -> option node -> result node)
  : entries -> entries -> result entries :=
  fix go es ds :=
    match es with
    | [] => Ok ds
    | (name, child) :: rest =>
        let? child' := copy child (get_entry name ds) in
        go rest (set_entry name child' ds)
    end.

(** What [fse.copySync] leaves at the target, which holds [dst] before:
    files are replaced, directories are merged entry by entry. *)
Fixpoint copy_node (src : node) (dst : option node) : result node :=
  match src with
  | File c =>
      match dst with
      | Some (Dir _) => Err ECOPY
      | _ => Ok (File c)
      end
  | Dir es =>
      match dst with
      | Some (File _) => Err ECOPY
      | Some (Dir ds) => let? ds' := copy_entries copy_node es ds in Ok (Dir ds')
      | None => let? ds' := copy_entries copy_node es [] in Ok (Dir ds')
      end
  end.

(** [fse.copySync(src, dst)]: refuses to copy an entry onto itself or a
    directory into itself, and creates the directory that is to hold the
    copy. *)
Definition copySync (src dst : list string) (fs : node) : result node :=
  let? s := stat src fs in
  if path_eqb src dst then Err ECOPY
  else if isDirectory s && is_prefix src dst then Err ECOPY
  else
    let? fs' := ensureDir_at (removelast dst) fs in
    let? copied := copy_node s (lookup_path dst fs') in
    write_at dst copied fs'.

(** [promptOverwrites]: [fse.removeSync(file)] receives the bare name, which
    the process resolves against its working directory [cwd]. *)
Fixpoint promptOverwrites (user : confirmer) (cwd : list string)
    (contentCollisions : list string) (confirms : list string) (fs : node)
  : result (list string * list string * node) :=
  match contentCollisions with
  | [] => Ok ([], confirms, fs)
  | file :: rest =>
      let overwrite := user (length confirms) file in
      let confirms' := confirms ++ [file] in
      if overwrite then
        let? fs' := remove_at (cwd ++ [file]) fs in
        let? '(overwriteContents, confirms'', fs'') :=
          promptOverwrites user cwd rest confirms' fs' in
        Ok (file :: overwriteContents, confirms'', fs'')
      else promptOverwrites user cwd rest confirms' fs
  end.

Definition includes (xs : list string) (x : string) : bool :=
  existsb (String.eqb x) xs.

Definition copyTempIntoDestination (user : confirmer) (cwd : list string)
    (tmpDir destination : list string) (options : unboxOptions) (fs : node)
  : result (node * list string) :=
  let? fs0 := ensureDir_at destination fs in
  let? boxContents := readdirSync tmpDir fs0 in
  let? destinationContents := readdirSync destination fs0 in
  let newContents :=
    List.filter (fun filename => negb (includes destinationContents filename))
      boxContents in
  let contentCollisions :=
    List.filter (fun filename => includes destinationContents filename)
      boxContents in
  let? '(shouldCopy, confirms, fs1) :=
    if force options then Ok (boxContents, [], fs0)
    else
      let? '(overwriteContents, confirms, fs1) :=
        promptOverwrites user cwd contentCollisions [] fs0 in
      Ok ((newContents ++ overwriteContents)%list, confirms, fs1) in
  let? fs2 :=
    forEach (fun file => copySync (tmpDir ++ [file]) (destination ++ [file]))
      shouldCopy fs1 in
  Ok (fs2, confirms).

(** ** Well-formed trees and specification vocabulary *)

Fixpoint nodupb (l : list string) : bool :=
  match l with
  | [] => true
  | x :: rest => negb (includes rest x) && nodupb rest
  end.

(** Names are those of real entries and no directory lists a name twice. *)
Fixpoint wfb (n : node) : bool :=
  match n with
  | File _ => true
  | Dir es =>
      nodupb (names es) && forallb (fun e => valid_nameb e.1 && wfb e.2) es
  end.

Definition wf (n : node) : Prop := wfb n = true.

(** The files at and below a node, each as the list of names leading to it. *)
Fixpoint files_of (n : node) : list (list string) :=
  match n with
  | File _ => [[]]
  | Dir es => flat_map (fun e => map (cons e.1) (files_of e.2)) es
  end.

(** [q] designates the entry [p] designates, or an entry below it. *)
Definition at_or_below (p q : string) : Prop :=
  ∃ segs rest, resolve p = Some segs ∧ resolve q = Some (segs ++ rest).

(** A copy of an entry: a file with the same content, or a directory. *)
Definition same_kind (a b : node) : Prop :=
  match a, b with
  | File c, File c' => c = c'
  | Dir _, Dir _ => True
  | _, _ => False
  end.

(** The listing of a directory once [removeEmptyDirs] has visited its
    entries. *)
Definition visited (files : entries) : entries :=
  omap (fun e => pair e.1 <$> removeEmptyDirs e.2 false) files.

(** [recipeScope[choice]]. *)
Definition get_child (choice : string) (children : list (string * scope))
  : option scope :=
  select choice Some None children.

(** The loop state [followBoxRecipe] starts from when [option] is given. *)
Definition nav0 : nav := {| useOption := true; counter := 0; asked := [] |}.

(** A recipe whose every variant is reached by exactly two choices; a
    question of type [list] needs at least one choice. *)
Definition leaves_only (children : list (string * scope)) : Prop :=
  children ≠ [] ∧ Forall (fun e => ∃ files, e.2 = Leaf files) children.

Definition two_level (children : list (string * scope)) : Prop :=
  children ≠ [] ∧
  Forall (fun e => ∃ inner, e.2 = Branch inner ∧ leaves_only inner) children.

(** The user picks one of the choices on offer, as a question of type
    [list] makes them do. *)
Definition picks_offered (user : chooser) : Prop :=
  ∀ n q, q_choices q ≠ [] -> user n q ∈ q_choices q.

(** The manifest in the words of its specification: the strings and the
    [from] fields make up [paths]; the moves are kept in order. *)
Definition plain_paths (specsList : list FileSpec) : list string :=
  omap (fun f => match f with Plain p => Some p | Mv _ => None end) specsList.

Definition move_specs (specsList : list FileSpec)
  : list boxConfigRecipeSpecMv :=
  omap (fun f => match f with Mv mv => Some mv | Plain _ => None end) specsList.

Definition manifest_paths (specsList : list FileSpec) : gset string :=
  list_to_set (plain_paths specsList)
  ∪ list_to_set (map from (move_specs specsList)).

(** ** Concrete runs *)

(** The recipe and the destination of the scenario in the specification. *)
Definition tpl_move : boxConfigRecipeSpecMv :=
  {| from := "tpl.txt"; to := "src/tpl.txt" |}.

Definition scenario_recipes : recipesT :=
  {| specs :=
       Branch [("js", Leaf [Plain "a.js"]);
               ("ts", Leaf [Plain "a.ts"; Mv tpl_move])];
     common := [Plain "README.md"];
     prompts := [{| message := "Which language?" |}] |}.

Definition scenario_config : boxConfig :=
  {| recipes := Some scenario_recipes |}.

Definition scenario_files : list FileSpec :=
  [Plain "a.ts"; Mv tpl_move; Plain "README.md"].

Definition scenario_destination : node :=
  Dir [("a.js", File "js source"); ("a.ts", File "ts source");
       ("tpl.txt", File "template"); ("README.md", File "read me");
       ("extra.md", File "notes")].

Definition scenario_result : node :=
  Dir [("a.ts", File "ts source"); ("README.md", File "read me");
       ("src", Dir [("tpl.txt", File "template")])].

(** The same destination for a recipe without moves. *)
Definition plain_files : list FileSpec := [Plain "a.ts"; Plain "README.md"].

Definition plain_result : node :=
  Dir [("a.ts", File "ts source"); ("README.md", File "read me")].

(** A user who takes the first choice on offer. *)
Definition first_choice : chooser :=
  fun _ q => default "" (head (q_choices q)).

(** A recipe with two levels of choices. *)
Definition two_level_recipes : recipesT :=
  {| specs :=
       Branch
         [("js", Branch [("react", Leaf [Plain "js/react.js"]);
                         ("vue", Leaf [Plain "js/vue.js"])]);
          ("ts", Branch [("react", Leaf [Plain "ts/react.ts"]);
                         ("vue", Leaf [Plain "ts/vue.ts"])])];
     common := [Plain "README.md"];
     prompts := [{| message := "Which language?" |};
                 {| message := "Which framework?" |}] |}.

Definition two_level_children : list (string * scope) :=
  match specs two_level_recipes with
  | Branch children => children
  | Leaf _ => []
  end.

(** A file system with a box unpacked in [/tmp/box] and a destination
    [/w/b] that already holds [a.txt] and an entry called [b]. *)
Definition merge_fs : node :=
  Dir [("tmp",
        Dir [("box",
              Dir [("a.txt", File "new"); ("b", Dir [("x", File "bx")]);
                   ("c", File "c")])]);
       ("w",
        Dir [("b",
              Dir [("a.txt", File "old"); ("b", Dir [("y", File "by")])])])].

(** A user who agrees to overwrite [b] and nothing else. *)
Definition overwrite_b : confirmer := fun _ file => String.eqb file "b".

(** What the forced merge of [/tmp/box] into [/w/b] leaves. *)
Definition merge_forced : node :=
  Dir [("tmp",
        Dir [("box",
              Dir [("a.txt", File "new"); ("b", Dir [("x", File "bx")]);
                   ("c", File "c")])]);
       ("w",
        Dir [("b",
              Dir [("a.txt", File "new");
                   ("b", Dir [("y", File "by"); ("x", File "bx")]);
                   ("c", File "c")])])].

(** The scenario's destination without the template. *)
Definition destination_without_template : node :=
  Dir [("a.js", File "js source"); ("a.ts", File "ts source");
       ("README.md", File "read me")].

(** ** Further vocabulary *)

(** An absolute path string: a separator and the names joined. *)
Definition abs_path (segs : list string) : string := "/" +:+ join_segs segs.


(** The leaf that a list of tokens selects, one token a level. *)
Fixpoint follow (tokens : list string) (recipeScope : scope) {struct recipeScope}
  : option (list FileSpec) :=
  match recipeScope with
  | Leaf files => Some files
  | Branch children =>
      match tokens with
      | [] => None
      | token :: rest =>
          select token (fun child => follow rest child) None children
      end
  end.

(** The names the user agrees to overwrite when asked about [files] in
    turn, [n] questions having been asked before. *)
Fixpoint agreed (user : confirmer) (n : nat) (files : list string)
  : list string :=
  match files with
  | [] => []
  | file :: rest =>
      if user n file then file :: agreed user (S n) rest
      else agreed user (S n) rest
  end.

(** ** [prepareToCopyFiles] *)

(** Here the tree is the whole file system and [tempDir] is given by its
    names from the root, as the directories of the merger are.

    [path.join(tempDir, fileName)]: the names of the joined path.
    [normalizeString] runs over the segments of [fileName] with the names
    of [tempDir] on its stack; the path is absolute, so a [..] at the root
    stays at the root.  The joined string ends in a separator exactly when
    [fileName] does; [path_join_names] shows that [path_string] of these
    names is the string [path_join] returns. *)
Definition join_names (tempDir : list string) (fileName : string)
  : list string :=
  normalizeString false (rev tempDir) (split_on slash fileName).

(** [fse.removeSync(p)] for the path with the names [segs]; [dirOnly] tells
    that the string ends in a separator.  A missing entry is not an error;
    a file on the way is one, and so is a file where the separator asks for
    a directory ([lstat] and [unlink] fail with [ENOTDIR]).  The root of the
    file system cannot be removed: [rmdir] fails on it, which this model
    reports as [EOUTSIDE]. *)
Definition rimraf (segs : list string) (dirOnly : bool) (fs : node)
  : result node :=
  match segs with
  | [] => Err EOUTSIDE
  | _ :: _ =>
      match lookup_path segs fs with
      | Some (File _) => if dirOnly then Err ENOTDIR else remove_at segs fs
      | _ => remove_at segs fs
      end
  end.

(** The body of [needingRemoval.map(...).forEach(...)]. *)
Definition removeListed (tempDir : list string) (fileName : string)
    (fs : node) : result node :=
  rimraf (join_names tempDir fileName) (trailing_slash fileName) fs.

(** [needingRemoval] is the array [ignore] of the configuration itself,
    not a copy: the two names pushed are in the configuration's array when
    the function returns, so the array is returned with the tree. *)
Definition prepareToCopyFiles (tempDir : list string) (ignore : list string)
    (fs : node) : result (node * list string) :=
  let needingRemoval :=
    (ignore ++ ["truffle-box.json"; "truffle-init.json"])%list in
  let? fs' := forEach (removeListed tempDir) needingRemoval fs in
  Ok (fs', needingRemoval).

(** The string [path.join] returns for names and a trailing separator. *)
Definition path_string (segs : list string) (dirOnly : bool) : string :=
  match segs with
  | [] => "/"
  | _ :: _ => if dirOnly then abs_path segs +:+ "/" else abs_path segs
  end.

(** ** [gitIgnoreFilter] *)

Definition LF : ascii := "010"%char.
Definition CR : ascii := "013"%char.

(** [text.split(/\r?\n/)]: a line ends at a line feed, and a carriage
    return just before it goes with it. *)
Fixpoint split_lines (text : string) : list string :=
  match text with
  | EmptyString => [""]
  | String c rest =>
      let same_line :=
        match split_lines rest with
        | [] => [String c ""]
        | w :: ws => String c w :: ws
        end in
      if Ascii.eqb c LF then "" :: split_lines rest
      else if Ascii.eqb c CR then
        match rest with
        | String c' rest' =>
            if Ascii.eqb c' LF then "" :: split_lines rest' else same_line
        | EmptyString => same_line
        end
      else same_line
  end.

(** [p.replace(/\/$/, "")]. *)
Fixpoint strip_slash (p : string) : string :=
  match p with
  | EmptyString => ""
  | String c EmptyString => if Ascii.eqb c slash then "" else p
  | String c rest => String c (strip_slash rest)
  end.

(** The patterns [gitIgnoreFilter] adds to the filter; [gitIgnore] is what
    [readFile] gave, [None] when it threw. *)
Definition gitIgnoreFilter (gitIgnore : option string) : list string :=
  match gitIgnore with
  | Some text => map strip_slash (split_lines text)
  | None => []
  end.

(** A line of text: no line feed and no carriage return in it. *)
Fixpoint no_line_break (l : string) : bool :=
  match l with
  | EmptyString => true
  | String c rest =>
      negb (Ascii.eqb c LF) && negb (Ascii.eqb c CR) && no_line_break rest
  end.

(** ** Further concrete runs *)

Definition merge_entries : entries :=
  match merge_fs with
  | Dir es => es
  | File _ => []
  end.

(** A tree with directories that hold no file. *)
Definition sparse_entries : entries :=
  [("a", Dir [("b", Dir [])]);
   ("c", Dir [("d", File "x"); ("e", Dir [])]);
   ("f", File "y")].

Definition sparse_pruned_entries : entries :=
  [("c", Dir [("d", File "x")]); ("f", File "y")].

Definition scenario_entries : entries :=
  match scenario_destination with
  | Dir es => es
  | File _ => []
  end.

(** An unpacked box with its description and a directory of notes, in
    [/tmp/box], beside a file that is not of the box. *)
Definition box_tree : node :=
  Dir [("truffle-box.json", File "{}"); ("README.md", File "read me");
       ("docs", Dir [("notes.md", File "notes")]);
       ("a.ts", File "ts source")].

Definition box_fs : node :=
  Dir [("tmp", Dir [("box", box_tree); ("outside.txt", File "o")])].

(** What [prepareToCopyFiles] leaves of it when [ignore] lists the notes,
    the read-me and the file beside the box. *)
Definition box_prepared : node :=
  Dir [("tmp", Dir [("box", Dir [("a.ts", File "ts source")])])].


(** The recipe with two levels after a first token that is no choice:
    both levels were asked. *)
Definition two_level_asked : nav :=
  {| useOption := false; counter := 2;
     asked := [{| q_message := "Which language?"; q_choices := ["js"; "ts"] |};
               {| q_message := "Which framework?";
                  q_choices := ["react"; "vue"] |}] |}.

(** What the merge of [/tmp/box] into [/w/b] leaves without [force], run
    from [/w/b] by the user who agrees to overwrite [b] only. *)
Definition merge_asked : node :=
  Dir [("tmp",
        Dir [("box",
              Dir [("a.txt", File "new"); ("b", Dir [("x", File "bx")]);
                   ("c", File "c")])]);
       ("w",
        Dir [("b",
              Dir [("a.txt", File "old"); ("c", File "c");
                   ("b", Dir [("x", File "bx")])])])].

(** A box whose [a.txt] is a directory, for a destination whose [a.txt] is
    a file. *)
Definition clash_fs : node :=
  Dir [("tmp", Dir [("box", Dir [("a.txt", Dir [("x", File "bx")])])]);
       ("w", Dir [("b", Dir [("a.txt", File "old")])])].

(** What the merge of [/tmp/box] into [/w/new], which does not exist,
    leaves. *)
Definition merge_new : node :=
  Dir [("tmp",
        Dir [("box",
              Dir [("a.txt", File "new"); ("b", Dir [("x", File "bx")]);
                   ("c", File "c")])]);
       ("w",
        Dir [("b",
              Dir [("a.txt", File "old"); ("b", Dir [("y", File "by")])]);
             ("new",
              Dir [("a.txt", File "new"); ("b", Dir [("x", File "bx")]);
                   ("c", File "c")])])].
(** * Properties *)

(** ** Induction on trees *)

Section node_induction.

Variable P : node -> Prop.
Hypothesis P_File : forall c, P (File c).
Hypothesis P_Dir : forall es, Forall (fun e => P e.2) es -> P (Dir es).

Fixpoint node_ind' (n : node) : P n :=
  match n with
  | File c => P_File c
  | Dir es =>
      P_Dir es
        ((fix go (es : entries) : Forall (fun e => P e.2) es :=
            match es with
            | [] => List.Forall_nil _
            | (name, child) :: rest =>
                @List.Forall_cons _ (fun e => P e.2) (name, child) rest
                  (node_ind' child) (go rest)
            end) es)
  end.

End node_induction.

(** ** Entries of a directory *)

Ltac case_eqb a b :=
  let E := fresh "E" in
  destruct (String.eqb a b) eqn:E;
  [apply String.eqb_eq in E | apply String.eqb_neq in E].

Lemma get_entry_In name es v :
  get_entry name es = Some v -> In (name, v) es.
Proof.
  induction es as [|[n w] rest IH]; simpl; [discriminate|].
  case_eqb n name.
  - intros [= ->]. left. by subst.
  - intros H. right. auto.
Qed.

Lemma get_entry_set_eq name v es :
  get_entry name (set_entry name v es) = Some v.
Proof.
  induction es as [|[n w] rest IH]; simpl.
  - by rewrite String.eqb_refl.
  - case_eqb n name; simpl.
    + subst. by rewrite String.eqb_refl.
    + apply String.eqb_neq in E. by rewrite E.
Qed.

Lemma get_entry_set_ne name name' v es :
  name ≠ name' -> get_entry name' (set_entry name v es) = get_entry name' es.
Proof.
  intros Hne. induction es as [|[n w] rest IH]; simpl.
  - apply String.eqb_neq in Hne. by rewrite Hne.
  - case_eqb n name; simpl.
    + subst. apply String.eqb_neq in Hne. by rewrite Hne.
    + by rewrite IH.
Qed.

Lemma get_entry_del_eq name es : get_entry name (del_entry name es) = None.
Proof.
  induction es as [|[n w] rest IH]; simpl; [done|].
  case_eqb n name; simpl; [done|].
  apply String.eqb_neq in E. by rewrite E.
Qed.

Lemma get_entry_del_ne name name' es :
  name ≠ name' -> get_entry name' (del_entry name es) = get_entry name' es.
Proof.
  intros Hne. induction es as [|[n w] rest IH]; simpl; [done|].
  case_eqb n name; simpl.
  - subst. apply String.eqb_neq in Hne. by rewrite Hne.
  - by rewrite IH.
Qed.

(** ** [removeEmptyDirs] *)

Lemma removeEmptyDirs_Dir files isRoot :
  removeEmptyDirs (Dir files) isRoot =
    match visited files with
    | [] => if isRoot then Some (Dir []) else None
    | _ :: _ => Some (Dir (visited files))
    end.
Proof. reflexivity. Qed.

Lemma removeEmptyDirs_root files :
  removeEmptyDirs (Dir files) true = Some (Dir (visited files)).
Proof. rewrite removeEmptyDirs_Dir. by destruct (visited files). Qed.

Lemma visited_cons name child rest :
  visited ((name, child) :: rest) =
    match removeEmptyDirs child false with
    | Some child' => (name, child') :: visited rest
    | None => visited rest
    end.
Proof. unfold visited. simpl. by destruct (removeEmptyDirs child false). Qed.

Lemma get_entry_visited name files c' :
  get_entry name (visited files) = Some c' ->
  ∃ c, In (name, c) files ∧ removeEmptyDirs c false = Some c'.
Proof.
  induction files as [|[n w] rest IH]; [discriminate|].
  rewrite visited_cons.
  destruct (removeEmptyDirs w false) as [w'|] eqn:Hw; simpl.
  - case_eqb n name.
    + intros [= ->]. subst. exists w. split; [by left | done].
    + intros H. destruct (IH H) as (c & Hin & Hc). exists c. split; [by right|done].
  - intros H. destruct (IH H) as (c & Hin & Hc). exists c. split; [by right|done].
Qed.

(** A node that [removeEmptyDirs] leaves in place without being told that it
    is the root holds no empty directory, itself included. *)
Lemma removeEmptyDirs_no_empty n :
  ∀ n' p es,
    removeEmptyDirs n false = Some n' ->
    lookup_path p n' = Some (Dir es) -> es ≠ [].
Proof.
  induction n as [c|files IH] using node_ind'; intros n' p es Hrm Hlk.
  - simpl in Hrm. injection Hrm as <-. destruct p; simpl in Hlk; discriminate.
  - rewrite removeEmptyDirs_Dir in Hrm.
    destruct (visited files) as [|e0 rest0] eqn:Hv; [discriminate|].
    injection Hrm as <-. destruct p as [|name p].
    + simpl in Hlk. injection Hlk as <-. discriminate.
    + rewrite <- Hv in Hlk. cbn [lookup_path] in Hlk.
      destruct (get_entry name (visited files)) as [c'|] eqn:Hg; [|discriminate].
      apply get_entry_visited in Hg as (c & Hin & Hc).
      rewrite Forall_forall in IH.
      apply (IH (name, c)) with (n' := c') (p := p); auto.
      by apply list_elem_of_In.
Qed.

(** A file below a node keeps the node, and the file, in place. *)
Lemma removeEmptyDirs_keeps_file n :
  ∀ isRoot p c,
    lookup_path p n = Some (File c) ->
    ∃ n', removeEmptyDirs n isRoot = Some n' ∧
          lookup_path p n' = Some (File c).
Proof.
  induction n as [c0|files IH] using node_ind'; intros isRoot p c Hlk.
  - exists (File c0). split; [done|]. done.
  - destruct p as [|name p]; [discriminate|]. simpl in Hlk.
    destruct (get_entry name files) as [child|] eqn:Hg; [|discriminate].
    assert (Hvis : ∃ child', get_entry name (visited files) = Some child' ∧
                             lookup_path p child' = Some (File c)).
    { clear isRoot. induction files as [|[n w] rest IHrest]; [discriminate|].
      apply Forall_cons_1 in IH as [IHw IHr]. simpl in Hg.
      rewrite visited_cons. case_eqb n name.
      - injection Hg as ->. simpl in IHw.
        destruct (IHw false p c Hlk) as (w' & -> & Hw'). simpl.
        subst. rewrite String.eqb_refl. eauto.
      - destruct (IHrest IHr Hg) as (child' & Hc' & Hl').
        destruct (removeEmptyDirs w false); simpl.
        + apply String.eqb_neq in E. rewrite E. eauto.
        + eauto. }
    destruct Hvis as (child' & Hg' & Hl').
    rewrite removeEmptyDirs_Dir.
    destruct (visited files) as [|e0 rest0] eqn:Hv; [discriminate|].
    exists (Dir (e0 :: rest0)). split; [done|].
    simpl. simpl in Hg'. by rewrite Hg'.
Qed.

Lemma removeEmptyDirs_None_is_dir n isRoot :
  removeEmptyDirs n isRoot = None -> isDirectory n = true ∧ isRoot = false.
Proof.
  destruct n as [c|files]; [discriminate|].
  rewrite removeEmptyDirs_Dir. destruct (visited files), isRoot; done.
Qed.

Lemma removeEmptyDirs_isDirectory n isRoot n' :
  removeEmptyDirs n isRoot = Some n' -> isDirectory n' = isDirectory n.
Proof.
  destruct n as [c|files]; [by intros [= <-]|].
  rewrite removeEmptyDirs_Dir.
  destruct (visited files), isRoot; intros [= <-] || discriminate; done.
Qed.

(** The files [traverseDir] reports are the same before and after. *)
Lemma removeEmptyDirs_traverse n :
  ∀ isRoot dir returnRelative relativeDir,
    traverse (default (Dir []) (removeEmptyDirs n isRoot))
      dir returnRelative relativeDir
    = traverse n dir returnRelative relativeDir.
Proof.
  induction n as [c|files IH] using node_ind'; intros isRoot dir rr rel.
  - done.
  - assert (Hv : traverse (Dir (visited files)) dir rr rel
                 = traverse (Dir files) dir rr rel).
    { cbn [traverse]. induction files as [|[name child] rest IHrest]; [done|].
      apply Forall_cons_1 in IH as [IHc IHr]. specialize (IHrest IHr).
      rewrite visited_cons. cbn [flat_map fst snd]. simpl in IHc.
      destruct (removeEmptyDirs child false) as [child'|] eqn:Hc.
      - cbn [flat_map fst snd]. rewrite IHrest. f_equal.
        pose proof (removeEmptyDirs_isDirectory _ _ _ Hc) as Hd.
        pose proof (IHc false) as IHc'. rewrite Hc in IHc'. simpl in IHc'.
        destruct child as [?|?], child' as [?|?]; try discriminate Hd.
        + done.
        + by rewrite !IHc'.
      - rewrite IHrest.
        pose proof (removeEmptyDirs_None_is_dir _ _ Hc) as [Hd _].
        pose proof (IHc false) as IHc'. rewrite Hc in IHc'.
        destruct child as [?|ces]; [discriminate|].
        assert (Hnil : ∀ d r l, traverse (Dir ces) d r l = []).
        { intros d r l. by rewrite <- IHc'. }
        cbn [flat_map fst snd]. rewrite !Hnil. by destruct rr. }
    rewrite removeEmptyDirs_Dir.
    destruct (visited files) as [|e0 rest0] eqn:Hvis.
    + destruct isRoot; simpl; exact Hv.
    + exact Hv.
Qed.

(** C5: [removeEmptyDirs(dir)] never removes [dir] itself, even when it ends
    up empty; below it no directory without entries remains, at any depth;
    on a path that is not a directory the call changes nothing. *)
Theorem removeEmptyDirs_keeps_root_and_leaves_no_empty_dir (dir : node) :
  ∃ dir',
    removeEmptyDirs dir true = Some dir'
    ∧ isDirectory dir' = isDirectory dir
    ∧ (∀ p es, p ≠ [] -> lookup_path p dir' = Some (Dir es) -> es ≠ [])
    ∧ (isDirectory dir = false -> dir' = dir).
Proof.
  destruct dir as [c|files].
  - exists (File c). repeat split; try done.
    intros p es _ Hlk. destruct p; discriminate.
  - exists (Dir (visited files)). rewrite removeEmptyDirs_root.
    repeat split; try done.
    intros [|name p] es Hp Hlk; [done|]. cbn [lookup_path] in Hlk.
    destruct (get_entry name (visited files)) as [c'|] eqn:Hg; [|discriminate].
    apply get_entry_visited in Hg as (c & _ & Hc).
    eapply removeEmptyDirs_no_empty; eauto.
Qed.

(** C10: [removeEmptyDirs(dir)] removes directories only: every file below
    [dir] is afterwards found under the same names with the same content,
    [traverseDir] lists the same files, and an entry that is gone was a
    directory. *)
Theorem removeEmptyDirs_preserves_files (dir : node) :
  ∃ dir',
    removeEmptyDirs dir true = Some dir'
    ∧ (∀ p c, lookup_path p dir = Some (File c) ->
              lookup_path p dir' = Some (File c))
    ∧ (∀ d returnRelative relativeDir,
         traverseDir dir' d returnRelative relativeDir
         = traverseDir dir d returnRelative relativeDir)
    ∧ (∀ p n, lookup_path p dir = Some n -> lookup_path p dir' = None ->
              isDirectory n = true).
Proof.
  assert (∃ dir', removeEmptyDirs dir true = Some dir'
                  ∧ isDirectory dir' = isDirectory dir) as (dir' & Hrm & Hd).
  { destruct dir as [c|files]; [by exists (File c)|].
    exists (Dir (visited files)). by rewrite removeEmptyDirs_root. }
  assert (Hfiles : ∀ p c, lookup_path p dir = Some (File c) ->
                          lookup_path p dir' = Some (File c)).
  { intros p c Hlk.
    destruct (removeEmptyDirs_keeps_file dir true p c Hlk) as (n' & Hn' & Hl').
    congruence. }
  exists dir'. split; [done|]. split; [done|]. split.
  - intros d rr rel. unfold traverseDir.
    pose proof (removeEmptyDirs_traverse dir true d rr rel) as Ht.
    rewrite Hrm in Ht. simpl in Ht.
    destruct dir, dir'; try discriminate Hd; [done|]. by rewrite Ht.
  - intros p [c|es] Hlk Hgone; [|done].
    apply Hfiles in Hlk. congruence.
Qed.

(** ** The manifest *)

Lemma classify_fold (l : list FileSpec) :
  ∀ (mvs : list boxConfigRecipeSpecMv) (set : gset string),
    fold_left
      (fun '(recipeMvs, recipeFilesSet) file =>
         match file with
         | Plain f => (recipeMvs, {[f]} ∪ recipeFilesSet)
         | Mv mv => (recipeMvs ++ [mv], {[from mv]} ∪ recipeFilesSet)
         end)
      l (mvs, set)
    = (mvs ++ move_specs l, manifest_paths l ∪ set).
Proof.
  unfold manifest_paths.
  induction l as [|[f|mv] rest IH]; intros mvs set; simpl.
  - rewrite app_nil_r. f_equal. set_solver.
  - rewrite IH. f_equal. unfold plain_paths, move_specs. simpl. set_solver.
  - rewrite IH, <- app_assoc. f_equal.
    unfold plain_paths, move_specs. simpl. set_solver.
Qed.

Lemma classify_spec (l : list FileSpec) :
  classify l = (move_specs l, manifest_paths l).
Proof.
  unfold classify. rewrite classify_fold. f_equal. set_solver.
Qed.

Lemma elem_of_plain_paths p l : p ∈ plain_paths l <-> Plain p ∈ l.
Proof.
  unfold plain_paths. rewrite list_elem_of_omap. split.
  - intros ([q|mv] & Hin & Heq); [|discriminate]. by injection Heq as ->.
  - intros Hin. by exists (Plain p).
Qed.

Lemma elem_of_move_specs mv l : mv ∈ move_specs l <-> Mv mv ∈ l.
Proof.
  unfold move_specs. rewrite list_elem_of_omap. split.
  - intros ([q|mv'] & Hin & Heq); [discriminate|]. by injection Heq as ->.
  - intros Hin. by exists (Mv mv).
Qed.

Lemma elem_of_manifest_paths p l :
  p ∈ manifest_paths l <->
  Plain p ∈ l ∨ ∃ mv, Mv mv ∈ l ∧ from mv = p.
Proof.
  unfold manifest_paths.
  rewrite elem_of_union, !elem_of_list_to_set, elem_of_plain_paths,
    list_elem_of_fmap.
  split; (intros [H|H]; [by left|right]).
  - destruct H as (mv & -> & Hin). exists mv. by rewrite <- elem_of_move_specs.
  - destruct H as (mv & Hin & <-). exists mv. by rewrite elem_of_move_specs.
Qed.

(** C4: on reaching a leaf the loop hands over the leaf followed by the
    common files; of that list, [recipeFilesSet] holds exactly the plain
    strings and the [from] fields, and [recipeMvs] the moves in their
    order. *)
Theorem manifest_of_leaf_and_common
    (user : chooser) (rs : recipesT) (optionArr : list string)
    (leaf : list FileSpec) (st : nav) :
  let recipeFiles := leaf ++ common rs in
  locate user rs optionArr (Leaf leaf) st = Ok (recipeFiles, st)
  ∧ (classify recipeFiles).1 = move_specs recipeFiles
  ∧ (classify recipeFiles).2 = manifest_paths recipeFiles
  ∧ (∀ p, p ∈ (classify recipeFiles).2 <->
          Plain p ∈ recipeFiles ∨ ∃ mv, Mv mv ∈ recipeFiles ∧ from mv = p)
  ∧ (∀ mv, mv ∈ (classify recipeFiles).1 <-> Mv mv ∈ recipeFiles).
Proof.
  intros recipeFiles. rewrite classify_spec. simpl. repeat split; try done.
  - by apply elem_of_manifest_paths.
  - by apply elem_of_manifest_paths.
  - by apply elem_of_move_specs.
  - by apply elem_of_move_specs.
Qed.

(** ** No recipe *)

(** C9: with a recipe object that has no keys [followBoxRecipe] returns at
    once: nothing is asked, removed or moved and the tree is as it was. *)
Theorem followBoxRecipe_without_recipes
    (user : chooser) (destination : string) (option : optionArg) (fs : node) :
  followBoxRecipe user {| recipes := None |} destination option fs
  = Ok {| tree := fs; questions := []; removed := []; moved := [] |}.
Proof. reflexivity. Qed.

(** ** Locating the recipe *)

Lemma select_get_child {A : Type} choice (k : scope -> A) (u : A) children :
  select choice k u children
  = match get_child choice children with
    | Some child => k child
    | None => u
    end.
Proof.
  unfold get_child. induction children as [|[key child] rest IH]; simpl; [done|].
  by destruct (String.eqb key choice).
Qed.

Lemma get_child_member choice children :
  choice ∈ map fst children ->
  ∃ child, get_child choice children = Some child ∧ (choice, child) ∈ children.
Proof.
  unfold get_child. induction children as [|[key child] rest IH]; simpl.
  - by intros ?%elem_of_nil.
  - intros Hin. case_eqb key choice.
    + subst. exists child. split; [done | left].
    + apply elem_of_cons in Hin as [->|Hin]; [done|].
      destruct (IH Hin) as (c & Hc & Hc'). exists c. split; [done | by right].
Qed.

Lemma locate_Branch user rs optionArr children st p :
  prompts rs !! counter st = Some p ->
  locate user rs optionArr (Branch children) st
  = let '(choice, st') :=
      prompt_choice user optionArr (message p) (map fst children) st in
    match get_child choice children with
    | Some child => locate user rs optionArr child st'
    | None => Err ETYPE
    end.
Proof.
  intros Hp. cbn [locate]. rewrite Hp.
  destruct (prompt_choice _ _ _ _ _) as [choice st'].
  apply select_get_child.
Qed.

(** A valid preset token is taken without a question. *)
Lemma prompt_choice_preset user optionArr msg choices st token :
  useOption st = true ->
  optionArr !! counter st = Some token ->
  token ∈ choices ->
  prompt_choice user optionArr msg choices st
  = (token, {| useOption := true; counter := S (counter st);
               asked := asked st |}).
Proof.
  intros Hu Ht Hin. unfold prompt_choice. rewrite Hu, Ht.
  by rewrite bool_decide_eq_true_2.
Qed.

(** Without a valid preset token the user is asked and presets are off. *)
Lemma prompt_choice_ask user optionArr msg choices st :
  (useOption st = true ->
   ∀ token, optionArr !! counter st = Some token -> token ∉ choices) ->
  prompt_choice user optionArr msg choices st
  = let q := {| q_message := msg; q_choices := choices |} in
    (user (length (asked st)) q,
     {| useOption := false; counter := S (counter st);
        asked := asked st ++ [q] |}).
Proof.
  intros Hbad. unfold prompt_choice.
  destruct (useOption st); [|done].
  destruct (optionArr !! counter st) as [token|] eqn:Ht; [|done].
  by rewrite bool_decide_eq_false_2 by auto.
Qed.

Lemma two_level_child children choice child :
  two_level children -> (choice, child) ∈ children ->
  ∃ inner, child = Branch inner ∧ leaves_only inner.
Proof.
  intros [_ Hall] Hin. rewrite Forall_forall in Hall. exact (Hall _ Hin).
Qed.

Lemma leaves_only_child inner choice child :
  leaves_only inner -> (choice, child) ∈ inner -> ∃ files, child = Leaf files.
Proof.
  intros [_ Hall] Hin. rewrite Forall_forall in Hall. exact (Hall _ Hin).
Qed.

Lemma map_fst_nonempty {A B : Type} (l : list (A * B)) : l ≠ [] -> map fst l ≠ [].
Proof. by destruct l. Qed.

(** C3: in a recipe with two levels of choices, preset tokens that are valid
    at both depths leave the user unasked; a first token that is not among
    the first level's choices makes the loop ask at both levels, and the
    second level follows the user's answer whatever the second token is. *)
Theorem locate_two_levels
    (user : chooser) (rs : recipesT) (option : string)
    (children : list (string * scope))
    (Hspecs : specs rs = Branch children)
    (Htwo : two_level children)
    (Hprompts : 2 ≤ length (prompts rs)) :
  let optionArr := split_on comma option in
  (∀ token0 token1 inner,
      optionArr !! 0 = Some token0 -> token0 ∈ map fst children ->
      get_child token0 children = Some (Branch inner) ->
      optionArr !! 1 = Some token1 -> token1 ∈ map fst inner ->
      ∃ leaf,
        get_child token1 inner = Some (Leaf leaf)
        ∧ locate user rs optionArr (specs rs) nav0
          = Ok (leaf ++ common rs,
                {| useOption := true; counter := 2; asked := [] |}))
  ∧ ((∀ token0, optionArr !! 0 = Some token0 -> token0 ∉ map fst children) ->
     picks_offered user ->
     ∃ p0 p1 inner leaf,
       prompts rs !! 0 = Some p0 ∧ prompts rs !! 1 = Some p1
       ∧ let q0 := {| q_message := message p0;
                      q_choices := map fst children |} in
         let q1 := {| q_message := message p1;
                      q_choices := map fst inner |} in
         get_child (user 0 q0) children = Some (Branch inner)
         ∧ get_child (user 1 q1) inner = Some (Leaf leaf)
         ∧ locate user rs optionArr (specs rs) nav0
           = Ok (leaf ++ common rs,
                 {| useOption := false; counter := 2; asked := [q0; q1] |})).
Proof.
  intros optionArr.
  destruct (prompts rs) as [|p0 [|p1 ps]] eqn:Hps; simpl in Hprompts; try lia.
  rewrite Hspecs. split.
  - intros token0 token1 inner H0 Hin0 Hc0 H1 Hin1.
    destruct (get_child_member _ _ Hin1) as (child & Hc1 & Hm1).
    destruct (get_child_member _ _ Hin0) as (child0 & Hc0' & Hm0).
    rewrite Hc0 in Hc0'. injection Hc0' as <-.
    destruct (two_level_child _ _ _ Htwo Hm0) as (inner' & [= <-] & Hleaves).
    destruct (leaves_only_child _ _ _ Hleaves Hm1) as (leaf & ->).
    exists leaf. split; [done|].
    rewrite (locate_Branch _ _ _ _ _ p0) by (by rewrite Hps).
    rewrite (prompt_choice_preset _ _ _ _ _ token0) by done.
    rewrite Hc0.
    rewrite (locate_Branch _ _ _ _ _ p1) by (by rewrite Hps).
    rewrite (prompt_choice_preset _ _ _ _ _ token1) by done.
    cbn [counter asked]. by rewrite Hc1.
  - intros Hbad Huser.
    set (q0 := {| q_message := message p0; q_choices := map fst children |}).
    assert (Ha0 : user 0 q0 ∈ map fst children).
    { apply (Huser 0 q0). apply map_fst_nonempty, Htwo. }
    destruct (get_child_member _ _ Ha0) as (child0 & Hc0 & Hm0).
    destruct (two_level_child _ _ _ Htwo Hm0) as (inner & -> & Hleaves).
    set (q1 := {| q_message := message p1; q_choices := map fst inner |}).
    assert (Ha1 : user 1 q1 ∈ map fst inner).
    { apply (Huser 1 q1). apply map_fst_nonempty, Hleaves. }
    destruct (get_child_member _ _ Ha1) as (child1 & Hc1 & Hm1).
    destruct (leaves_only_child _ _ _ Hleaves Hm1) as (leaf & ->).
    exists p0, p1, inner, leaf. repeat split; try done.
    rewrite (locate_Branch _ _ _ _ _ p0) by (by rewrite Hps).
    rewrite prompt_choice_ask by (intros _; exact Hbad).
    cbn [nav0 asked counter length app]. fold q0. rewrite Hc0.
    rewrite (locate_Branch _ _ _ _ _ p1) by (by rewrite Hps).
    rewrite prompt_choice_ask by done.
    cbn [asked counter length app]. fold q1. by rewrite Hc1.
Qed.

(** ** Path strings *)

Lemma valid_nameb_inv s :
  valid_nameb s = true ->
  String.eqb s "" = false ∧ String.eqb s "." = false
  ∧ String.eqb s ".." = false ∧ has_slash s = false.
Proof.
  unfold valid_nameb. rewrite !andb_true_iff, !negb_true_iff. tauto.
Qed.

Lemma split_on_no_slash s : has_slash s = false -> split_on slash s = [s].
Proof.
  induction s as [|c s IH]; simpl; [done|].
  intros [Hc Hs]%orb_false_iff. rewrite Hc, IH; done.
Qed.

Lemma append_nil (b : string) : "" +:+ b = b.
Proof. reflexivity. Qed.

Lemma append_cons (x : ascii) (a b : string) :
  String x a +:+ b = String x (a +:+ b).
Proof. reflexivity. Qed.

Lemma split_on_append a b :
  has_slash a = false ->
  split_on slash (a +:+ "/" +:+ b) = a :: split_on slash b.
Proof.
  induction a as [|c a IH].
  - intros _. by rewrite append_nil, append_cons, append_nil.
  - rewrite append_cons. simpl.
    intros [Hc Ha]%orb_false_iff. rewrite Hc, IH; done.
Qed.

Lemma append_assoc (a b c : string) : (a +:+ b) +:+ c = a +:+ b +:+ c.
Proof.
  induction a as [|x a IH]; [done|]. rewrite !append_cons. by rewrite IH.
Qed.

Lemma join_segs_cons a b rest :
  join_segs (a :: b :: rest) = a +:+ "/" +:+ join_segs (b :: rest).
Proof. reflexivity. Qed.

Lemma join_segs_snoc segs name :
  segs ≠ [] -> join_segs (segs ++ [name]) = join_segs segs +:+ "/" +:+ name.
Proof.
  induction segs as [|a [|b rest] IH]; intros Hne; [done|done|].
  change ((a :: b :: rest) ++ [name]) with (a :: b :: (rest ++ [name])).
  rewrite !join_segs_cons.
  change (b :: rest ++ [name]) with ((b :: rest) ++ [name]).
  rewrite IH by done. by rewrite !append_assoc.
Qed.

Lemma split_on_join_segs segs :
  segs ≠ [] -> Forall (fun s => has_slash s = false) segs ->
  split_on slash (join_segs segs) = segs.
Proof.
  induction segs as [|a [|b rest] IH]; intros Hne Hall; [done| |].
  - apply Forall_cons_1 in Hall as [Ha _]. by apply split_on_no_slash.
  - apply Forall_cons_1 in Hall as [Ha Hrest].
    rewrite join_segs_cons, split_on_append by done.
    by rewrite IH.
Qed.

Lemma resolve_segs_valid segs :
  Forall (fun s => valid_nameb s = true) segs ->
  ∀ res, resolve_segs res segs = Some (rev res ++ segs).
Proof.
  induction 1 as [|s segs Hs _ IH]; intros res; simpl.
  - by rewrite app_nil_r.
  - apply valid_nameb_inv in Hs as (-> & -> & -> & _). simpl.
    rewrite IH. simpl. by rewrite <- app_assoc.
Qed.

Lemma normalizeString_valid allow segs :
  Forall (fun s => valid_nameb s = true) segs ->
  ∀ res, normalizeString allow res segs = rev res ++ segs.
Proof.
  induction 1 as [|s segs Hs _ IH]; intros res; simpl.
  - by rewrite app_nil_r.
  - apply valid_nameb_inv in Hs as (-> & -> & -> & _). simpl.
    rewrite IH. simpl. by rewrite <- app_assoc.
Qed.

Lemma valid_no_slash segs :
  Forall (fun s => valid_nameb s = true) segs ->
  Forall (fun s => has_slash s = false) segs.
Proof.
  intros H. eapply Forall_impl; [exact H|].
  intros s Hs. by apply valid_nameb_inv in Hs as (_ & _ & _ & ?).
Qed.

(** The string [traverseDir] builds for a file resolves to the names that
    lead to the file. *)
Lemma resolve_join_segs segs :
  Forall (fun s => valid_nameb s = true) segs ->
  resolve (join_segs segs) = Some segs.
Proof.
  intros Hall. unfold resolve. destruct segs as [|a rest]; [done|].
  rewrite split_on_join_segs by (done || by apply valid_no_slash).
  by rewrite resolve_segs_valid.
Qed.

Lemma last_char_slash s : is_slash (last_char s) = true -> has_slash s = true.
Proof.
  induction s as [|c s IH]; simpl; [done|].
  destruct s as [|c' s'].
  - simpl. intros ->. done.
  - intros H. rewrite (IH H). apply orb_true_r.
Qed.

Lemma first_char_slash s : is_slash (first_char s) = true -> has_slash s = true.
Proof. destruct s as [|c s]; simpl; [done|]. by intros ->. Qed.

Lemma last_char_append a b : b ≠ "" -> last_char (a +:+ b) = last_char b.
Proof.
  intros Hb. induction a as [|c a IH]; [done|]. rewrite append_cons.
  simpl. rewrite IH. destruct (a +:+ b) eqn:E; [|done].
  destruct a; [rewrite append_nil in E; congruence | discriminate].
Qed.

Lemma last_char_join_segs segs name :
  name ≠ "" -> last_char (join_segs (segs ++ [name])) = last_char name.
Proof.
  intros Hne. destruct segs as [|a rest]; [done|].
  rewrite join_segs_snoc by done.
  rewrite last_char_append; [|done].
  change ("/" +:+ name) with (String "/" name).
  simpl. by destruct name.
Qed.

Lemma first_char_join_segs a rest :
  a ≠ "" -> first_char (join_segs (a :: rest)) = first_char a.
Proof.
  intros Hne. destruct rest as [|b rest]; [done|].
  rewrite join_segs_cons. by destruct a.
Qed.

Lemma join_segs_nonempty a rest : a ≠ "" -> join_segs (a :: rest) ≠ "".
Proof.
  intros Hne. destruct rest as [|b rest]; [done|].
  rewrite join_segs_cons. by destruct a.
Qed.

Lemma valid_nonempty s : valid_nameb s = true -> s ≠ "".
Proof. intros (H & _)%valid_nameb_inv. by apply String.eqb_neq. Qed.

(** [path.normalize] leaves such a string as it is. *)
Lemma normalize_join_segs segs :
  segs ≠ [] -> Forall (fun s => valid_nameb s = true) segs ->
  normalize (join_segs segs) = join_segs segs.
Proof.
  intros Hne Hall.
  destruct (exists_last Hne) as (front & name & ->).
  destruct (join_segs (front ++ [name])) as [|c0 s0] eqn:Hj.
  { destruct front as [|a rest].
    - apply Forall_cons_1 in Hall as [Hn%valid_nonempty _]. done.
    - apply Forall_cons_1 in Hall as [Ha%valid_nonempty _].
      by apply (join_segs_nonempty a (rest ++ [name])) in Ha. }
  unfold normalize. rewrite <- Hj.
  assert (Hname : valid_nameb name = true).
  { apply Forall_app in Hall as [_ Hn]. by apply Forall_cons_1 in Hn as [? _]. }
  assert (Hlast : is_slash (last_char (join_segs (front ++ [name]))) = false).
  { rewrite last_char_join_segs by by apply valid_nonempty.
    destruct (is_slash (last_char name)) eqn:E; [|done].
    apply last_char_slash in E. apply valid_nameb_inv in Hname. naive_solver. }
  assert (Hfirst : is_slash (first_char (join_segs (front ++ [name]))) = false).
  { destruct (front ++ [name]) as [|a rest] eqn:E; [by destruct front|].
    apply Forall_cons_1 in Hall as [Ha _].
    rewrite first_char_join_segs by by apply valid_nonempty.
    destruct (is_slash (first_char a)) eqn:E'; [|done].
    apply first_char_slash in E'. apply valid_nameb_inv in Ha. naive_solver. }
  rewrite Hlast, Hfirst. simpl negb.
  rewrite split_on_join_segs; [|exact Hne|by apply valid_no_slash].
  rewrite normalizeString_valid by done. simpl rev. simpl app.
  by rewrite Hj.
Qed.

Lemma path_join_join_segs segs name :
  Forall (fun s => valid_nameb s = true) segs -> valid_nameb name = true ->
  path_join (join_segs segs) name = join_segs (segs ++ [name]).
Proof.
  intros Hall Hname.
  assert (Hall' : Forall (fun s => valid_nameb s = true) (segs ++ [name])).
  { apply Forall_app. split; [done|]. by apply Forall_singleton. }
  pose proof (valid_nonempty _ Hname) as Hne.
  destruct segs as [|a rest].
  - simpl. destruct name as [|c s]; [done|].
    apply (normalize_join_segs [String c s]); done.
  - pose proof Hall as [Ha%valid_nonempty _]%Forall_cons_1.
    pose proof (join_segs_nonempty a rest Ha) as Hj.
    unfold path_join.
    destruct (join_segs (a :: rest)) as [|c0 s0] eqn:Ej; [done|].
    destruct name as [|c s]; [done|].
    rewrite <- Ej. rewrite <- join_segs_snoc by done.
    by apply normalize_join_segs.
Qed.

Lemma fold_path_join pre segs :
  Forall (fun s => valid_nameb s = true) pre ->
  Forall (fun s => valid_nameb s = true) segs ->
  fold_left path_join segs (join_segs pre) = join_segs (pre ++ segs).
Proof.
  intros Hpre Hsegs. revert pre Hpre.
  induction Hsegs as [|s segs Hs _ IH]; intros pre Hpre; simpl.
  - by rewrite app_nil_r.
  - rewrite path_join_join_segs by done.
    rewrite IH.
    + by rewrite <- app_assoc.
    + apply Forall_app. split; [done|]. by apply Forall_singleton.
Qed.

(** The segments [resolve] returns are names of entries. *)
Lemma resolve_segs_names segs :
  Forall (fun s => has_slash s = false) segs ->
  ∀ res out,
    Forall (fun s => valid_nameb s = true) res ->
    resolve_segs res segs = Some out ->
    Forall (fun s => valid_nameb s = true) out.
Proof.
  induction 1 as [|s segs Hs _ IH]; intros res out Hres; simpl.
  - intros [= <-]. by apply Forall_rev.
  - case_eqb s ""; simpl; [by apply IH|].
    case_eqb s "."; simpl; [by apply IH|].
    case_eqb s "..".
    + destruct res as [|r res']; [done|]. apply IH.
      by apply Forall_cons_1 in Hres as [_ ?].
    + apply IH. apply Forall_cons; split; [|done].
      unfold valid_nameb. rewrite Hs.
      apply String.eqb_neq in E, E0, E1. by rewrite E, E0, E1.
Qed.

Lemma split_on_no_slash_segs s :
  Forall (fun w => has_slash w = false) (split_on slash s).
Proof.
  induction s as [|c s IH]; simpl.
  - by apply Forall_singleton.
  - destruct (Ascii.eqb c slash) eqn:Ec.
    + by apply Forall_cons.
    + destruct (split_on slash s) as [|w ws].
      * apply Forall_singleton. simpl. by rewrite Ec.
      * apply Forall_cons_1 in IH as [Hw Hws].
        apply Forall_cons; split; [|done]. simpl. by rewrite Ec, Hw.
Qed.

Lemma resolve_names p segs :
  resolve p = Some segs -> Forall (fun s => valid_nameb s = true) segs.
Proof.
  unfold resolve. apply resolve_segs_names; [|done].
  apply split_on_no_slash_segs.
Qed.

(** ** Lists of names *)

Lemma path_eqb_eq p q : path_eqb p q = true <-> p = q.
Proof.
  revert q. induction p as [|a p IH]; intros [|b q]; simpl; try done.
  rewrite andb_true_iff, String.eqb_eq, IH. naive_solver.
Qed.

Lemma is_prefix_spec p q : is_prefix p q = true <-> ∃ r, q = p ++ r.
Proof.
  revert q. induction p as [|a p IH]; intros q; simpl.
  - split; [intros _; by exists q | done].
  - destruct q as [|b q].
    + split; [done | intros [r Hr]; discriminate].
    + rewrite andb_true_iff, String.eqb_eq, IH. split.
      * intros [-> [r ->]]. by exists r.
      * intros [r [= -> ->]]. eauto.
Qed.

Lemma is_prefix_refl p : is_prefix p p = true.
Proof. apply is_prefix_spec. exists []. by rewrite app_nil_r. Qed.

Lemma is_prefix_app p r : is_prefix p (p ++ r) = true.
Proof. apply is_prefix_spec. by exists r. Qed.

Lemma is_prefix_removelast p q :
  q ≠ [] -> is_prefix p (removelast q) = true ->
  is_prefix p q = true ∧ path_eqb p q = false.
Proof.
  intros Hq. destruct (exists_last Hq) as (front & b & ->).
  rewrite removelast_last, is_prefix_spec. intros [r ->]. split.
  - apply is_prefix_spec. exists (r ++ [b]). by rewrite app_assoc.
  - apply not_true_iff_false. rewrite path_eqb_eq. intros Heq.
    apply (f_equal length) in Heq. rewrite !length_app in Heq. simpl in Heq. lia.
Qed.

Lemma app_eq_prefix (a b x y : list string) :
  a ++ x = b ++ y -> is_prefix a b = true ∨ is_prefix b a = true.
Proof.
  revert b. induction a as [|h a IH]; intros [|k b]; simpl; auto.
  intros [= -> Heq]. rewrite String.eqb_refl. simpl. by apply IH.
Qed.

Lemma disjoint_no_prefix (a b x y : list string) :
  is_prefix a b = false -> is_prefix b a = false ->
  is_prefix (a ++ x) (b ++ y) = false.
Proof.
  intros Hab Hba. apply not_true_iff_false. intros [r Hr]%is_prefix_spec.
  rewrite <- app_assoc in Hr. symmetry in Hr.
  apply app_eq_prefix in Hr as [H|H]; congruence.
Qed.

Lemma sibling_no_prefix (d : list string) (g g' : string) rest :
  g ≠ g' -> is_prefix (d ++ [g]) (d ++ g' :: rest) = false.
Proof.
  intros Hne. apply not_true_iff_false. intros [r Hr]%is_prefix_spec.
  rewrite <- app_assoc in Hr. apply app_inv_head in Hr.
  injection Hr as ->. done.
Qed.

Lemma sibling_apart (d : list string) (g g' : string) :
  g ≠ g' ->
  is_prefix (d ++ [g]) (d ++ [g']) = false
  ∧ is_prefix (d ++ [g']) (d ++ [g]) = false.
Proof. intros Hne. split; apply sibling_no_prefix; congruence. Qed.

Lemma parent_no_prefix (d : list string) (g : string) :
  is_prefix (d ++ [g]) d = false.
Proof.
  apply not_true_iff_false. intros [r Hr]%is_prefix_spec.
  apply (f_equal length) in Hr. rewrite !length_app in Hr. simpl in Hr. lia.
Qed.

Lemma includes_In l x : includes l x = true <-> In x l.
Proof.
  unfold includes. rewrite existsb_exists. split.
  - intros (y & Hin & ->%String.eqb_eq). done.
  - intros Hin. exists x. by rewrite String.eqb_refl.
Qed.

Lemma nodupb_NoDup l : nodupb l = true <-> NoDup l.
Proof.
  induction l as [|x l IH]; simpl.
  - split; [constructor | done].
  - rewrite andb_true_iff, negb_true_iff, IH, NoDup_cons.
    rewrite <- not_true_iff_false, includes_In, list_elem_of_In. done.
Qed.

(** ** Well-formed trees *)

Lemma wf_Dir es :
  wf (Dir es) <->
  NoDup (names es) ∧ Forall (fun e => valid_nameb e.1 = true ∧ wf e.2) es.
Proof.
  unfold wf. simpl. rewrite andb_true_iff, nodupb_NoDup, forallb_forall.
  rewrite Forall_forall. split; intros [Hn Hall]; (split; [done|]).
  - intros e He. apply andb_true_iff, Hall. by apply list_elem_of_In.
  - intros e He. apply andb_true_iff, Hall. by apply list_elem_of_In.
Qed.

Lemma get_entry_NoDup name v es :
  NoDup (names es) -> (name, v) ∈ es -> get_entry name es = Some v.
Proof.
  induction es as [|[n w] rest IH]; simpl.
  - by intros _ ?%elem_of_nil.
  - intros [Hn Hnd]%NoDup_cons Hin. apply elem_of_cons in Hin as [[= -> ->]|Hin].
    + by rewrite String.eqb_refl.
    + case_eqb n name; [|by apply IH].
      subst. exfalso. apply Hn. apply list_elem_of_fmap.
      by exists (name, v).
Qed.

Lemma get_entry_elem name v es : get_entry name es = Some v -> (name, v) ∈ es.
Proof. intros H. apply list_elem_of_In. by apply get_entry_In. Qed.

Lemma names_set_entry name v es :
  names (set_entry name v es)
  = if includes (names es) name then names es else names es ++ [name].
Proof.
  induction es as [|[n w] rest IH]; simpl; [done|].
  rewrite (String.eqb_sym name n).
  case_eqb n name; simpl; [done|].
  rewrite IH. unfold includes. by destruct (existsb _ _).
Qed.

Lemma NoDup_names_set_entry name v es :
  NoDup (names es) -> NoDup (names (set_entry name v es)).
Proof.
  intros Hnd. rewrite names_set_entry.
  destruct (includes (names es) name) eqn:Hi; [done|].
  apply NoDup_app. split; [done|]. split.
  - intros x Hx ->%list_elem_of_singleton.
    apply not_true_iff_false in Hi. apply Hi, includes_In.
    by apply list_elem_of_In.
  - apply NoDup_singleton.
Qed.

Lemma elem_of_set_entry e name v es :
  e ∈ set_entry name v es -> e = (name, v) ∨ e ∈ es.
Proof.
  induction es as [|[n w] rest IH]; simpl.
  - intros ->%list_elem_of_singleton. by left.
  - case_eqb n name.
    + subst. intros [->|H]%elem_of_cons; [by left | right; by right].
    + intros [->|H]%elem_of_cons; [right; left|].
      destruct (IH H); [by left | right; by right].
Qed.

Lemma wf_set_entry name v es :
  wf (Dir es) -> valid_nameb name = true -> wf v ->
  wf (Dir (set_entry name v es)).
Proof.
  rewrite !wf_Dir. intros [Hnd Hall] Hname Hv. split.
  - by apply NoDup_names_set_entry.
  - rewrite Forall_forall in *. intros e [->|He]%elem_of_set_entry; auto.
Qed.

Lemma names_del_entry name es :
  names (del_entry name es)
  = List.filter (fun n => negb (String.eqb n name)) (names es).
Proof.
  induction es as [|[n w] rest IH]; simpl; [done|].
  destruct (String.eqb n name); simpl; by rewrite IH.
Qed.

Lemma NoDup_List_filter {A : Type} (f : A -> bool) (l : list A) :
  NoDup l -> NoDup (List.filter f l).
Proof.
  induction 1 as [|x l Hx Hnd IH]; simpl; [constructor|].
  destruct (f x); [|done]. constructor; [|done].
  rewrite list_elem_of_In, filter_In, <- list_elem_of_In. naive_solver.
Qed.

Lemma wf_del_entry name es : wf (Dir es) -> wf (Dir (del_entry name es)).
Proof.
  rewrite !wf_Dir. intros [Hnd Hall]. split.
  - rewrite names_del_entry. by apply NoDup_List_filter.
  - rewrite Forall_forall in *. intros e He. apply Hall.
    unfold del_entry in He. rewrite list_elem_of_In, filter_In in He.
    rewrite list_elem_of_In. tauto.
Qed.

Lemma wf_entry name v es :
  wf (Dir es) -> get_entry name es = Some v -> valid_nameb name = true ∧ wf v.
Proof.
  rewrite wf_Dir, Forall_forall. intros [_ Hall] Hg.
  exact (Hall _ (get_entry_elem _ _ _ Hg)).
Qed.

Lemma wf_lookup_path p :
  ∀ n v, wf n -> lookup_path p n = Some v -> wf v.
Proof.
  induction p as [|name p IH]; intros n v Hwf; simpl.
  - by intros [= <-].
  - destruct n as [c|es]; [done|].
    destruct (get_entry name es) as [child|] eqn:Hg; [|done].
    apply IH. by eapply wf_entry.
Qed.

Lemma wf_remove_at p :
  ∀ n n', wf n -> remove_at p n = Ok n' -> wf n'.
Proof.
  induction p as [|name p IH]; intros n n' Hwf; simpl; [done|].
  destruct n as [c|es]; [done|].
  destruct p as [|b p].
  - intros [= <-]. by apply wf_del_entry.
  - destruct (get_entry name es) as [child|] eqn:Hg; [|by intros [= <-]].
    destruct (remove_at (b :: p) child) as [child'|e] eqn:Hr; [|done].
    intros [= <-]. destruct (wf_entry _ _ _ Hwf Hg) as [Hname Hchild].
    apply wf_set_entry; eauto.
Qed.

Lemma wf_ensureDir_at p :
  ∀ n n', wf n -> Forall (fun s => valid_nameb s = true) p ->
          ensureDir_at p n = Ok n' -> wf n'.
Proof.
  induction p as [|name p IH]; intros n n' Hwf Hp; simpl.
  - destruct n; [done|]. by intros [= <-].
  - destruct n as [c|es]; [done|].
    apply Forall_cons_1 in Hp as [Hname Hp].
    destruct (ensureDir_at p (default (Dir []) (get_entry name es)))
      as [child'|e] eqn:Hr; [|done].
    intros [= <-]. apply wf_set_entry; [done..|].
    apply (IH _ _) in Hr; [done| |done].
    destruct (get_entry name es) as [child|] eqn:Hg; [|done].
    by eapply wf_entry.
Qed.

Lemma wf_write_at p :
  ∀ n n' v, wf n -> wf v -> Forall (fun s => valid_nameb s = true) p ->
            write_at p v n = Ok n' -> wf n'.
Proof.
  induction p as [|name p IH]; intros n n' v Hwf Hv Hp; simpl.
  - by intros [= <-].
  - destruct n as [c|es]; [done|].
    apply Forall_cons_1 in Hp as [Hname Hp].
    destruct p as [|b p].
    + intros [= <-]. by apply wf_set_entry.
    + destruct (get_entry name es) as [child|] eqn:Hg; [|done].
      destruct (write_at (b :: p) v child) as [child'|e] eqn:Hr; [|done].
      intros [= <-]. apply wf_set_entry; [done..|].
      eapply IH; [| |done|exact Hr]; [|done]. by eapply wf_entry.
Qed.

(** ** What the file-system calls do to lookups *)

Lemma stat_lookup p : ∀ n v, stat p n = Ok v <-> lookup_path p n = Some v.
Proof.
  induction p as [|name p IH]; intros n v; simpl.
  - split; by intros [= ->].
  - destruct n as [c|es]; [done|].
    destruct (get_entry name es); [apply IH | done].
Qed.

Lemma stat_lookup_None p :
  ∀ n, lookup_path p n = None -> ∃ e, stat p n = Err e.
Proof.
  induction p as [|name p IH]; intros n; simpl; [done|].
  destruct n as [c|es]; [by eexists|].
  destruct (get_entry name es); [apply IH | by eexists].
Qed.

Lemma lookup_path_app p q n :
  lookup_path (p ++ q) n = lookup_path p n ≫= lookup_path q.
Proof.
  revert n. induction p as [|name p IH]; intros n; simpl; [done|].
  destruct n as [c|es]; [done|].
  destruct (get_entry name es); [apply IH | done].
Qed.

(** Removing [p] removes the files at and below [p] and no other. *)
Lemma lookup_remove_at p :
  ∀ n n' q c,
    remove_at p n = Ok n' ->
    (lookup_path q n' = Some (File c) <->
     lookup_path q n = Some (File c) ∧ is_prefix p q = false).
Proof.
  induction p as [|name p IH]; intros n n' q c; simpl; [done|].
  destruct n as [c0|es]; [done|].
  destruct p as [|b p].
  - intros [= <-]. destruct q as [|a q]; simpl; [naive_solver|].
    case_eqb name a.
    + subst. rewrite get_entry_del_eq. naive_solver.
    + rewrite get_entry_del_ne by done. naive_solver.
  - destruct (get_entry name es) as [child|] eqn:Hg.
    + destruct (remove_at (b :: p) child) as [child'|e] eqn:Hr; [|done].
      intros [= <-]. destruct q as [|a q]; [simpl; naive_solver|].
      cbn [lookup_path is_prefix]. case_eqb name a.
      * subst. rewrite get_entry_set_eq, Hg. simpl. by apply IH.
      * rewrite get_entry_set_ne by done. simpl. naive_solver.
    + intros [= <-]. split; [|tauto]. intros Hq. split; [done|].
      destruct q as [|a q]; [done|]. cbn [is_prefix].
      case_eqb name a; [|done]. subst. simpl in Hq. by rewrite Hg in Hq.
Qed.

Lemma lookup_remove_at_gone p :
  ∀ n n', remove_at p n = Ok n' -> lookup_path p n' = None.
Proof.
  induction p as [|name p IH]; intros n n'; simpl; [done|].
  destruct n as [c0|es]; [done|].
  destruct p as [|b p].
  - intros [= <-]. simpl. by rewrite get_entry_del_eq.
  - destruct (get_entry name es) as [child|] eqn:Hg.
    + destruct (remove_at (b :: p) child) as [child'|e] eqn:Hr; [|done].
      intros [= <-]. cbn [lookup_path]. rewrite get_entry_set_eq. by eapply IH.
    + intros [= <-]. cbn [lookup_path]. by rewrite Hg.
Qed.

(** An entry that is neither on the way to [p] nor below it is untouched. *)
Lemma lookup_remove_at_other p :
  ∀ n n' q,
    remove_at p n = Ok n' ->
    is_prefix p q = false -> is_prefix q p = false ->
    lookup_path q n' = lookup_path q n.
Proof.
  induction p as [|name p IH]; intros n n' q; simpl; [done|].
  destruct n as [c0|es]; [done|].
  destruct q as [|a q]; [done|].
  destruct p as [|b p].
  - intros [= <-]. simpl. case_eqb name a; [done|].
    intros _ _. by rewrite get_entry_del_ne.
  - destruct (get_entry name es) as [child|] eqn:Hg; [|by intros [= <-]].
    destruct (remove_at (b :: p) child) as [child'|e] eqn:Hr; [|done].
    intros [= <-]. cbn [lookup_path is_prefix]. case_eqb name a.
    + subst. rewrite String.eqb_refl, get_entry_set_eq, Hg. simpl. by apply IH.
    + intros _ _. by rewrite get_entry_set_ne.
Qed.

Lemma lookup_write_at p :
  ∀ n n' v, write_at p v n = Ok n' -> lookup_path p n' = Some v.
Proof.
  induction p as [|name p IH]; intros n n' v; simpl; [by intros [= ->]|].
  destruct n as [c0|es]; [done|].
  destruct p as [|b p].
  - intros [= <-]. simpl. by rewrite get_entry_set_eq.
  - destruct (get_entry name es) as [child|] eqn:Hg; [|done].
    destruct (write_at (b :: p) v child) as [child'|e] eqn:Hr; [|done].
    intros [= <-]. cbn [lookup_path]. rewrite get_entry_set_eq. by eapply IH.
Qed.

Lemma lookup_write_at_other p :
  ∀ n n' v q,
    write_at p v n = Ok n' ->
    is_prefix p q = false -> is_prefix q p = false ->
    lookup_path q n' = lookup_path q n.
Proof.
  induction p as [|name p IH]; intros n n' v q; simpl; [done|].
  destruct n as [c0|es]; [done|].
  destruct q as [|a q]; [done|].
  destruct p as [|b p].
  - intros [= <-]. simpl. case_eqb name a; [done|].
    intros _ _. by rewrite get_entry_set_ne.
  - destruct (get_entry name es) as [child|] eqn:Hg; [|done].
    destruct (write_at (b :: p) v child) as [child'|e] eqn:Hr; [|done].
    intros [= <-]. cbn [lookup_path is_prefix]. case_eqb name a.
    + subst. rewrite String.eqb_refl, get_entry_set_eq, Hg. simpl.
      by eapply IH.
    + intros _ _. by rewrite get_entry_set_ne.
Qed.

(** A file found after a write lies at or below the written path, or was
    there before. *)
Lemma lookup_write_at_File p :
  ∀ n n' v q c,
    write_at p v n = Ok n' ->
    lookup_path q n' = Some (File c) ->
    is_prefix p q = true ∨ lookup_path q n = Some (File c).
Proof.
  induction p as [|name p IH]; intros n n' v q c; simpl; [by left|].
  destruct n as [c0|es]; [done|].
  destruct q as [|a q].
  { destruct p as [|b p]; [by intros [= <-]|].
    destruct (get_entry name es); [|done].
    destruct (write_at (b :: p) v n); by intros [= <-]. }
  destruct p as [|b p].
  - intros [= <-]. simpl. case_eqb name a; [by left|].
    rewrite get_entry_set_ne by done. by right.
  - destruct (get_entry name es) as [child|] eqn:Hg; [|done].
    destruct (write_at (b :: p) v child) as [child'|e] eqn:Hr; [|done].
    intros [= <-]. cbn [lookup_path is_prefix]. case_eqb name a.
    + subst. rewrite get_entry_set_eq, Hg. simpl. by eapply IH.
    + rewrite get_entry_set_ne by done. by right.
Qed.

(** [ensureDirSync] neither adds nor removes a file. *)
Lemma lookup_ensureDir_at_File p :
  ∀ n n' q c,
    ensureDir_at p n = Ok n' ->
    (lookup_path q n' = Some (File c) <-> lookup_path q n = Some (File c)).
Proof.
  induction p as [|name p IH]; intros n n' q c; simpl.
  - destruct n; [done|]. by intros [= <-].
  - destruct n as [c0|es]; [done|].
    destruct (ensureDir_at p (default (Dir []) (get_entry name es)))
      as [child'|e] eqn:Hr; [|done].
    intros [= <-]. destruct q as [|a q]; [done|].
    cbn [lookup_path]. case_eqb name a.
    + subst. rewrite get_entry_set_eq. rewrite (IH _ _ q c Hr).
      destruct (get_entry a es); [done|]. simpl. by destruct q.
    + by rewrite get_entry_set_ne.
Qed.

(** Afterwards the directory exists. *)
Lemma lookup_ensureDir_at p :
  ∀ n n', ensureDir_at p n = Ok n' -> ∃ es, lookup_path p n' = Some (Dir es).
Proof.
  induction p as [|name p IH]; intros n n'; simpl.
  - destruct n as [|es]; [done|]. intros [= <-]. by exists es.
  - destruct n as [c0|es]; [done|].
    destruct (ensureDir_at p (default (Dir []) (get_entry name es)))
      as [child'|e] eqn:Hr; [|done].
    intros [= <-]. rewrite get_entry_set_eq. by eapply IH.
Qed.

(** What [ensureDirSync] creates lies on the path it was given. *)
Lemma lookup_ensureDir_at_new p :
  ∀ n n' q,
    ensureDir_at p n = Ok n' ->
    lookup_path q n = None -> lookup_path q n' ≠ None ->
    is_prefix q p = true.
Proof.
  induction p as [|name p IH]; intros n n' q; simpl.
  - destruct n; [done|]. by intros [= <-].
  - destruct n as [c0|es]; [done|].
    destruct (ensureDir_at p (default (Dir []) (get_entry name es)))
      as [child'|e] eqn:Hr; [|done].
    intros [= <-]. destruct q as [|a q]; [done|].
    cbn [lookup_path is_prefix]. rewrite (String.eqb_sym a name).
    case_eqb name a.
    + subst. rewrite get_entry_set_eq. simpl.
      destruct (get_entry a es) as [child|] eqn:Hg; simpl in Hr.
      * by apply IH.
      * intros _. destruct q as [|b q]; [done|]. by apply (IH _ _ _ Hr).
    + rewrite get_entry_set_ne by done. done.
Qed.

(** An existing entry off the path is untouched. *)
Lemma lookup_ensureDir_at_other p :
  ∀ n n' q,
    ensureDir_at p n = Ok n' -> is_prefix q p = false ->
    lookup_path q n' = lookup_path q n ∨ lookup_path q n = None.
Proof.
  induction p as [|name p IH]; intros n n' q; simpl.
  - destruct n; [done|]. intros [= <-]. by left.
  - destruct n as [c0|es]; [done|].
    destruct (ensureDir_at p (default (Dir []) (get_entry name es)))
      as [child'|e] eqn:Hr; [|done].
    intros [= <-]. destruct q as [|a q]; [done|].
    cbn [lookup_path is_prefix]. rewrite (String.eqb_sym a name).
    case_eqb name a.
    + subst. rewrite get_entry_set_eq. simpl.
      destruct (get_entry a es) as [child|] eqn:Hg; simpl in Hr.
      * by apply IH.
      * by right.
    + rewrite get_entry_set_ne by done. by left.
Qed.

(** ** The files of a tree *)

Lemma traverse_files_of n :
  ∀ dir relativeDir,
    match n with
    | File _ => [relativeDir]
    | Dir _ => traverse n dir true relativeDir
    end
    = map (fun segs => fold_left path_join segs relativeDir) (files_of n).
Proof.
  induction n as [c|es IH] using node_ind'; intros dir rel; [done|].
  cbn [traverse files_of].
  induction es as [|[name child] rest IHrest]; [done|].
  apply Forall_cons_1 in IH as [IHc IHr]. specialize (IHrest IHr).
  cbn [flat_map fst snd]. rewrite IHrest, map_app. f_equal.
  simpl in IHc. rewrite map_map. cbn [fold_left].
  rewrite <- (IHc (path_join dir name) (path_join rel name)).
  by destruct child.
Qed.

Lemma elem_of_files_of_Dir segs es :
  segs ∈ files_of (Dir es) <->
  ∃ name child rest,
    segs = name :: rest ∧ (name, child) ∈ es ∧ rest ∈ files_of child.
Proof.
  cbn [files_of]. rewrite list_elem_of_In, in_flat_map. split.
  - intros ([name child] & Hin & Hs). apply in_map_iff in Hs as (rest & <- & Hr).
    exists name, child, rest. by rewrite !list_elem_of_In.
  - intros (name & child & rest & -> & Hin & Hr). exists (name, child).
    rewrite <- list_elem_of_In. split; [done|]. apply in_map.
    by apply list_elem_of_In.
Qed.

Lemma files_of_valid n :
  wf n -> ∀ segs, segs ∈ files_of n -> Forall (fun s => valid_nameb s = true) segs.
Proof.
  induction n as [c|es IH] using node_ind'; intros Hwf segs.
  - intros ->%list_elem_of_singleton. constructor.
  - rewrite elem_of_files_of_Dir. intros (name & child & rest & -> & Hin & Hr).
    apply wf_Dir in Hwf as [_ Hall]. rewrite Forall_forall in IH, Hall.
    destruct (Hall _ Hin) as [Hname Hchild]. constructor; [done|].
    by apply (IH _ Hin).
Qed.

(** The files are the paths that lead to a file. *)
Lemma files_of_lookup n :
  wf n -> ∀ segs,
    segs ∈ files_of n <-> ∃ c, lookup_path segs n = Some (File c).
Proof.
  induction n as [c|es IH] using node_ind'; intros Hwf segs.
  - cbn [files_of]. rewrite list_elem_of_singleton. split.
    + intros ->. by exists c.
    + intros [c' H]. by destruct segs.
  - rewrite elem_of_files_of_Dir.
    pose proof Hwf as [Hnd Hall]%wf_Dir. rewrite Forall_forall in IH, Hall.
    split.
    + intros (name & child & rest & -> & Hin & Hr). simpl.
      rewrite (get_entry_NoDup _ _ _ Hnd Hin).
      apply (IH _ Hin); [|done]. by destruct (Hall _ Hin).
    + intros [c Hlk]. destruct segs as [|name rest]; [done|]. simpl in Hlk.
      destruct (get_entry name es) as [child|] eqn:Hg; [|done].
      apply get_entry_elem in Hg. exists name, child, rest.
      repeat split; [done|]. apply (IH _ Hg); [|by exists c].
      by destruct (Hall _ Hg).
Qed.

(** On a well-formed tree [traverseDir] lists each file as its names
    joined by separators. *)
Lemma traverse_join_segs es dir :
  wf (Dir es) ->
  traverse (Dir es) dir true "" = map join_segs (files_of (Dir es)).
Proof.
  intros Hwf. rewrite (traverse_files_of (Dir es) dir "").
  apply map_ext_in. intros segs Hin%list_elem_of_In.
  apply (fold_path_join [] segs); [constructor|]. by eapply files_of_valid.
Qed.

Lemma elem_of_traverse es dir q :
  wf (Dir es) ->
  q ∈ traverse (Dir es) dir true "" <->
  ∃ segs c, q = join_segs segs ∧ resolve q = Some segs
            ∧ lookup_path segs (Dir es) = Some (File c).
Proof.
  intros Hwf. rewrite traverse_join_segs by done.
  change (map join_segs) with (fmap (M:=list) join_segs).
  rewrite list_elem_of_fmap. split.
  - intros (segs & -> & Hin). pose proof (files_of_valid _ Hwf _ Hin) as Hv.
    apply files_of_lookup in Hin as [c Hc]; [|done].
    exists segs, c. by rewrite resolve_join_segs.
  - intros (segs & c & -> & _ & Hc). exists segs. split; [done|].
    apply files_of_lookup; eauto.
Qed.

(** ** Pruning *)

Lemma forEach_cons {A S : Type} (body : A -> S -> result S) x xs s s' :
  forEach body (x :: xs) s = Ok s' <->
  ∃ s1, body x s = Ok s1 ∧ forEach body xs s1 = Ok s'.
Proof.
  simpl. destruct (body x s) as [s1|e]; simpl; [|naive_solver].
  split; [eauto | by intros (? & [= ->] & ?)].
Qed.

Lemma forEach_app {A S : Type} (body : A -> S -> result S) xs ys s :
  forEach body (xs ++ ys) s
  = let? s' := forEach body xs s in forEach body ys s'.
Proof.
  revert s. induction xs as [|x xs IH]; intros s; simpl; [done|].
  destruct (body x s); simpl; [apply IH | done].
Qed.

Lemma removeSync_Ok x fs fs' :
  removeSync x fs = Ok fs' <->
  ∃ segs, resolve x = Some segs ∧ remove_at segs fs = Ok fs'.
Proof.
  unfold removeSync. destruct (resolve x) as [segs|]; naive_solver.
Qed.

Lemma remove_at_isDirectory p n n' :
  remove_at p n = Ok n' -> isDirectory n' = true.
Proof.
  destruct p as [|name p]; simpl; [done|]. destruct n as [c|es]; [done|].
  destruct p as [|b p]; [by intros [= <-]|].
  destruct (get_entry name es); [|by intros [= <-]].
  destruct (remove_at (b :: p) n); by intros [= <-].
Qed.

(** The files left by a sequence of [removeSync] calls. *)
Lemma forEach_removeSync xs :
  ∀ fs fs',
    wf fs -> forEach removeSync xs fs = Ok fs' ->
    wf fs' ∧ isDirectory fs' = isDirectory fs
    ∧ ∀ q c,
        lookup_path q fs' = Some (File c) <->
        lookup_path q fs = Some (File c)
        ∧ ∀ x segs, x ∈ xs -> resolve x = Some segs -> is_prefix segs q = false.
Proof.
  induction xs as [|x xs IH]; intros fs fs' Hwf.
  - intros [= <-]. repeat split; try tauto. by intros ?? ?%elem_of_nil.
  - intros (fs1 & (segs & Hres & Hrm)%removeSync_Ok & Hrest)%forEach_cons.
    destruct (IH fs1 fs' (wf_remove_at _ _ _ Hwf Hrm) Hrest) as (Hwf' & Hd & Hlk).
    split; [done|]. split.
    { rewrite Hd, (remove_at_isDirectory _ _ _ Hrm).
      destruct segs; [done|]. by destruct fs. }
    intros q c. rewrite Hlk, (lookup_remove_at _ _ _ q c Hrm). split.
    + intros [[Hq Hp] Hall]. split; [done|].
      intros y segs' [->|Hy]%elem_of_cons Hres'; [|eauto]. congruence.
    + intros [Hq Hall]. repeat split; [done| |].
      * apply (Hall x); [left | done].
      * intros y segs' Hy. apply Hall. by right.
Qed.

Lemma elem_of_extraFiles set allFiles q :
  q ∈ extraFiles set allFiles <-> q ∈ allFiles ∧ q ∉ set.
Proof.
  unfold extraFiles. rewrite !list_elem_of_In, filter_In, negb_true_iff.
  by rewrite bool_decide_eq_false.
Qed.

(** After the first loop every file [traverseDir] finds is in the set. *)
Lemma prune_extras es dir dir' set fs1 q :
  wf (Dir es) ->
  forEach removeSync (extraFiles set (traverse (Dir es) dir true "")) (Dir es)
  = Ok fs1 ->
  q ∈ traverse fs1 dir' true "" -> q ∈ set.
Proof.
  intros Hwf Hloop Hq.
  destruct (forEach_removeSync _ _ _ Hwf Hloop) as (Hwf1 & Hd & Hlk).
  destruct fs1 as [c|es1]; [done|].
  apply elem_of_traverse in Hq as (segs & c & -> & Hres & Hc); [|done].
  apply Hlk in Hc as [Hc Hkept].
  destruct (decide (join_segs segs ∈ set)) as [|Hout]; [done|]. exfalso.
  assert (Hextra : join_segs segs ∈
                     extraFiles set (traverse (Dir es) dir true "")).
  { apply elem_of_extraFiles. split; [|done].
    apply elem_of_traverse; [done|]. by exists segs, c. }
  specialize (Hkept _ _ Hextra Hres). by rewrite is_prefix_refl in Hkept.
Qed.

(** ** Moves *)

Lemma bind_Ok {A B : Type} (r : result A) (k : A -> result B) (b : B) :
  bind r k = Ok b <-> ∃ a, r = Ok a ∧ k a = Ok b.
Proof.
  destruct r as [a|e]; simpl; [|naive_solver].
  split; [eauto | by intros (? & [= ->] & ?)].
Qed.

Lemma applyMv_Ok mv fs fs' :
  applyMv mv fs = Ok fs' <->
  ∃ mvFrom mvTo fs1,
    resolve (from mv) = Some mvFrom ∧ resolve (to mv) = Some mvTo
    ∧ ensureDir_at (removelast mvTo) fs = Ok fs1
    ∧ rename_at mvFrom mvTo (trailing_slash (from mv))
        (trailing_slash (to mv)) fs1 = Ok fs'.
Proof.
  unfold applyMv. split.
  - destruct (resolve (from mv)) as [f|]; [|done].
    destruct (resolve (to mv)) as [t|]; [|done].
    intros (fs1 & H1 & H2)%bind_Ok. by exists f, t, fs1.
  - intros (f & t & fs1 & -> & -> & H1 & H2). apply bind_Ok. by exists fs1.
Qed.

(** A successful [renameSync]: the source exists; either both paths are the
    same and nothing changes, or the source is taken out and put at the
    target, which it may replace. *)
Lemma rename_at_Ok f t fd td n n' :
  rename_at f t fd td n = Ok n' ->
  ∃ src,
    lookup_path f n = Some src
    ∧ (path_eqb f t = true ∧ n' = n
       ∨ path_eqb f t = false ∧ is_prefix f t = false
         ∧ (∀ es, lookup_path t n = Some (Dir es) ->
                  isDirectory src = true ∧ es = [])
         ∧ ∃ n1, remove_at f n = Ok n1 ∧ write_at t src n1 = Ok n').
Proof.
  unfold rename_at. destruct (stat f n) as [src|e] eqn:Hst; [|done]. simpl.
  apply stat_lookup in Hst. intros H. exists src. split; [done|].
  destruct ((fd || td) && negb (isDirectory src)); [done|].
  destruct (path_eqb f t) eqn:Heq; [left; by injection H as <-|right].
  destruct (is_prefix f t) eqn:Hpre; [done|].
  split; [done|]. split; [done|].
  assert (Hmove : (∀ es, lookup_path t n = Some (Dir es) ->
                         isDirectory src = true ∧ es = [])
                  ∧ (let? n1 := remove_at f n in write_at t src n1) = Ok n').
  { destruct (lookup_path t n) as [[c|[|e0 es0]]|]; destruct src as [cs|ses];
      try discriminate H; (split; [|exact H]); intros es' [= <-] || intros es';
      done. }
  destruct Hmove as [Hcompat Hmove]. split; [done|].
  apply bind_Ok in Hmove as (n1 & Hrm & Hwr). by exists n1.
Qed.

Lemma Forall_removelast {A : Type} (P : A -> Prop) (l : list A) :
  Forall P l -> Forall P (removelast l).
Proof.
  intros H. destruct l as [|x l] using rev_ind; [done|].
  rewrite removelast_last. by apply Forall_app in H as [? _].
Qed.

Lemma lookup_path_Dir_prefix p a r n v :
  lookup_path (p ++ a :: r) n = Some v ->
  ∃ es, lookup_path p n = Some (Dir es) ∧ es ≠ [].
Proof.
  rewrite lookup_path_app. destruct (lookup_path p n) as [[c|es]|]; simpl; try done.
  destruct es; [done|]. intros _. eauto.
Qed.

Lemma write_at_parent t :
  ∀ v n n',
    t ≠ [] -> write_at t v n = Ok n' ->
    ∃ es, lookup_path (removelast t) n' = Some (Dir es).
Proof.
  induction t as [|name t IH]; intros v n n' Hne; [done|]. simpl write_at.
  destruct n as [c|es]; [done|]. destruct t as [|b t].
  - intros [= <-]. simpl. eauto.
  - destruct (get_entry name es) as [child|] eqn:Hg; [|done].
    destruct (write_at (b :: t) v child) as [child'|e] eqn:Hr; [|done].
    intros [= <-]. change (removelast (name :: b :: t))
      with (name :: removelast (b :: t)).
    cbn [lookup_path]. rewrite get_entry_set_eq. by eapply IH.
Qed.

(** One move: the tree stays well formed, and a file found afterwards was
    there before or lies at or below the target. *)
Lemma applyMv_files mv fs fs' :
  wf fs -> applyMv mv fs = Ok fs' ->
  wf fs'
  ∧ ∀ q c,
      lookup_path q fs' = Some (File c) ->
      lookup_path q fs = Some (File c)
      ∨ ∃ mvTo, resolve (to mv) = Some mvTo ∧ is_prefix mvTo q = true.
Proof.
  intros Hwf (f & t & fs1 & Hf & Ht & Hens & Hren)%applyMv_Ok.
  pose proof (resolve_names _ _ Ht) as Hvalid.
  assert (Hwf1 : wf fs1).
  { eapply wf_ensureDir_at; [done| |done]. by apply Forall_removelast. }
  destruct (rename_at_Ok _ _ _ _ _ _ Hren)
    as (src & Hsrc & [[_ ->]|(_ & _ & _ & n1 & Hrm & Hwr)]).
  - split; [done|]. intros q c Hq. left.
    by apply (lookup_ensureDir_at_File _ _ _ q c Hens).
  - split.
    + eapply wf_write_at; [| |done|done].
      * by eapply wf_remove_at.
      * by eapply wf_lookup_path.
    + intros q c Hq.
      destruct (lookup_write_at_File _ _ _ _ _ _ Hwr Hq) as [Hpre|Hq1].
      * right. by exists t.
      * left. apply (lookup_remove_at _ _ _ q c Hrm) in Hq1 as [Hq1 _].
        by apply (lookup_ensureDir_at_File _ _ _ q c Hens).
Qed.

Lemma forEach_applyMv_files mvs :
  ∀ fs fs',
    wf fs -> forEach applyMv mvs fs = Ok fs' ->
    wf fs'
    ∧ ∀ q c,
        lookup_path q fs' = Some (File c) ->
        lookup_path q fs = Some (File c)
        ∨ ∃ mv mvTo,
            mv ∈ mvs ∧ resolve (to mv) = Some mvTo ∧ is_prefix mvTo q = true.
Proof.
  induction mvs as [|mv mvs IH]; intros fs fs' Hwf.
  - intros [= <-]. split; [done|]. by left.
  - intros (fs1 & Hmv & Hrest)%forEach_cons.
    destruct (applyMv_files _ _ _ Hwf Hmv) as [Hwf1 Hlk1].
    destruct (IH _ _ Hwf1 Hrest) as [Hwf' Hlk]. split; [done|].
    intros q c Hq. destruct (Hlk _ _ Hq) as [Hq1|(mv' & t & Hin & Ht & Hpre)].
    + destruct (Hlk1 _ _ Hq1) as [?|(t & Ht & Hpre)]; [by left|].
      right. exists mv, t. split; [left|done].
    + right. exists mv', t. split; [by right|done].
Qed.

Lemma ensureDir_at_isDirectory p n n' :
  ensureDir_at p n = Ok n' -> isDirectory n' = true.
Proof.
  destruct p as [|name p]; simpl.
  - destruct n; [done|]. by intros [= <-].
  - destruct n as [c|es]; [done|].
    destruct (ensureDir_at p _); by intros [= <-].
Qed.

Lemma write_at_isDirectory name p v n n' :
  write_at (name :: p) v n = Ok n' -> isDirectory n' = true.
Proof.
  simpl. destruct n as [c|es]; [done|]. destruct p as [|b p].
  - by intros [= <-].
  - destruct (get_entry name es); [|done].
    destruct (write_at (b :: p) v n); by intros [= <-].
Qed.

(** The destination stays a directory. *)
Lemma applyMv_isDirectory mv fs fs' :
  applyMv mv fs = Ok fs' -> isDirectory fs' = true.
Proof.
  intros (f & t & fs1 & Hf & Ht & Hens & Hren)%applyMv_Ok.
  pose proof (ensureDir_at_isDirectory _ _ _ Hens) as Hd1.
  destruct (rename_at_Ok _ _ _ _ _ _ Hren)
    as (src & Hsrc & [[_ ->]|(Hne & _ & Hcompat & n1 & Hrm & Hwr)]); [done|].
  destruct t as [|name t]; [|by eapply write_at_isDirectory].
  exfalso. destruct fs1 as [c|es]; [done|].
  destruct (Hcompat es eq_refl) as [_ ->].
  destruct f as [|a f]; [done|]. done.
Qed.

Lemma forEach_applyMv_isDirectory mvs :
  ∀ fs fs',
    isDirectory fs = true -> forEach applyMv mvs fs = Ok fs' ->
    isDirectory fs' = true.
Proof.
  induction mvs as [|mv mvs IH]; intros fs fs' Hd.
  - by intros [= <-].
  - intros (fs1 & Hmv & Hrest)%forEach_cons.
    eapply IH; [|done]. by eapply applyMv_isDirectory.
Qed.

(** ** The three phases together *)

Lemma reconcile_Ok destination set mvs fs fs' extra :
  reconcile destination set mvs fs = Ok (fs', extra) <->
  ∃ es fs1 fs2,
    fs = Dir es
    ∧ extra = extraFiles set (traverse fs destination true "")
    ∧ forEach removeSync extra fs = Ok fs1
    ∧ forEach applyMv mvs fs1 = Ok fs2
    ∧ removeEmptyDirs fs2 true = Some fs'.
Proof.
  unfold reconcile, traverseDir. split.
  - destruct fs as [c|es]; [done|]. simpl bind at 1.
    intros (fs1 & H1 & (fs2 & H2 & H3)%bind_Ok)%bind_Ok.
    destruct (removeEmptyDirs fs2 true) as [fs3|] eqn:E; [|done].
    injection H3 as <- <-. by exists es, fs1, fs2.
  - intros (es & fs1 & fs2 & -> & -> & H1 & H2 & H3). simpl bind at 1.
    apply bind_Ok. exists fs1. split; [done|].
    apply bind_Ok. exists fs2. split; [done|]. by rewrite H3.
Qed.

(** C1, as the code has it: after the three phases every file left below
    the destination has a path in the set of the manifest, or is at or
    below the [to] of one of its moves. *)
Theorem reconcile_files
    (destination : string) (paths : gset string)
    (moves : list boxConfigRecipeSpecMv) (fs fs' : node) (extra : list string)
    (Hwf : wf fs)
    (Hrun : reconcile destination paths moves fs = Ok (fs', extra)) :
  ∃ remaining,
    traverseDir fs' destination true "" = Ok remaining
    ∧ ∀ q, q ∈ remaining ->
           q ∈ paths ∨ ∃ mv, mv ∈ moves ∧ at_or_below (to mv) q.
Proof.
  apply reconcile_Ok in Hrun as (es & fs1 & fs2 & -> & -> & H1 & H2 & H3).
  destruct (forEach_removeSync _ _ _ Hwf H1) as (Hwf1 & Hd1 & Hlk1).
  destruct (forEach_applyMv_files _ _ _ Hwf1 H2) as [Hwf2 Hlk2].
  pose proof (forEach_applyMv_isDirectory _ _ _ Hd1 H2) as Hd2.
  pose proof (removeEmptyDirs_traverse fs2 true destination true "") as Ht.
  rewrite H3 in Ht. simpl in Ht.
  pose proof (removeEmptyDirs_isDirectory _ _ _ H3) as Hd3.
  rewrite Hd2 in Hd3.
  destruct fs' as [c|es']; [done|]. destruct fs2 as [c2|es2]; [done|].
  destruct fs1 as [c1|es1]; [done|].
  exists (traverse (Dir es') destination true ""). split; [done|].
  rewrite Ht. intros q (segs & c & -> & Hres & Hc)%elem_of_traverse; [|done].
  destruct (Hlk2 _ _ Hc) as [Hc1|(mv & t & Hin & Ht' & Hpre)].
  - left. eapply (prune_extras es destination destination); [done..|].
    apply elem_of_traverse; [done|]. by exists segs, c.
  - right. exists mv. split; [done|].
    apply is_prefix_spec in Hpre as [rest ->]. by exists t, rest.
Qed.

(** ** Running the phases again *)

Lemma visited_idem files :
  Forall (fun e => ∀ n', removeEmptyDirs e.2 false = Some n' ->
                         removeEmptyDirs n' false = Some n') files ->
  visited (visited files) = visited files.
Proof.
  induction 1 as [|[name child] rest Hc _ IH]; [done|].
  rewrite visited_cons. simpl in Hc.
  destruct (removeEmptyDirs child false) as [child'|] eqn:E; [|done].
  by rewrite visited_cons, (Hc _ eq_refl), IH.
Qed.

Lemma removeEmptyDirs_idem_inner n :
  ∀ n', removeEmptyDirs n false = Some n' ->
        removeEmptyDirs n' false = Some n'.
Proof.
  induction n as [c|files IH] using node_ind'; intros n'.
  - by intros [= <-].
  - rewrite removeEmptyDirs_Dir.
    destruct (visited files) as [|e0 rest0] eqn:Hv; [done|].
    intros [= <-]. rewrite <- Hv, removeEmptyDirs_Dir, visited_idem by done.
    by rewrite Hv.
Qed.

(** A second [removeEmptyDirs] finds nothing to remove. *)
Lemma removeEmptyDirs_idem n n' :
  removeEmptyDirs n true = Some n' -> removeEmptyDirs n' true = Some n'.
Proof.
  destruct n as [c|files]; [by intros [= <-]|].
  rewrite removeEmptyDirs_root. intros [= <-].
  rewrite removeEmptyDirs_root, visited_idem; [done|].
  apply Forall_forall. intros e _. apply removeEmptyDirs_idem_inner.
Qed.

Lemma extraFiles_nil set allFiles :
  (∀ q, q ∈ allFiles -> q ∈ set) -> extraFiles set allFiles = [].
Proof.
  intros Hall. destruct (extraFiles set allFiles) as [|q rest] eqn:E; [done|].
  assert (Hq : q ∈ extraFiles set allFiles) by (rewrite E; left).
  apply elem_of_extraFiles in Hq as [Hq Hout]. by apply Hall in Hq.
Qed.

(** C2, as the code has it: when the manifest has no moves, running the
    phases on their own result removes nothing, moves nothing and returns
    the tree as it is. *)
Theorem reconcile_again_without_moves
    (destination : string) (paths : gset string) (fs fs1 : node)
    (extra : list string)
    (Hwf : wf fs)
    (Hrun : reconcile destination paths [] fs = Ok (fs1, extra)) :
  ∃ remaining,
    traverseDir fs1 destination true "" = Ok remaining
    ∧ extraFiles paths remaining = []
    ∧ reconcile destination paths [] fs1 = Ok (fs1, []).
Proof.
  apply reconcile_Ok in Hrun as (es & fa & fb & -> & -> & H1 & [= <-] & H3).
  destruct (forEach_removeSync _ _ _ Hwf H1) as (_ & Hd1 & _).
  pose proof (removeEmptyDirs_traverse fa true destination true "") as Ht.
  rewrite H3 in Ht. simpl in Ht.
  pose proof (removeEmptyDirs_isDirectory _ _ _ H3) as Hd3.
  rewrite Hd1 in Hd3. destruct fs1 as [c|es1]; [done|].
  assert (Hnone : extraFiles paths (traverse (Dir es1) destination true "") = []).
  { apply extraFiles_nil. intros q Hq. rewrite Ht in Hq.
    by eapply (prune_extras es destination destination). }
  exists (traverse (Dir es1) destination true ""). split; [done|].
  split; [done|]. apply reconcile_Ok. exists es1, (Dir es1), (Dir es1).
  rewrite Hnone. repeat split; try done. by eapply removeEmptyDirs_idem.
Qed.

(** ** One move *)

(** A move whose source is a file puts the file at the target, inside a
    directory, and leaves nothing at the source. *)
Lemma applyMv_File mv fs fs' mvFrom mvTo c :
  resolve (from mv) = Some mvFrom -> resolve (to mv) = Some mvTo ->
  lookup_path mvFrom fs = Some (File c) ->
  applyMv mv fs = Ok fs' ->
  lookup_path mvTo fs' = Some (File c)
  ∧ (∃ es, lookup_path (removelast mvTo) fs' = Some (Dir es))
  ∧ (mvFrom ≠ mvTo -> lookup_path mvFrom fs' = None).
Proof.
  intros Hf Ht Hc (f & t & fs1 & Hf' & Ht' & Hens & Hren)%applyMv_Ok.
  rewrite Hf in Hf'. injection Hf' as <-. rewrite Ht in Ht'. injection Ht' as <-.
  apply (lookup_ensureDir_at_File _ _ _ mvFrom c Hens) in Hc.
  destruct (rename_at_Ok _ _ _ _ _ _ Hren)
    as (src & Hsrc & [[Heq ->]|(Hne & Hpre & Hcompat & n1 & Hrm & Hwr)]).
  - apply path_eqb_eq in Heq as <-. split; [done|]. split; [|done].
    by eapply lookup_ensureDir_at.
  - rewrite Hc in Hsrc. injection Hsrc as <-.
    assert (HmvTo : mvTo ≠ []).
    { intros ->. destruct fs1 as [c1|es1]; [by destruct mvFrom|].
      by destruct (Hcompat es1 eq_refl). }
    split; [by eapply lookup_write_at|]. split; [by eapply write_at_parent|].
    intros _. rewrite (lookup_write_at_other _ _ _ _ mvFrom Hwr); [| |done].
    + by eapply lookup_remove_at_gone.
    + destruct (is_prefix mvTo mvFrom) eqn:E; [|done]. exfalso.
      apply is_prefix_spec in E as [[|a r] ->].
      * rewrite app_nil_r in Hne. by rewrite (proj2 (path_eqb_eq _ _)) in Hne.
      * destruct (lookup_path_Dir_prefix _ _ _ _ _ Hc) as (es & Hes & _).
        by destruct (Hcompat es Hes).
Qed.

(** A move whose source is missing throws. *)
Lemma applyMv_missing mv fs mvFrom :
  resolve (from mv) = Some mvFrom -> lookup_path mvFrom fs = None ->
  ∃ e, applyMv mv fs = Err e.
Proof.
  intros Hf Hnone. unfold applyMv. rewrite Hf.
  destruct (resolve (to mv)) as [t|]; [|by eexists].
  destruct (ensureDir_at (removelast t) fs) as [fs1|e] eqn:Hens; [|by eexists].
  simpl bind. unfold rename_at.
  destruct (lookup_path mvFrom fs1) as [src|] eqn:Hsrc.
  - rewrite (proj2 (stat_lookup _ _ _) Hsrc). simpl bind.
    destruct (_ && _); [by eexists|].
    assert (Hpre : is_prefix mvFrom (removelast t) = true).
    { eapply lookup_ensureDir_at_new; [done..|]. by rewrite Hsrc. }
    assert (Ht : t ≠ []).
    { intros ->. simpl in Hens. destruct fs; [done|].
      injection Hens as <-. congruence. }
    destruct (is_prefix_removelast _ _ Ht Hpre) as [-> ->]. by eexists.
  - destruct (stat_lookup_None _ _ Hsrc) as [e ->]. by eexists.
Qed.

Lemma ensureDir_at_succeeds p :
  ∀ n,
    isDirectory n = true ->
    (∀ q c, is_prefix q p = true -> lookup_path q n ≠ Some (File c)) ->
    ∃ n', ensureDir_at p n = Ok n'.
Proof.
  induction p as [|name p IH]; intros n Hd Hfree; simpl.
  - destruct n; [done|]. eauto.
  - destruct n as [c|es]; [done|].
    destruct (IH (default (Dir []) (get_entry name es))) as [child' ->].
    + destruct (get_entry name es) as [[c|ces]|] eqn:Hg; try done.
      exfalso. apply (Hfree [name] c); simpl.
      * by rewrite String.eqb_refl.
      * by rewrite Hg.
    + intros q c Hq. destruct (get_entry name es) as [child|] eqn:Hg; simpl.
      * intros Hlk. apply (Hfree (name :: q) c); simpl.
        -- by rewrite String.eqb_refl.
        -- by rewrite Hg.
      * by destruct q.
    + simpl. eauto.
Qed.

Lemma remove_at_succeeds p :
  ∀ n v, p ≠ [] -> lookup_path p n = Some v -> ∃ n', remove_at p n = Ok n'.
Proof.
  induction p as [|name p IH]; intros n v Hne; [done|]. simpl.
  destruct n as [c|es]; [done|].
  destruct (get_entry name es) as [child|] eqn:Hg; [|done].
  destruct p as [|b p]; [eauto|]. intros Hlk.
  destruct (IH child v) as [child' ->]; [done..|]. simpl. eauto.
Qed.

(** Removing an entry leaves the directories that do not lie at or below
    it directories. *)
Lemma remove_at_keeps_dir f :
  ∀ n n1 q es,
    remove_at f n = Ok n1 ->
    lookup_path q n = Some (Dir es) -> is_prefix f q = false ->
    ∃ es', lookup_path q n1 = Some (Dir es').
Proof.
  induction f as [|name f IH]; intros n n1 q es; [done|].
  intros Hrm. pose proof (remove_at_isDirectory _ _ _ Hrm) as Hd1.
  revert Hrm. simpl remove_at. destruct n as [c|es0]; [done|].
  destruct q as [|a q].
  { intros _ _ _. destruct n1 as [|es1]; [done|]. by exists es1. }
  cbn [lookup_path is_prefix]. destruct f as [|b f].
  - intros [= <-]. case_eqb name a; [done|]. cbn [lookup_path].
    rewrite get_entry_del_ne by done. eauto.
  - destruct (get_entry name es0) as [child|] eqn:Hg.
    + destruct (remove_at (b :: f) child) as [child'|e] eqn:Hr; [|done].
      intros [= <-]. cbn [lookup_path]. case_eqb name a.
      * subst. rewrite get_entry_set_eq, Hg. simpl. by eapply IH.
      * rewrite get_entry_set_ne by done. eauto.
    + intros [= <-]. eauto.
Qed.

Lemma write_at_succeeds t :
  ∀ v n es,
    t ≠ [] -> lookup_path (removelast t) n = Some (Dir es) ->
    ∃ n', write_at t v n = Ok n'.
Proof.
  induction t as [|name t IH]; intros v n es Hne; [done|].
  destruct t as [|b t].
  - simpl. intros [= ->]. eauto.
  - change (removelast (name :: b :: t)) with (name :: removelast (b :: t)).
    destruct n as [c|es0]; [done|]. cbn [lookup_path].
    change (write_at (name :: b :: t) v (Dir es0))
      with (match get_entry name es0 with
            | None => Err ENOENT
            | Some child =>
                let? child' := write_at (b :: t) v child in
                Ok (Dir (set_entry name child' es0))
            end).
    destruct (get_entry name es0) as [child|]; [|done]. intros Hlk.
    destruct (IH v child es) as [child' ->]; [done..|]. simpl. eauto.
Qed.

(** A move of a file succeeds when no file stands where a directory on the
    way to the target is needed and the target is not a directory:
    directories that are missing on the way are created. *)
Lemma applyMv_succeeds mv fs mvFrom mvTo c :
  resolve (from mv) = Some mvFrom -> resolve (to mv) = Some mvTo ->
  trailing_slash (from mv) = false -> trailing_slash (to mv) = false ->
  isDirectory fs = true ->
  lookup_path mvFrom fs = Some (File c) ->
  (∀ q c', is_prefix q (removelast mvTo) = true ->
           lookup_path q fs ≠ Some (File c')) ->
  (∀ es, lookup_path mvTo fs ≠ Some (Dir es)) ->
  ∃ fs', applyMv mv fs = Ok fs'.
Proof.
  intros Hf Ht Hfs Hts Hd Hc Hfree Htarget. unfold applyMv. rewrite Hf, Ht.
  destruct (ensureDir_at_succeeds _ _ Hd Hfree) as [fs1 Hens]. rewrite Hens.
  simpl bind. unfold rename_at.
  pose proof (proj2 (lookup_ensureDir_at_File _ _ _ mvFrom c Hens) Hc) as Hc1.
  rewrite (proj2 (stat_lookup _ _ _) Hc1), Hfs, Hts. simpl.
  destruct (path_eqb mvFrom mvTo) eqn:Heq; [eauto|].
  assert (HmvTo : mvTo ≠ []).
  { intros ->. destruct fs as [|es]; [done|]. by apply (Htarget es). }
  assert (HmvFrom : mvFrom ≠ []).
  { intros ->. by destruct fs. }
  destruct (exists_last HmvTo) as (parent & leaf & ->).
  rewrite removelast_last in Hfree, Hens.
  destruct (is_prefix mvFrom (parent ++ [leaf])) eqn:Hpre.
  { exfalso. apply is_prefix_spec in Hpre as [r Hr].
    destruct r as [|x r] using rev_ind.
    - rewrite app_nil_r in Hr. subst mvFrom.
      by rewrite (proj2 (path_eqb_eq _ _)) in Heq.
    - rewrite app_assoc in Hr. apply app_inj_tail in Hr as [-> _].
      by apply (Hfree mvFrom c (is_prefix_app _ _)). }
  assert (Hto1 : ∀ es, lookup_path (parent ++ [leaf]) fs1 ≠ Some (Dir es)).
  { intros es Hes.
    destruct (lookup_path (parent ++ [leaf]) fs) as [v|] eqn:Hv.
    - destruct (lookup_ensureDir_at_other _ _ _ (parent ++ [leaf]) Hens)
        as [Hsame|Hn]; [apply parent_no_prefix| |congruence].
      rewrite Hsame, Hv in Hes. by apply (Htarget es).
    - pose proof (lookup_ensureDir_at_new _ _ _ (parent ++ [leaf]) Hens Hv) as H.
      rewrite parent_no_prefix in H. rewrite Hes in H. by discriminate H. }
  destruct (remove_at_succeeds _ _ _ HmvFrom Hc1) as [n1 Hrm]. rewrite Hrm.
  destruct (lookup_ensureDir_at _ _ _ Hens) as [pes Hparent].
  assert (Hnp : is_prefix mvFrom parent = false).
  { destruct (is_prefix mvFrom parent) eqn:E; [|done]. exfalso.
    by apply (Hfree mvFrom c E). }
  destruct (remove_at_keeps_dir _ _ _ _ _ Hrm Hparent Hnp) as [pes' Hparent1].
  destruct (write_at_succeeds (parent ++ [leaf]) (File c) n1 pes')
    as [fs' Hwr]; [done|by rewrite removelast_last|].
  exists fs'.
  destruct (lookup_path (parent ++ [leaf]) fs1) as [[c'|es]|] eqn:Hl; simpl;
    [done| |done].
  by destruct (Hto1 es).
Qed.

Lemma followBoxRecipe_Err user cfg rs destination option fs recipeFiles st e :
  recipes cfg = Some rs ->
  locate user rs (split_on comma option) (specs rs) nav0
  = Ok (recipeFiles, st) ->
  reconcile destination (manifest_paths recipeFiles) (move_specs recipeFiles) fs
  = Err e ->
  followBoxRecipe user cfg destination (Given option) fs = Err e.
Proof.
  intros Hrs Hloc Hrec. unfold followBoxRecipe. rewrite Hrs. simpl bind.
  fold nav0. rewrite Hloc. simpl bind. rewrite classify_spec.
  by rewrite Hrec.
Qed.

(** ** Copying *)

Lemma same_kind_refl a : same_kind a a.
Proof. by destruct a. Qed.

Lemma same_kind_trans a b c : same_kind a b -> same_kind b c -> same_kind a c.
Proof. destruct a, b, c; simpl; congruence || done. Qed.

Lemma same_kind_File c b : same_kind (File c) b -> b = File c.
Proof. destruct b; simpl; [by intros -> | done]. Qed.

Lemma same_kind_Dir es b : same_kind (Dir es) b -> ∃ es', b = Dir es'.
Proof. destruct b; simpl; [done | eauto]. Qed.

Lemma copy_entries_cons copy name child rest ds :
  copy_entries copy ((name, child) :: rest) ds
  = let? child' := copy child (get_entry name ds) in
    copy_entries copy rest (set_entry name child' ds).
Proof. reflexivity. Qed.

Lemma copy_entries_other copy es :
  ∀ ds ds' name,
    copy_entries copy es ds = Ok ds' -> name ∉ names es ->
    get_entry name ds' = get_entry name ds.
Proof.
  induction es as [|[n ch] rest IH]; intros ds ds' name.
  - by intros [= <-].
  - rewrite copy_entries_cons. intros (ch' & Hch & Hrest)%bind_Ok.
    intros [Hne Hnin]%not_elem_of_cons.
    rewrite (IH _ _ _ Hrest Hnin). by apply get_entry_set_ne.
Qed.

Lemma copy_node_Dir es dst r :
  copy_node (Dir es) dst = Ok r ->
  ∃ ds ds', copy_entries copy_node es ds = Ok ds' ∧ r = Dir ds'.
Proof.
  simpl. destruct dst as [[c|ds]|]; [done| |].
  - intros (ds' & H & [= <-])%bind_Ok. by exists ds, ds'.
  - intros (ds' & H & [= <-])%bind_Ok. by exists [], ds'.
Qed.

(** Every entry of the source has its copy in the result. *)
Lemma copy_node_kind src :
  wf src ->
  ∀ dst r p a,
    copy_node src dst = Ok r ->
    lookup_path p src = Some a ->
    ∃ b, lookup_path p r = Some b ∧ same_kind a b.
Proof.
  induction src as [c0|es IH] using node_ind'; intros Hwf dst r p a.
  - simpl. destruct p; [|done]. intros Hr [= <-].
    assert (r = File c0) as -> by (destruct dst as [[?|?]|]; congruence).
    by exists (File c0).
  - intros (ds & ds' & Hcopy & ->)%copy_node_Dir.
    destruct p as [|name p]; [intros [= <-]; by exists (Dir ds')|].
    cbn [lookup_path].
    destruct (get_entry name es) as [child|] eqn:Hg; [|done]. intros Hlk.
    apply wf_Dir in Hwf as [Hnd Hall]. clear dst.
    revert ds Hcopy. induction es as [|[n ch] rest IHrest]; intros ds; [done|].
    apply Forall_cons_1 in IH as [IHch IHr].
    apply Forall_cons_1 in Hall as [[_ Hwfch] Hall].
    simpl in Hnd. apply NoDup_cons in Hnd as [Hn Hnd].
    rewrite copy_entries_cons. intros (ch' & Hch & Hrest)%bind_Ok.
    simpl in Hg. case_eqb n name.
    + injection Hg as ->. subst n.
      rewrite (copy_entries_other _ _ _ _ _ Hrest Hn), get_entry_set_eq.
      by eapply IHch.
    + by eapply IHrest.
Qed.

Lemma copySync_Ok src dst fs fs' :
  copySync src dst fs = Ok fs' ->
  ∃ s fs1 copied,
    lookup_path src fs = Some s
    ∧ ensureDir_at (removelast dst) fs = Ok fs1
    ∧ copy_node s (lookup_path dst fs1) = Ok copied
    ∧ write_at dst copied fs1 = Ok fs'.
Proof.
  unfold copySync. intros (s & Hs%stat_lookup & H)%bind_Ok.
  destruct (path_eqb src dst); [done|].
  destruct (isDirectory s && is_prefix src dst); [done|].
  apply bind_Ok in H as (fs1 & H1 & (copied & H2 & H3)%bind_Ok).
  by exists s, fs1, copied.
Qed.

(** [ensureDirSync] leaves every entry an entry of its kind. *)
Lemma lookup_ensureDir_at_kind p :
  ∀ n n' q a,
    ensureDir_at p n = Ok n' -> lookup_path q n = Some a ->
    ∃ b, lookup_path q n' = Some b ∧ same_kind a b.
Proof.
  induction p as [|name p IH]; intros n n' q a; simpl.
  - destruct n; [done|]. intros [= <-] Hq. exists a. split; [done|].
    apply same_kind_refl.
  - destruct n as [c0|es]; [done|].
    destruct (ensureDir_at p (default (Dir []) (get_entry name es)))
      as [child'|e] eqn:Hr; [|done].
    intros [= <-]. destruct q as [|x q]; [intros [= <-]; by eexists|].
    cbn [lookup_path]. case_eqb name x.
    + subst. rewrite get_entry_set_eq.
      destruct (get_entry x es) as [child|]; [|done]. by apply IH.
    + rewrite get_entry_set_ne by done. intros Hq. exists a.
      split; [done | apply same_kind_refl].
Qed.

(** So does a write, for the entries that are not at or below its path. *)
Lemma lookup_write_at_kind t :
  ∀ n n' v q a,
    write_at t v n = Ok n' -> lookup_path q n = Some a ->
    is_prefix t q = false ->
    ∃ b, lookup_path q n' = Some b ∧ same_kind a b.
Proof.
  induction t as [|name t IH]; intros n n' v q a; [done|].
  intros Hwr. pose proof (write_at_isDirectory _ _ _ _ _ Hwr) as Hd.
  revert Hwr. simpl write_at. destruct n as [c0|es]; [done|].
  destruct q as [|x q].
  { intros _ [= <-] _. destruct n' as [|es']; [done|]. by exists (Dir es'). }
  cbn [lookup_path is_prefix]. destruct t as [|b t].
  - intros [= <-]. case_eqb name x; [done|]. cbn [lookup_path].
    rewrite get_entry_set_ne by done. intros Hq _. exists a.
    split; [done | apply same_kind_refl].
  - destruct (get_entry name es) as [child|] eqn:Hg; [|done].
    destruct (write_at (b :: t) v child) as [child'|e] eqn:Hr; [|done].
    intros [= <-]. cbn [lookup_path]. case_eqb name x.
    + subst. rewrite get_entry_set_eq, Hg. simpl. by eapply IH.
    + rewrite get_entry_set_ne by done. intros Hq _. exists a.
      split; [done | apply same_kind_refl].
Qed.

(** An entry that is not at or below the target of a copy stays an entry of
    its kind. *)
Lemma copySync_kept src dst fs fs' q a :
  copySync src dst fs = Ok fs' ->
  lookup_path q fs = Some a -> is_prefix dst q = false ->
  ∃ b, lookup_path q fs' = Some b ∧ same_kind a b.
Proof.
  intros (s & fs1 & copied & Hs & H1 & H2 & H3)%copySync_Ok Hq Hpre.
  destruct (lookup_ensureDir_at_kind _ _ _ _ _ H1 Hq) as (b1 & Hb1 & Hk1).
  destruct (lookup_write_at_kind _ _ _ _ _ _ H3 Hb1 Hpre) as (b & Hb & Hk).
  exists b. split; [done|]. by eapply same_kind_trans.
Qed.

(** An entry apart from the target is left exactly as it is. *)
Lemma copySync_apart src dst fs fs' q a :
  copySync src dst fs = Ok fs' ->
  lookup_path q fs = Some a ->
  is_prefix dst q = false -> is_prefix q dst = false ->
  lookup_path q fs' = Some a.
Proof.
  intros (s & fs1 & copied & Hs & H1 & H2 & H3)%copySync_Ok Hq Ha Hb.
  rewrite (lookup_write_at_other _ _ _ _ _ H3 Ha Hb).
  destruct (lookup_ensureDir_at_other _ _ _ q H1) as [->|Hn];
    [|done|congruence].
  destruct (is_prefix q (removelast dst)) eqn:E; [|done].
  destruct dst as [|x dst]; [by destruct q|].
  apply is_prefix_removelast in E as [E _]; [congruence | done].
Qed.

(** An entry at or below the source of a copy has its copy at or below the
    target. *)
Lemma copySync_copied src dst fs fs' s rest a :
  copySync src dst fs = Ok fs' ->
  lookup_path src fs = Some s -> wf s ->
  lookup_path (src ++ rest) fs = Some a ->
  ∃ b, lookup_path (dst ++ rest) fs' = Some b ∧ same_kind a b.
Proof.
  intros (s' & fs1 & copied & Hs' & H1 & H2 & H3)%copySync_Ok Hs Hwf.
  rewrite Hs in Hs'. injection Hs' as <-.
  rewrite !lookup_path_app, Hs, (lookup_write_at _ _ _ _ H3). simpl.
  by apply copy_node_kind with (dst := lookup_path dst fs1).
Qed.

(** The loop that copies the entries [files] of [tmpDir] into
    [destination], two directories that do not contain one another: the
    temporary directory is left as it is, an entry that none of the copies
    goes to stays, and every entry at or below one of [files] has its copy
    in the destination. *)
Lemma forEach_copySync tmpDir destination t files :
  wf t ->
  is_prefix destination tmpDir = false ->
  is_prefix tmpDir destination = false ->
  ∀ fs fs',
    lookup_path tmpDir fs = Some t ->
    forEach (fun file => copySync (tmpDir ++ [file]) (destination ++ [file]))
      files fs = Ok fs' ->
    lookup_path tmpDir fs' = Some t
    ∧ (∀ q a,
         lookup_path q fs = Some a ->
         (∀ g, g ∈ files -> is_prefix (destination ++ [g]) q = false) ->
         ∃ b, lookup_path q fs' = Some b ∧ same_kind a b)
    ∧ (∀ g rest a,
         g ∈ files ->
         lookup_path (tmpDir ++ g :: rest) fs = Some a ->
         ∃ b, lookup_path (destination ++ g :: rest) fs' = Some b
              ∧ same_kind a b).
Proof.
  intros Hwf Hd1 Hd2. induction files as [|g0 tl IH]; intros fs fs' Ht.
  - intros [= <-]. split; [done|]. split.
    + intros q a Hq _. exists a. split; [done | apply same_kind_refl].
    + by intros g rest a ?%elem_of_nil.
  - intros (fs1 & Hstep & Hrest)%forEach_cons.
    assert (Ht1 : lookup_path tmpDir fs1 = Some t).
    { apply (copySync_apart _ _ _ _ _ _ Hstep Ht).
      - rewrite <- (app_nil_r tmpDir). by apply disjoint_no_prefix.
      - rewrite <- (app_nil_r tmpDir) at 1. by apply disjoint_no_prefix. }
    destruct (IH _ _ Ht1 Hrest) as (Ht' & Hkept & Hcopied).
    split; [done|]. split.
    + intros q a Hq Hall.
      destruct (copySync_kept _ _ _ _ _ _ Hstep Hq) as (b1 & Hb1 & Hk1).
      { apply Hall. left. }
      destruct (Hkept q b1 Hb1) as (b & Hb & Hk).
      { intros g Hg. apply Hall. by right. }
      exists b. split; [done|]. by eapply same_kind_trans.
    + intros g rest a Hg Hlk.
      assert (Hsrc : ∃ s, lookup_path (tmpDir ++ [g]) fs = Some s ∧ wf s).
      { rewrite lookup_path_app, Ht in Hlk. simpl in Hlk.
        rewrite lookup_path_app, Ht. simpl.
        destruct t as [c|es]; [done|].
        destruct (get_entry g es) as [s|] eqn:Hs; [|done].
        exists s. split; [done|]. by eapply wf_entry. }
      destruct (decide (g ∈ tl)) as [Hin|Hnin].
      * destruct (copySync_kept _ _ _ _ _ _ Hstep Hlk) as (a1 & Ha1 & Hk1).
        { by apply disjoint_no_prefix. }
        destruct (Hcopied g rest a1 Hin Ha1) as (b & Hb & Hk).
        exists b. split; [done|]. by eapply same_kind_trans.
      * apply elem_of_cons in Hg as [->|Hg]; [|by destruct Hnin].
        destruct Hsrc as (s & Hs & Hwfs).
        change (g0 :: rest) with ([g0] ++ rest) in Hlk. rewrite app_assoc in Hlk.
        destruct (copySync_copied _ _ _ _ _ _ _ Hstep Hs Hwfs Hlk)
          as (b1 & Hb1 & Hk1).
        rewrite <- app_assoc in Hb1.
        destruct (Hkept _ b1 Hb1) as (b & Hb & Hk).
        { intros g' Hg'. apply sibling_no_prefix. by intros ->. }
        exists b. split; [done|]. by eapply same_kind_trans.
Qed.

(** ** The merger *)

Lemma readdirSync_Ok p fs l :
  readdirSync p fs = Ok l <-> ∃ es, lookup_path p fs = Some (Dir es) ∧ l = names es.
Proof.
  unfold readdirSync. split.
  - intros (d & Hd%stat_lookup & H)%bind_Ok. destruct d as [c|es]; [done|].
    injection H as <-. by exists es.
  - intros (es & Hes%stat_lookup & ->). apply bind_Ok. by exists (Dir es).
Qed.

Lemma copyTempIntoDestination_force user cwd tmpDir destination fs fs' confirms :
  copyTempIntoDestination user cwd tmpDir destination {| force := true |} fs
  = Ok (fs', confirms) ->
  ∃ fs0 es,
    ensureDir_at destination fs = Ok fs0
    ∧ lookup_path tmpDir fs0 = Some (Dir es)
    ∧ forEach (fun file => copySync (tmpDir ++ [file]) (destination ++ [file]))
        (names es) fs0 = Ok fs'
    ∧ confirms = [].
Proof.
  unfold copyTempIntoDestination.
  intros (fs0 & H0 & (box & (es & Hes & ->)%readdirSync_Ok & H)%bind_Ok)%bind_Ok.
  apply bind_Ok in H as (dc & _ & H). simpl in H.
  apply bind_Ok in H as (fs2 & H2 & [= <- <-]). by exists fs0, es.
Qed.

(** C6: with [force] set nobody is asked, and every entry of the temporary
    directory, at any depth, has its copy in the destination when the call
    returns: a file is a file with the content it has in the temporary
    directory, whatever the destination held there, and a directory is a
    directory.  So it is for a file [a.txt] at the top of both. *)
Theorem force_copies_every_file
    (user : confirmer) (cwd tmpDir destination : list string)
    (fs fs' : node) (confirms : list string)
    (Hwf : wf fs)
    (Hapart : is_prefix destination tmpDir = false
              ∧ is_prefix tmpDir destination = false)
    (Hrun : copyTempIntoDestination user cwd tmpDir destination
              {| force := true |} fs = Ok (fs', confirms)) :
  confirms = []
  ∧ (∀ name rest c,
       lookup_path (tmpDir ++ name :: rest) fs = Some (File c) ->
       lookup_path (destination ++ name :: rest) fs' = Some (File c))
  ∧ (∀ name rest es,
       lookup_path (tmpDir ++ name :: rest) fs = Some (Dir es) ->
       ∃ es', lookup_path (destination ++ name :: rest) fs' = Some (Dir es'))
  ∧ (∀ name c_tmp c_dest,
       lookup_path (tmpDir ++ [name]) fs = Some (File c_tmp) ->
       lookup_path (destination ++ [name]) fs = Some (File c_dest) ->
       lookup_path (destination ++ [name]) fs' = Some (File c_tmp)).
Proof.
  apply copyTempIntoDestination_force in Hrun as (fs0 & es & H0 & Hes & Hloop & ->).
  destruct Hapart as [Hd1 Hd2].
  assert (Hes0 : lookup_path tmpDir fs = Some (Dir es)).
  { destruct (lookup_ensureDir_at_other _ _ _ tmpDir H0 Hd2) as [<-|Hn]; [done|].
    destruct (lookup_path tmpDir fs0) eqn:E; [|done]. exfalso.
    pose proof (lookup_ensureDir_at_new _ _ _ tmpDir H0 Hn) as Hnew.
    rewrite E, Hd2 in Hnew. by discriminate Hnew. }
  pose proof (wf_lookup_path _ _ _ Hwf Hes0) as Hwft.
  destruct (forEach_copySync _ _ _ _ Hwft Hd1 Hd2 _ _ Hes Hloop)
    as (_ & _ & Hcopied).
  assert (Hall : ∀ name rest a,
             lookup_path (tmpDir ++ name :: rest) fs = Some a ->
             ∃ b, lookup_path (destination ++ name :: rest) fs' = Some b
                  ∧ same_kind a b).
  { intros name rest a Hlk.
    assert (Hname : name ∈ names es).
    { rewrite lookup_path_app, Hes0 in Hlk. simpl in Hlk.
      destruct (get_entry name es) as [child|] eqn:Hg; [|done].
      apply get_entry_elem in Hg. apply list_elem_of_fmap.
      by exists (name, child). }
    destruct (lookup_ensureDir_at_kind _ _ _ _ _ H0 Hlk) as (a0 & Ha0 & Hk0).
    destruct (Hcopied name rest a0 Hname Ha0) as (b & Hb & Hk).
    exists b. split; [done|]. by eapply same_kind_trans. }
  assert (Hfiles : ∀ name rest c,
             lookup_path (tmpDir ++ name :: rest) fs = Some (File c) ->
             lookup_path (destination ++ name :: rest) fs' = Some (File c)).
  { intros name rest c Hlk. destruct (Hall _ _ _ Hlk) as (b & Hb & Hk).
    by apply same_kind_File in Hk as ->. }
  split; [done|]. split; [done|]. split.
  - intros name rest es1 Hlk. destruct (Hall _ _ _ Hlk) as (b & Hb & Hk).
    apply same_kind_Dir in Hk as [es' ->]. by exists es'.
  - intros name c_tmp c_dest Htmp _. by apply Hfiles.
Qed.

(** What [promptOverwrites] returns: the files the user agreed to, and a
    tree in which every entry that is apart from the removed ones is as it
    was. *)
Lemma promptOverwrites_spec user cwd collisions :
  ∀ confirms fs overwriteContents confirms' fs',
    promptOverwrites user cwd collisions confirms fs
    = Ok (overwriteContents, confirms', fs') ->
    (∀ g, g ∈ overwriteContents -> g ∈ collisions ∧ ∃ n, user n g = true)
    ∧ ∀ q,
        (∀ g, g ∈ overwriteContents ->
              is_prefix (cwd ++ [g]) q = false
              ∧ is_prefix q (cwd ++ [g]) = false) ->
        lookup_path q fs' = lookup_path q fs.
Proof.
  induction collisions as [|file rest IH]; intros confirms fs ow confirms' fs'.
  - intros [= <- <- <-]. split; [by intros g ?%elem_of_nil | done].
  - cbn [promptOverwrites].
    destruct (user (length confirms) file) eqn:Hans.
    + intros (fs1 & Hrm & H)%bind_Ok.
      apply bind_Ok in H as ([[ow' c'] fs''] & Hrest & [= <- <- <-]).
      destruct (IH _ _ _ _ _ Hrest) as [Hmem Hframe]. split.
      * intros g [->|Hg]%elem_of_cons.
        -- split; [left | eauto].
        -- destruct (Hmem g Hg) as [? ?]. split; [by right | done].
      * intros q Hq. rewrite Hframe.
        -- destruct (Hq file) as [H1 H2]; [left|].
           by apply (lookup_remove_at_other _ _ _ _ Hrm).
        -- intros g Hg. apply Hq. by right.
    + intros Hrest. destruct (IH _ _ _ _ _ Hrest) as [Hmem Hframe]. split.
      * intros g Hg. destruct (Hmem g Hg) as [? ?]. split; [by right | done].
      * done.
Qed.

(** A copy to a sibling leaves an existing entry as it is. *)
Lemma copySync_sibling src d g name fs fs' kept :
  g ≠ name ->
  copySync src (d ++ [g]) fs = Ok fs' ->
  lookup_path (d ++ [name]) fs = Some kept ->
  lookup_path (d ++ [name]) fs' = Some kept.
Proof.
  intros Hne (s & fs1 & copied & Hs & H1 & H2 & H3)%copySync_Ok Hkept.
  destruct (sibling_apart d g name Hne) as [Ha Hb].
  rewrite (lookup_write_at_other _ _ _ _ _ H3 Ha Hb).
  rewrite removelast_last in H1.
  destruct (lookup_ensureDir_at_other _ _ _ (d ++ [name]) H1) as [->|Hn];
    [apply parent_no_prefix | done | congruence].
Qed.

Lemma forEach_copySync_sibling tmpDir d name files :
  name ∉ files ->
  ∀ fs fs' kept,
    forEach (fun file => copySync (tmpDir ++ [file]) (d ++ [file])) files fs
    = Ok fs' ->
    lookup_path (d ++ [name]) fs = Some kept ->
    lookup_path (d ++ [name]) fs' = Some kept.
Proof.
  induction files as [|g tl IH]; intros Hnin fs fs' kept.
  - by intros [= <-].
  - apply not_elem_of_cons in Hnin as [Hne Hnin].
    intros (fs1 & Hstep & Hrest)%forEach_cons Hkept.
    eapply IH; [done..|]. eapply copySync_sibling; [|done..]. congruence.
Qed.

(** When the process works in the destination, an entry the user declines
    to overwrite is left exactly as it was, and nothing is copied over it. *)
Lemma declined_entry_kept_in_working_directory
    (user : confirmer) (tmpDir destination : list string)
    (fs fs' : node) (confirms : list string) (name : string) (kept : node) :
  (∀ n, user n name = false) ->
  lookup_path (destination ++ [name]) fs = Some kept ->
  copyTempIntoDestination user destination tmpDir destination
    {| force := false |} fs = Ok (fs', confirms) ->
  lookup_path (destination ++ [name]) fs' = Some kept.
Proof.
  intros Hno Hkept. unfold copyTempIntoDestination.
  intros (fs0 & H0 & (box & _ & H)%bind_Ok)%bind_Ok.
  apply bind_Ok in H as (dc & (es & Hes & ->)%readdirSync_Ok & H).
  cbn [force] in H.
  apply bind_Ok in H as ([[shouldCopy c'] fs1] & H1 & H).
  apply bind_Ok in H as (fs2 & H2 & [= <- <-]).
  apply bind_Ok in H1 as ([[ow c''] fs1'] & Hprompt & [= <- <- <-]).
  destruct (promptOverwrites_spec _ _ _ _ _ _ _ _ Hprompt) as [Hmem Hframe].
  assert (Hkept0 : lookup_path (destination ++ [name]) fs0 = Some kept).
  { destruct (lookup_ensureDir_at_other _ _ _ (destination ++ [name]) H0)
      as [->|Hn]; [apply parent_no_prefix | done | congruence]. }
  assert (Hname : name ∈ names es).
  { rewrite lookup_path_app, Hes in Hkept0. simpl in Hkept0.
    destruct (get_entry name es) as [child|] eqn:Hg; [|done].
    apply get_entry_elem in Hg. apply list_elem_of_fmap. by exists (name, child). }
  assert (Hnot : name ∉ ow).
  { intros Hin. destruct (Hmem _ Hin) as [_ [n Hn]]. by rewrite Hno in Hn. }
  eapply (forEach_copySync_sibling tmpDir destination name); [|exact H2|].
  - intros [Hin|Hin]%elem_of_app; [|done].
    rewrite list_elem_of_In, filter_In, negb_true_iff in Hin.
    destruct Hin as [_ Hin]. apply not_true_iff_false in Hin. apply Hin.
    apply includes_In. by apply list_elem_of_In.
  - rewrite Hframe; [done|]. intros g Hg. apply sibling_apart. by intros ->.
Qed.

(** * Concrete runs *)

Example path_join_examples :
  path_join "" "a.ts" = "a.ts"
  ∧ path_join "src" "tpl.txt" = "src/tpl.txt"
  ∧ path_join "a/b" "../c/" = "a/c/"
  ∧ resolve "./src//tpl.txt" = Some ["src"; "tpl.txt"]
  ∧ resolve "../elsewhere" = None
  ∧ split_on comma "ts,vue" = ["ts"; "vue"]
  ∧ split_on comma "" = [""].
Proof. repeat split; reflexivity. Qed.

Example removeEmptyDirs_example :
  removeEmptyDirs
    (Dir [("a", Dir [("b", Dir []); ("c", Dir [("d", Dir [])])]);
          ("f", File "x");
          ("g", Dir [("h", File "y"); ("e", Dir [])])])
    true
  = Some (Dir [("f", File "x"); ("g", Dir [("h", File "y")])])
  ∧ removeEmptyDirs (Dir [("a", Dir [])]) true = Some (Dir [])
  ∧ removeEmptyDirs (Dir [("a", Dir [])]) false = None.
Proof. repeat split; reflexivity. Qed.

Example traverseDir_example :
  traverseDir
    (Dir [("f", File "x"); ("g", Dir [("h", File "y"); ("e", Dir [])])])
    "/dest" true ""
  = Ok ["f"; "g/h"]
  ∧ traverseDir
      (Dir [("f", File "x"); ("g", Dir [("h", File "y"); ("e", Dir [])])])
      "/dest" false ""
    = Ok ["/dest/f"; "/dest/g/h"]
  ∧ traverseDir (File "x") "/dest" true "" = Err ENOTDIR.
Proof. repeat split; reflexivity. Qed.

(** The scenario of the specification, from the option to the tree. *)
Example scenario_followBoxRecipe :
  followBoxRecipe first_choice scenario_config "/dest" (Given "ts")
    scenario_destination
  = Ok {| tree := scenario_result; questions := [];
          removed := ["a.js"; "extra.md"]; moved := [tpl_move] |}.
Proof. vm_compute. reflexivity. Qed.

Lemma scenario_run :
  reconcile "/dest" (manifest_paths scenario_files) [tpl_move]
    scenario_destination
  = Ok (scenario_result, ["a.js"; "extra.md"]).
Proof. vm_compute. reflexivity. Qed.

Lemma scenario_moved_not_in_paths :
  "src/tpl.txt" ∉ manifest_paths scenario_files.
Proof.
  rewrite elem_of_manifest_paths. intros [H|(mv & H & Hf)].
  - repeat (apply elem_of_cons in H as [H|H]; [discriminate H|]).
    by apply elem_of_nil in H.
  - apply elem_of_cons in H as [H|H]; [discriminate H|].
    apply elem_of_cons in H as [H|H].
    + injection H as ->. discriminate Hf.
    + apply elem_of_cons in H as [H|H]; [discriminate H|].
      by apply elem_of_nil in H.
Qed.

(** Without an option the recipe stage throws before it asks anything. *)
Example followBoxRecipe_undefined_option :
  followBoxRecipe first_choice scenario_config "/dest" Undefined
    scenario_destination
  = Err ETYPE.
Proof. reflexivity. Qed.

(** C1 as stated fails on the scenario of the specification: the moved
    template is left at [src/tpl.txt], a path the manifest does not list. *)
Lemma reconcile_leaves_file_outside_paths :
  ¬ (∀ destination paths moves fs fs' extra remaining,
        wf fs ->
        reconcile destination paths moves fs = Ok (fs', extra) ->
        traverseDir fs' destination true "" = Ok remaining ->
        ∀ q, q ∈ remaining -> q ∈ paths).
Proof.
  intros Hclaim.
  apply scenario_moved_not_in_paths.
  apply (Hclaim "/dest" (manifest_paths scenario_files) [tpl_move]
           scenario_destination scenario_result ["a.js"; "extra.md"]
           ["a.ts"; "README.md"; "src/tpl.txt"]).
  - reflexivity.
  - exact scenario_run.
  - reflexivity.
  - right. right. left.
Qed.

Lemma reconcile_files_witness :
  wf scenario_destination
  ∧ ∃ remaining,
      traverseDir scenario_result "/dest" true "" = Ok remaining
      ∧ ∀ q, q ∈ remaining ->
             q ∈ manifest_paths scenario_files
             ∨ ∃ mv, mv ∈ [tpl_move] ∧ at_or_below (to mv) q.
Proof.
  split; [reflexivity|].
  apply (reconcile_files "/dest" (manifest_paths scenario_files) [tpl_move]
           scenario_destination scenario_result ["a.js"; "extra.md"]).
  - reflexivity.
  - vm_compute. reflexivity.
Defined.

(** C2 as stated fails on the same scenario: run again, the first loop
    finds [src/tpl.txt] to be extra, and the move no longer finds
    [tpl.txt]. *)
Lemma reconcile_again_removes_and_throws :
  ¬ (∀ destination paths moves fs fs1 extra,
        wf fs ->
        reconcile destination paths moves fs = Ok (fs1, extra) ->
        ∃ remaining,
          traverseDir fs1 destination true "" = Ok remaining
          ∧ extraFiles paths remaining = []
          ∧ reconcile destination paths moves fs1 = Ok (fs1, [])).
Proof.
  intros Hclaim.
  destruct (Hclaim "/dest" (manifest_paths scenario_files) [tpl_move]
              scenario_destination scenario_result ["a.js"; "extra.md"]
              eq_refl scenario_run) as (remaining & _ & _ & Hagain).
  vm_compute in Hagain. discriminate Hagain.
Qed.

Lemma reconcile_again_without_moves_witness :
  wf scenario_destination
  ∧ ∃ remaining,
      traverseDir plain_result "/dest" true "" = Ok remaining
      ∧ extraFiles (manifest_paths plain_files) remaining = []
      ∧ reconcile "/dest" (manifest_paths plain_files) [] plain_result
        = Ok (plain_result, []).
Proof.
  split; [reflexivity|].
  apply (reconcile_again_without_moves "/dest" (manifest_paths plain_files)
           scenario_destination plain_result ["a.js"; "tpl.txt"; "extra.md"]).
  - reflexivity.
  - vm_compute. reflexivity.
Defined.

Lemma two_level_children_ok : two_level two_level_children.
Proof.
  split; [done|].
  repeat constructor; eexists; (split; [reflexivity|]); (split; [done|]);
    repeat constructor; by eexists.
Qed.

Lemma first_choice_picks_offered : picks_offered first_choice.
Proof. intros n [msg [|c cs]] H; [done|]. left. Qed.

Lemma locate_two_levels_witness :
  two_level two_level_children
  ∧ picks_offered first_choice
  ∧ locate first_choice two_level_recipes (split_on comma "ts,vue")
      (specs two_level_recipes) nav0
    = Ok ([Plain "ts/vue.ts"; Plain "README.md"],
          {| useOption := true; counter := 2; asked := [] |})
  ∧ ∃ leaf q0 q1,
      locate first_choice two_level_recipes (split_on comma "py,vue")
        (specs two_level_recipes) nav0
      = Ok (leaf ++ common two_level_recipes,
            {| useOption := false; counter := 2; asked := [q0; q1] |}).
Proof.
  split; [exact two_level_children_ok|].
  split; [exact first_choice_picks_offered|]. split.
  - destruct (locate_two_levels first_choice two_level_recipes "ts,vue"
                two_level_children eq_refl two_level_children_ok
                (le_n 2)) as [Hvalid _].
    assert (Hts : "ts" ∈ map fst two_level_children) by (right; left).
    assert (Hvue : "vue" ∈ map fst [("react", Leaf [Plain "ts/react.ts"]);
                                     ("vue", Leaf [Plain "ts/vue.ts"])])
      by (right; left).
    destruct (Hvalid "ts" "vue" _ eq_refl Hts eq_refl eq_refl Hvue)
      as (leaf & Hleaf & Hloc).
    injection Hleaf as <-. exact Hloc.
  - destruct (locate_two_levels first_choice two_level_recipes "py,vue"
                two_level_children eq_refl two_level_children_ok
                (le_n 2)) as [_ Hinvalid].
    assert (Hpy : ∀ token0, split_on comma "py,vue" !! 0 = Some token0 ->
                            token0 ∉ map fst two_level_children).
    { intros token0 [= <-] Hin.
      repeat (apply elem_of_cons in Hin as [Hin|Hin]; [discriminate Hin|]).
      by apply elem_of_nil in Hin. }
    destruct (Hinvalid Hpy first_choice_picks_offered)
      as (p0 & p1 & inner & leaf & _ & _ & _ & _ & Hloc).
    by eexists leaf, _, _.
Defined.

Lemma force_copies_every_file_witness :
  wf merge_fs
  ∧ copyTempIntoDestination overwrite_b ["w"] ["tmp"; "box"] ["w"; "b"]
      {| force := true |} merge_fs = Ok (merge_forced, [])
  ∧ lookup_path ["w"; "b"; "a.txt"] merge_fs = Some (File "old")
  ∧ lookup_path ["w"; "b"; "a.txt"] merge_forced = Some (File "new").
Proof.
  split; [reflexivity|]. split; [reflexivity|]. split; [reflexivity|].
  destruct (force_copies_every_file overwrite_b ["w"] ["tmp"; "box"] ["w"; "b"]
              merge_fs merge_forced [] eq_refl (conj eq_refl eq_refl)
              eq_refl) as (_ & _ & _ & Hfile).
  apply (Hfile "a.txt" "new" "old"); reflexivity.
Defined.

(** C7 fails where the destination is the entry [b] of the working
    directory and holds an entry [b] of its own: the user declines [a.txt]
    and agrees to [b]; [removeSync("b")] then removes the destination with
    all it holds, and [a.txt] is gone when the call returns. *)
Theorem declined_entry_lost_with_destination :
  (∀ n, overwrite_b n "a.txt" = false)
  ∧ lookup_path ["w"; "b"; "a.txt"] merge_fs = Some (File "old")
  ∧ lookup_path ["tmp"; "box"; "a.txt"] merge_fs = Some (File "new")
  ∧ ∃ fs',
      copyTempIntoDestination overwrite_b ["w"] ["tmp"; "box"] ["w"; "b"]
        {| force := false |} merge_fs = Ok (fs', ["a.txt"; "b"])
      ∧ lookup_path ["w"; "b"; "a.txt"] fs' = None.
Proof.
  split; [done|]. split; [reflexivity|]. split; [reflexivity|].
  eexists. split; reflexivity.
Qed.

(** * Further properties *)

(** ** [traverseDir] *)

Lemma NoDup_files_of n : wf n -> NoDup (files_of n).
Proof.
  induction n as [c|es IH] using node_ind'; intros Hwf.
  - apply NoDup_singleton.
  - apply wf_Dir in Hwf as [Hnd Hall]. cbn [files_of].
    induction es as [|[name child] rest IHrest]; [constructor|].
    apply Forall_cons_1 in IH as [IHc IHr].
    apply Forall_cons_1 in Hall as [[_ Hwfc] Hall].
    simpl in Hnd. apply NoDup_cons in Hnd as [Hname Hnd].
    cbn [flat_map fst snd]. apply NoDup_app. split; [|split].
    + change (map (cons name)) with (fmap (M:=list) (cons name)).
      apply (NoDup_fmap_2 _). by apply IHc.
    + intros segs Hin Hin'.
      change (map (cons name)) with (fmap (M:=list) (cons name)) in Hin.
      apply list_elem_of_fmap in Hin as (rest' & -> & _).
      apply list_elem_of_In, in_flat_map in Hin' as ([n' ch'] & Hin' & Hs).
      apply in_map_iff in Hs as (r & [= -> _] & _).
      apply Hname. apply list_elem_of_fmap. exists (name, ch').
      split; [done|]. by apply list_elem_of_In.
    + by apply IHrest.
Qed.

(** X1: on a directory [traverseDir] lists exactly the files below it,
    each once, as the names that lead to it joined by separators; a
    directory is never listed. *)
Theorem traverseDir_lists_the_files
    (es : entries) (dir : string) (Hwf : wf (Dir es)) :
  ∃ files,
    traverseDir (Dir es) dir true "" = Ok files
    ∧ NoDup files
    ∧ (∀ q, q ∈ files <->
            ∃ segs c, q = join_segs segs
                      ∧ lookup_path segs (Dir es) = Some (File c))
    ∧ (∀ q, q ∈ files ->
            ∃ segs c, resolve q = Some segs
                      ∧ lookup_path segs (Dir es) = Some (File c)).
Proof.
  exists (traverse (Dir es) dir true ""). split; [done|]. split; [|split].
  - rewrite traverse_join_segs by done.
    change (map join_segs) with (fmap (M:=list) join_segs).
    apply NoDup_fmap_2_strong; [|by apply NoDup_files_of].
    intros a b Ha Hb Heq.
    pose proof (resolve_join_segs _ (files_of_valid _ Hwf _ Ha)) as Hra.
    pose proof (resolve_join_segs _ (files_of_valid _ Hwf _ Hb)) as Hrb.
    congruence.
  - intros q. rewrite elem_of_traverse by done. split.
    + intros (segs & c & -> & _ & Hc). by exists segs, c.
    + intros (segs & c & -> & Hc). exists segs, c. split; [done|].
      split; [|done]. apply resolve_join_segs.
      eapply files_of_valid; [done|]. apply files_of_lookup; eauto.
  - intros q (segs & c & _ & Hr & Hc)%elem_of_traverse; [|done].
    by exists segs, c.
Qed.

Lemma traverse_files_of_abs n :
  ∀ dir relativeDir,
    match n with
    | File _ => [dir]
    | Dir _ => traverse n dir false relativeDir
    end
    = map (fun segs => fold_left path_join segs dir) (files_of n).
Proof.
  induction n as [c|es IH] using node_ind'; intros dir rel; [done|].
  cbn [traverse files_of].
  induction es as [|[name child] rest IHrest]; [done|].
  apply Forall_cons_1 in IH as [IHc IHr]. specialize (IHrest IHr).
  cbn [flat_map fst snd]. rewrite IHrest, map_app. f_equal.
  simpl in IHc. rewrite map_map. cbn [fold_left].
  rewrite <- (IHc (path_join dir name) "").
  by destruct child.
Qed.

Lemma join_segs_app a b :
  a ≠ [] -> b ≠ [] ->
  join_segs (a ++ b) = join_segs a +:+ "/" +:+ join_segs b.
Proof.
  intros Ha Hb. induction a as [|x [|y a] IH]; [done| |].
  - destruct b; [done|]. reflexivity.
  - change ((x :: y :: a) ++ b) with (x :: (y :: a) ++ b).
    change ((y :: a) ++ b) with (y :: (a ++ b)) at 1.
    rewrite join_segs_cons. change (y :: a ++ b) with ((y :: a) ++ b).
    rewrite IH by done. by rewrite join_segs_cons, !append_assoc.
Qed.

Lemma last_char_None s : last_char s = None -> s = "".
Proof.
  induction s as [|c s IH]; [done|]. simpl. destruct s; [done|].
  intros H. by apply IH in H.
Qed.

(** [path.normalize] on an absolute path whose segments are names, after
    separators that may be doubled at the front. *)
Lemma normalize_abs lead segs :
  Forall (fun s => s = "") lead ->
  segs ≠ [] -> Forall (fun s => valid_nameb s = true) segs ->
  normalize ("/" +:+ join_segs (lead ++ segs)) = abs_path segs.
Proof.
  intros Hlead Hne Hvalid.
  assert (Hne' : lead ++ segs ≠ []) by (by destruct lead, segs).
  assert (Hns : Forall (fun s => has_slash s = false) (lead ++ segs)).
  { apply Forall_app. split; [|by apply valid_no_slash].
    eapply Forall_impl; [exact Hlead|]. by intros s ->. }
  assert (Hnorm : ∀ res, normalizeString false res (lead ++ segs)
                         = rev res ++ segs).
  { intros res. induction Hlead as [|s lead -> _ IH]; simpl.
    - by apply normalizeString_valid.
    - apply IH; [by destruct lead, segs|].
      by apply Forall_cons_1 in Hns as [_ ?]. }
  assert (Hlast : is_slash (last_char (join_segs (lead ++ segs))) = false
                  ∧ join_segs (lead ++ segs) ≠ "").
  { destruct (exists_last Hne) as (front & name & ->).
    assert (Hname : valid_nameb name = true).
    { apply Forall_app in Hvalid as [_ Hn]. by apply Forall_cons_1 in Hn as [? _]. }
    pose proof (valid_nonempty _ Hname) as Hnn.
    pose proof (last_char_join_segs (lead ++ front) name Hnn) as Hlc.
    rewrite <- app_assoc in Hlc. split.
    - rewrite Hlc. destruct (is_slash (last_char name)) eqn:E; [|done].
      apply last_char_slash in E. apply valid_nameb_inv in Hname. naive_solver.
    - intros Hempty. rewrite Hempty in Hlc. symmetry in Hlc.
      by apply last_char_None in Hlc. }
  destruct Hlast as [Hlast Hjne].
  unfold normalize. rewrite append_cons, append_nil.
  cbn [first_char is_slash]. change (Ascii.eqb "/" slash) with true.
  assert (Hlast' : is_slash (last_char (String "/" (join_segs (lead ++ segs))))
                   = false).
  { simpl. destruct (join_segs (lead ++ segs)); [done | exact Hlast]. }
  rewrite Hlast'. cbn [negb split_on]. change (Ascii.eqb "/" slash) with true.
  cbn iota. rewrite split_on_join_segs by done.
  change ("" :: lead ++ segs) with (("" :: lead) ++ segs).
  cbn [app normalizeString String.eqb orb]. rewrite Hnorm. simpl rev. simpl app.
  unfold abs_path.
  destruct (join_segs segs) eqn:Hj; [|by rewrite append_cons, append_nil].
  destruct segs as [|a rest]; [done|].
  apply Forall_cons_1 in Hvalid as [Ha%valid_nonempty _].
  by apply (join_segs_nonempty a rest) in Ha.
Qed.

Lemma path_join_abs pre segs :
  Forall (fun s => valid_nameb s = true) pre ->
  segs ≠ [] -> Forall (fun s => valid_nameb s = true) segs ->
  path_join (abs_path pre) (join_segs segs) = abs_path (pre ++ segs).
Proof.
  intros Hpre Hne Hsegs.
  assert (Hj : join_segs segs ≠ "").
  { destruct segs as [|a rest]; [done|].
    apply Forall_cons_1 in Hsegs as [Ha%valid_nonempty _].
    by apply join_segs_nonempty. }
  assert (Hstep : path_join (abs_path pre) (join_segs segs)
                  = normalize ("/" +:+ (join_segs pre +:+ "/" +:+ join_segs segs))).
  { change (abs_path pre) with (String "/" (join_segs pre)).
    by destruct (join_segs segs). }
  rewrite Hstep.
  destruct pre as [|p pre].
  - change (join_segs [] +:+ "/" +:+ join_segs segs)
      with ("" +:+ "/" +:+ join_segs segs).
    replace ("" +:+ "/" +:+ join_segs segs) with (join_segs ([""] ++ segs)).
    + apply normalize_abs; [by repeat constructor|done..].
    + destruct segs; [done|]. reflexivity.
  - rewrite <- join_segs_app by done.
    apply (normalize_abs [] ((p :: pre) ++ segs)); [constructor|done|].
    by apply Forall_app.
Qed.

Lemma fold_path_join_abs pre segs :
  Forall (fun s => valid_nameb s = true) pre ->
  Forall (fun s => valid_nameb s = true) segs ->
  fold_left path_join segs (abs_path pre) = abs_path (pre ++ segs).
Proof.
  intros Hpre Hsegs. revert pre Hpre.
  induction Hsegs as [|s segs Hs _ IH]; intros pre Hpre; cbn [fold_left].
  - by rewrite app_nil_r.
  - pose proof (path_join_abs pre [s] Hpre) as Hs'.
    change (join_segs [s]) with s in Hs'.
    rewrite Hs' by (done || by apply Forall_singleton).
    rewrite IH.
    + by rewrite <- app_assoc.
    + apply Forall_app. split; [done|]. by apply Forall_singleton.
Qed.

(** X2: asked for absolute paths, [traverseDir] returns the relative paths
    joined onto the directory it was given. *)
Theorem traverseDir_absolute
    (es : entries) (pre : list string) (Hwf : wf (Dir es))
    (Hpre : Forall (fun s => valid_nameb s = true) pre) :
  ∃ files,
    traverseDir (Dir es) (abs_path pre) true "" = Ok files
    ∧ traverseDir (Dir es) (abs_path pre) false ""
      = Ok (map (path_join (abs_path pre)) files).
Proof.
  exists (traverse (Dir es) (abs_path pre) true ""). split; [done|].
  unfold traverseDir. f_equal.
  rewrite traverse_join_segs by done.
  rewrite (traverse_files_of_abs (Dir es) (abs_path pre) ""), map_map.
  apply map_ext_in. intros segs Hin%list_elem_of_In.
  pose proof (files_of_valid _ Hwf _ Hin) as Hvalid.
  rewrite fold_path_join_abs by done.
  rewrite path_join_abs; [done..| |done].
  apply elem_of_files_of_Dir in Hin as (name & child & rest & -> & _). done.
Qed.

(** ** [removeEmptyDirs] *)

(** X3: a second [removeEmptyDirs] changes nothing, whether the directory
    is the root of the call or not. *)
Theorem removeEmptyDirs_idempotent (dir : node) (isRoot : bool) :
  removeEmptyDirs dir isRoot ≫= (fun dir' => removeEmptyDirs dir' isRoot)
  = removeEmptyDirs dir isRoot.
Proof.
  destruct (removeEmptyDirs dir isRoot) as [dir'|] eqn:Hrm; [|done]. simpl.
  destruct isRoot.
  - by eapply removeEmptyDirs_idem.
  - by eapply removeEmptyDirs_idem_inner.
Qed.

Lemma elem_of_names_visited name files :
  name ∈ names (visited files) -> name ∈ names files.
Proof.
  induction files as [|[n ch] rest IH]; [done|]. rewrite visited_cons.
  destruct (removeEmptyDirs ch false); simpl.
  - intros [->|H]%elem_of_cons; [left | right; auto].
  - intros H. right. auto.
Qed.

Lemma wf_removeEmptyDirs n :
  ∀ isRoot n', wf n -> removeEmptyDirs n isRoot = Some n' -> wf n'.
Proof.
  induction n as [c|files IH] using node_ind'; intros isRoot n' Hwf.
  - by intros [= <-].
  - assert (Hv : wf (Dir (visited files))).
    { apply wf_Dir in Hwf as [Hnd Hall]. apply wf_Dir.
      induction files as [|[name child] rest IHrest]; [done|].
      apply Forall_cons_1 in IH as [IHc IHr].
      apply Forall_cons_1 in Hall as [[Hname Hwfc] Hall].
      simpl in Hnd. apply NoDup_cons in Hnd as [Hn Hnd].
      destruct (IHrest IHr Hnd Hall) as [Hnd' Hall'].
      rewrite visited_cons.
      destruct (removeEmptyDirs child false) as [child'|] eqn:Hc; [|done].
      split.
      - simpl. apply NoDup_cons. split; [|done].
        intros Hin. by apply elem_of_names_visited in Hin.
      - apply Forall_cons. split; [|done]. split; [done|].
        by eapply (IHc false). }
    rewrite removeEmptyDirs_Dir.
    destruct (visited files) as [|e0 rest0] eqn:E.
    + destruct isRoot; by intros [= <-].
    + by intros [= <-].
Qed.

(** A file found afterwards was there before. *)
Lemma removeEmptyDirs_file_back n :
  ∀ isRoot n' p c,
    wf n -> removeEmptyDirs n isRoot = Some n' ->
    lookup_path p n' = Some (File c) -> lookup_path p n = Some (File c).
Proof.
  induction n as [c0|files IH] using node_ind'; intros isRoot n' p c Hwf.
  - by intros [= <-].
  - intros Hrm Hlk.
    assert (Hn' : n' = Dir (visited files)).
    { rewrite removeEmptyDirs_Dir in Hrm.
      destruct (visited files), isRoot; congruence. }
    subst n'. destruct p as [|name p]; [done|]. cbn [lookup_path] in *.
    destruct (get_entry name (visited files)) as [c'|] eqn:Hg; [|done].
    apply get_entry_visited in Hg as (child & Hin & Hc).
    apply wf_Dir in Hwf as [Hnd Hall]. rewrite Forall_forall in IH, Hall.
    apply list_elem_of_In in Hin.
    rewrite (get_entry_NoDup _ _ _ Hnd Hin).
    apply (IH _ Hin false c' p c); [|done..]. by destruct (Hall _ Hin).
Qed.

(** A tree without an empty directory holds a file. *)
Lemma no_empty_dir_has_file n :
  (∀ p es, lookup_path p n = Some (Dir es) -> es ≠ []) ->
  ∃ q c, lookup_path q n = Some (File c).
Proof.
  induction n as [c|es IH] using node_ind'; intros Hfull.
  - by exists [], c.
  - destruct es as [|[name child] rest]; [by destruct (Hfull [] [] eq_refl)|].
    apply Forall_cons_1 in IH as [IHc _].
    destruct IHc as (q & c & Hq).
    + intros p es' Hp. apply (Hfull (name :: p)). simpl.
      by rewrite String.eqb_refl.
    + exists (name :: q), c. simpl. by rewrite String.eqb_refl.
Qed.

(** X4: what [removeEmptyDirs] keeps: below the root an entry is there
    afterwards exactly when a file lies at or below it; the files keep
    their content and the tree stays well formed. *)
Theorem removeEmptyDirs_keeps_what_holds_a_file
    (dir dir' : node) (Hwf : wf dir)
    (Hrun : removeEmptyDirs dir true = Some dir') :
  wf dir'
  ∧ (∀ p c, lookup_path p dir' = Some (File c) <->
            lookup_path p dir = Some (File c))
  ∧ (∀ p, p ≠ [] ->
          is_Some (lookup_path p dir') <->
          ∃ q c, lookup_path (p ++ q) dir = Some (File c)).
Proof.
  assert (Hfiles : ∀ p c, lookup_path p dir' = Some (File c) <->
                          lookup_path p dir = Some (File c)).
  { intros p c. split; [by eapply removeEmptyDirs_file_back|].
    intros Hlk.
    destruct (removeEmptyDirs_keeps_file dir true p c Hlk) as (n' & Hn' & Hl').
    congruence. }
  split; [by eapply wf_removeEmptyDirs|]. split; [done|].
  intros p Hp. split.
  - intros [n' Hn'].
    destruct (no_empty_dir_has_file n') as (q & c & Hq).
    + intros r es Hr.
      assert (Hpr : lookup_path (p ++ r) dir' = Some (Dir es)).
      { by rewrite lookup_path_app, Hn'. }
      destruct dir as [c0|files].
      * injection Hrun as <-. by destruct p.
      * rewrite removeEmptyDirs_root in Hrun. injection Hrun as <-.
        destruct p as [|name p]; [done|]. cbn [app lookup_path] in Hpr.
        destruct (get_entry name (visited files)) as [c'|] eqn:Hg; [|done].
        apply get_entry_visited in Hg as (child & _ & Hc).
        by eapply removeEmptyDirs_no_empty.
    + exists q, c. apply Hfiles. by rewrite lookup_path_app, Hn'.
  - intros (q & c & Hq). apply Hfiles in Hq.
    rewrite lookup_path_app in Hq.
    destruct (lookup_path p dir'); [by eexists | done].
Qed.

Lemma visited_id files :
  (∀ e, e ∈ files -> removeEmptyDirs e.2 false = Some e.2) ->
  visited files = files.
Proof.
  induction files as [|[name child] rest IH]; intros Hall; [done|].
  rewrite visited_cons.
  assert (Hc : removeEmptyDirs child false = Some child).
  { apply (Hall (name, child)). by left. }
  rewrite Hc, IH; [done|]. intros e He. apply Hall. by right.
Qed.

Lemma removeEmptyDirs_nothing_to_do n :
  wf n ->
  (∀ p es, lookup_path p n = Some (Dir es) -> es ≠ []) ->
  removeEmptyDirs n false = Some n.
Proof.
  induction n as [c|files IH] using node_ind'; intros Hwf Hfull; [done|].
  apply wf_Dir in Hwf as [Hnd Hall]. rewrite Forall_forall in IH, Hall.
  rewrite removeEmptyDirs_Dir, visited_id.
  - destruct files; [by destruct (Hfull [] [] eq_refl) | done].
  - intros [name child] Hin. apply (IH _ Hin); [by destruct (Hall _ Hin)|].
    intros p es Hp. apply (Hfull (name :: p)). simpl.
    by rewrite (get_entry_NoDup _ _ _ Hnd Hin).
Qed.

(** X5: [removeEmptyDirs] leaves a directory exactly as it is if and only
    if no directory below it is empty. *)
Theorem removeEmptyDirs_fixed_point (files : entries) (Hwf : wf (Dir files)) :
  removeEmptyDirs (Dir files) true = Some (Dir files) <->
  ∀ p es, p ≠ [] -> lookup_path p (Dir files) = Some (Dir es) -> es ≠ [].
Proof.
  split.
  - intros Hfix [|name p] es Hp Hlk; [done|].
    rewrite removeEmptyDirs_root in Hfix.
    assert (Hv : visited files = files) by congruence.
    cbn [lookup_path] in Hlk. rewrite <- Hv in Hlk.
    destruct (get_entry name (visited files)) as [c'|] eqn:Hg; [|done].
    apply get_entry_visited in Hg as (child & _ & Hc).
    by eapply removeEmptyDirs_no_empty.
  - intros Hfull. rewrite removeEmptyDirs_root, visited_id; [done|].
    pose proof Hwf as [Hnd Hall]%wf_Dir. rewrite Forall_forall in Hall.
    intros [name child] Hin. apply removeEmptyDirs_nothing_to_do.
    + by destruct (Hall _ Hin).
    + intros p es Hp. apply (Hfull (name :: p)); [done|]. simpl.
      by rewrite (get_entry_NoDup _ _ _ Hnd Hin).
Qed.

(** ** The loop that locates the recipe *)

Section scope_induction.

Variable P : scope -> Prop.
Hypothesis P_Leaf : forall files, P (Leaf files).
Hypothesis P_Branch :
  forall children, Forall (fun e => P e.2) children -> P (Branch children).

Fixpoint scope_ind' (sc : scope) : P sc :=
  match sc with
  | Leaf files => P_Leaf files
  | Branch children =>
      P_Branch children
        ((fix go (children : list (string * scope))
            : Forall (fun e => P e.2) children :=
            match children with
            | [] => List.Forall_nil _
            | (key, child) :: rest =>
                @List.Forall_cons _ (fun e => P e.2) (key, child) rest
                  (scope_ind' child) (go rest)
            end) children)
  end.

End scope_induction.

Lemma get_child_Some choice children child :
  get_child choice children = Some child ->
  (choice, child) ∈ children ∧ choice ∈ map fst children.
Proof.
  unfold get_child. induction children as [|[key c] rest IH]; simpl; [done|].
  case_eqb key choice.
  - intros [= ->]. subst. split; left.
  - intros H. destruct (IH H). split; by right.
Qed.

Lemma prompt_choice_cases user optionArr msg choices st choice st1 :
  prompt_choice user optionArr msg choices st = (choice, st1) ->
  counter st1 = S (counter st)
  ∧ ((useOption st = true ∧ useOption st1 = true ∧ asked st1 = asked st
      ∧ optionArr !! counter st = Some choice ∧ choice ∈ choices)
     ∨ (useOption st1 = false
        ∧ asked st1 = asked st ++ [{| q_message := msg; q_choices := choices |}]
        ∧ choice = user (length (asked st))
                     {| q_message := msg; q_choices := choices |})).
Proof.
  unfold prompt_choice.
  destruct (useOption st) eqn:Hu;
    [destruct (optionArr !! counter st) as [token|] eqn:Ht;
     [destruct (bool_decide (token ∈ choices)) eqn:Hin|]|];
    intros [= <- <-]; simpl; (split; [done|]);
    first [by right | left; by apply bool_decide_eq_true in Hin].
Qed.

Lemma prompt_choice_ext user optionArr optionArr' msg choices st :
  (useOption st = true -> optionArr !! counter st = optionArr' !! counter st) ->
  prompt_choice user optionArr msg choices st
  = prompt_choice user optionArr' msg choices st.
Proof.
  intros H. unfold prompt_choice. destruct (useOption st); [|done].
  by rewrite H.
Qed.

(** What one run of the loop does to its state. *)
Lemma locate_trace user rs optionArr sc :
  ∀ st files st',
    locate user rs optionArr sc st = Ok (files, st') ->
    ∃ new,
      asked st' = asked st ++ new
      ∧ counter st ≤ counter st'
      ∧ length new ≤ counter st' - counter st
      ∧ (counter st < counter st' -> counter st' ≤ length (prompts rs))
      ∧ (useOption st = false ->
         length new = counter st' - counter st ∧ useOption st' = false)
      ∧ (useOption st' = true -> new = [] ∧ useOption st = true)
      ∧ (useOption st = true -> new = [] -> useOption st' = true)
      ∧ (∀ j q, new !! j = Some q ->
           ∃ p, prompts rs !! (counter st' - length new + j) = Some p
                ∧ q_message q = message p)
      ∧ (∀ i, counter st ≤ i -> i < counter st' - length new ->
              is_Some (optionArr !! i)).
Proof.
  induction sc as [leaf|children IH] using scope_ind'; intros st files st'.
  - intros [= <- <-]. exists []. rewrite app_nil_r. simpl.
    repeat split; try done; try lia.
  - destruct (prompts rs !! counter st) as [p|] eqn:Hp; [|by simpl; rewrite Hp].
    rewrite (locate_Branch _ _ _ _ _ _ Hp).
    destruct (prompt_choice user optionArr (message p) (map fst children) st)
      as [choice st1] eqn:Hpc.
    destruct (get_child choice children) as [child|] eqn:Hg; [|done].
    intros Hrun.
    apply get_child_Some in Hg as [Hin _].
    rewrite Forall_forall in IH.
    destruct (IH _ Hin st1 files st' Hrun)
      as (new1 & Hasked & Hle & Hlen & Hbound & Hfalse & Htrue & Hkeep
          & Hmsg & Htok).
    apply prompt_choice_cases in Hpc as [Hc [(Hu & Hu1 & Ha & Ho & Hm)|(Hu1 & Ha & _)]].
    + exists new1. rewrite Hasked, Ha.
      assert (Hcp : S (counter st) ≤ length (prompts rs)).
      { apply lookup_lt_Some in Hp. lia. }
      split_and!; [done | lia | lia | | | | | done |].
      * intros _. destruct (decide (counter st1 < counter st')); [auto | lia].
      * congruence.
      * intros Hu'. by destruct (Htrue Hu').
      * auto.
      * intros i Hi1 Hi2. destruct (decide (i = counter st)) as [->|Hne].
        -- by rewrite Ho.
        -- apply Htok; lia.
    + destruct (Hfalse Hu1) as [Hlen1 Hu'].
      exists ({| q_message := message p; q_choices := map fst children |} :: new1).
      rewrite Hasked, Ha, <- app_assoc. simpl.
      assert (Hcp : S (counter st) ≤ length (prompts rs)).
      { apply lookup_lt_Some in Hp. lia. }
      split_and!; [done | lia | lia | | | | done | |].
      * intros _. destruct (decide (counter st1 < counter st')); [auto | lia].
      * intros _. split; [lia | done].
      * congruence.
      * intros [|j] q Hq.
        -- injection Hq as <-. exists p. split; [|done].
           replace (counter st' - S (length new1) + 0) with (counter st) by lia.
           done.
        -- destruct (Hmsg j q Hq) as (p' & Hp' & Hm'). exists p'. split; [|done].
           replace (counter st' - S (length new1) + S j)
             with (counter st' - length new1 + j) by lia.
           done.
      * intros i ? ?. lia.
Qed.

(** With valid tokens from the level it is at, the loop goes down to the
    leaf they name without a question. *)
Lemma locate_follow user rs optionArr leaf :
  ∀ sc st,
    length optionArr ≤ length (prompts rs) ->
    useOption st = true ->
    follow (drop (counter st) optionArr) sc = Some leaf ->
    ∃ st', locate user rs optionArr sc st = Ok (leaf ++ common rs, st')
           ∧ asked st' = asked st ∧ useOption st' = true
           ∧ counter st' ≤ counter st `max` length optionArr.
Proof.
  intros sc st Hprompts. revert st.
  induction sc as [files|children IH] using scope_ind'; intros st Hu.
  - intros [= ->]. exists st. simpl. split_and!; [done..|lia].
  - cbn [follow].
    destruct (drop (counter st) optionArr) as [|token rest] eqn:Hd; [done|].
    rewrite select_get_child.
    destruct (get_child token children) as [child|] eqn:Hg; [|done].
    intros Hf.
    assert (Ht : optionArr !! counter st = Some token).
    { rewrite <- (Nat.add_0_r (counter st)), <- lookup_drop, Hd. done. }
    assert (Hrest : drop (S (counter st)) optionArr = rest).
    { replace (S (counter st)) with (counter st + 1) by lia.
      by rewrite <- drop_drop, Hd. }
    pose proof (lookup_lt_Some _ _ _ Ht) as Hlt.
    destruct (lookup_lt_is_Some_2 (prompts rs) (counter st)) as [p Hp]; [lia|].
    rewrite (locate_Branch _ _ _ _ _ _ Hp).
    pose proof Hg as [Hin Hmem]%get_child_Some.
    rewrite (prompt_choice_preset _ _ _ _ _ _ Hu Ht Hmem), Hg.
    rewrite Forall_forall in IH.
    destruct (IH _ Hin
                {| useOption := true; counter := S (counter st);
                   asked := asked st |} eq_refl)
      as (st' & Hrun & Ha & Hu' & Hc).
    { simpl. by rewrite Hrest. }
    exists st'. simpl in *. split_and!; [done..|lia].
Qed.

(** X6: when the tokens of the option name a way down to a leaf and the
    recipe has a message for each of them, the leaf is found without a
    question, whatever the depth; its files come first, the common ones
    after. *)
Theorem locate_presets_never_ask
    (user : chooser) (rs : recipesT) (optionArr : list string)
    (leaf : list FileSpec)
    (Hprompts : length optionArr ≤ length (prompts rs))
    (Hfollow : follow optionArr (specs rs) = Some leaf) :
  ∃ st', locate user rs optionArr (specs rs) nav0 = Ok (leaf ++ common rs, st')
         ∧ asked st' = [] ∧ useOption st' = true
         ∧ counter st' ≤ length optionArr.
Proof.
  destruct (locate_follow user rs optionArr leaf (specs rs) nav0 Hprompts eq_refl)
    as (st' & Hrun & Ha & Hu & Hc).
  { by rewrite drop_0. }
  exists st'. simpl in *. split_and!; [done..|lia].
Qed.

(** X7: once a token was not valid the loop asks at every level that
    follows and never looks at the tokens again: the run is the same for
    any other tokens, and each level adds one question. *)
Theorem locate_keeps_asking
    (user : chooser) (rs : recipesT) (optionArr optionArr' : list string)
    (recipeScope : scope) (st : nav) (Hask : useOption st = false) :
  locate user rs optionArr recipeScope st
  = locate user rs optionArr' recipeScope st
  ∧ ∀ files st',
      locate user rs optionArr recipeScope st = Ok (files, st') ->
      useOption st' = false
      ∧ length (asked st') = length (asked st) + (counter st' - counter st).
Proof.
  split.
  - revert st Hask.
    induction recipeScope as [files|children IH] using scope_ind';
      intros st Hask; [done|].
    destruct (prompts rs !! counter st) as [p|] eqn:Hp; [|by simpl; rewrite Hp].
    rewrite !(locate_Branch _ _ _ _ _ _ Hp).
    rewrite (prompt_choice_ext user optionArr optionArr') by congruence.
    destruct (prompt_choice user optionArr' (message p) (map fst children) st)
      as [choice st1] eqn:Hpc.
    destruct (get_child choice children) as [child|] eqn:Hg; [|done].
    apply get_child_Some in Hg as [Hin _].
    rewrite Forall_forall in IH. apply (IH _ Hin).
    apply prompt_choice_cases in Hpc as [_ [(Hu & _)|(Hu1 & _)]]; congruence.
  - intros files st' Hrun.
    destruct (locate_trace _ _ _ _ _ _ _ Hrun)
      as (new & Hasked & _ & _ & _ & Hfalse & _).
    destruct (Hfalse Hask) as [Hlen Hu]. split; [done|].
    rewrite Hasked, length_app. lia.
Qed.

(** X8: after a run of the loop that starts with an option, the recipe
    has a message for every level passed, also for the levels taken from
    the option; the questions asked are those of the deepest levels, each
    with the message of its level; and the option is still in use exactly
    when nothing was asked. *)
Theorem locate_questions
    (user : chooser) (rs : recipesT) (optionArr : list string)
    (files : list FileSpec) (st' : nav)
    (Hrun : locate user rs optionArr (specs rs) nav0 = Ok (files, st')) :
  counter st' ≤ length (prompts rs)
  ∧ length (asked st') ≤ counter st'
  ∧ (useOption st' = true <-> asked st' = [])
  ∧ (∀ j q, asked st' !! j = Some q ->
       ∃ p, prompts rs !! (counter st' - length (asked st') + j) = Some p
            ∧ q_message q = message p)
  ∧ (∀ i, i < counter st' - length (asked st') -> is_Some (optionArr !! i)).
Proof.
  destruct (locate_trace _ _ _ _ _ _ _ Hrun)
    as (new & Hasked & _ & Hlen & Hbound & _ & Htrue & Hkeep & Hmsg & Htok).
  simpl in *. subst new.
  split; [|split; [|split; [|split]]].
  - destruct (decide (0 < counter st')); [auto | lia].
  - lia.
  - split; [by intros [? _]%Htrue | by intros ?%Hkeep].
  - intros j q Hq. destruct (Hmsg j q Hq) as (p & Hp & Hm). by exists p.
  - intros i Hi. apply Htok; lia.
Qed.

(** X9: a run of the loop reads only the tokens of the levels it passed:
    with tokens that agree on those, among them the same tokens followed
    by more, the run and its result are the same. *)
Theorem locate_ignores_further_tokens
    (user : chooser) (rs : recipesT) (optionArr optionArr' : list string)
    (files : list FileSpec) (st' : nav)
    (Hrun : locate user rs optionArr (specs rs) nav0 = Ok (files, st'))
    (Hsame : take (counter st') optionArr' = take (counter st') optionArr) :
  locate user rs optionArr' (specs rs) nav0 = Ok (files, st').
Proof.
  revert Hrun. generalize nav0 as st. generalize (specs rs) as sc.
  induction sc as [leaf|children IH] using scope_ind'; intros st; [done|].
  destruct (prompts rs !! counter st) as [p|] eqn:Hp; [|by simpl; rewrite Hp].
  rewrite !(locate_Branch _ _ _ _ _ _ Hp).
  destruct (prompt_choice user optionArr (message p) (map fst children) st)
    as [choice st1] eqn:Hpc.
  destruct (get_child choice children) as [child|] eqn:Hg; [|done].
  intros Hrun.
  pose proof Hg as [Hin _]%get_child_Some.
  pose proof (locate_trace _ _ _ _ _ _ _ Hrun) as (_ & _ & Hle & _).
  pose proof Hpc as [Hc _]%prompt_choice_cases.
  rewrite (prompt_choice_ext user optionArr' optionArr), Hpc, Hg.
  - rewrite Forall_forall in IH. by apply (IH _ Hin).
  - intros _.
    rewrite <- (lookup_take_lt optionArr' (counter st')),
            <- (lookup_take_lt optionArr (counter st')) by lia.
    by rewrite Hsame.
Qed.

(** ** Pruning and moving *)

Lemma lookup_below_File p r n c v :
  lookup_path p n = Some (File c) -> lookup_path (p ++ r) n = Some v -> r = [].
Proof.
  rewrite lookup_path_app. intros ->. simpl. by destruct r.
Qed.

Lemma removeEmptyDirs_files n isRoot n' :
  wf n -> removeEmptyDirs n isRoot = Some n' ->
  ∀ p c, lookup_path p n' = Some (File c) <-> lookup_path p n = Some (File c).
Proof.
  intros Hwf Hrm p c. split; [by eapply removeEmptyDirs_file_back|].
  intros Hlk.
  destruct (removeEmptyDirs_keeps_file n isRoot p c Hlk) as (n1 & Hn1 & Hl1).
  congruence.
Qed.

Lemma extraFiles_map set (l : list (list string)) :
  extraFiles set (map join_segs l)
  = map join_segs
      (List.filter (fun segs => negb (bool_decide (join_segs segs ∈ set))) l).
Proof.
  unfold extraFiles. induction l as [|segs l IH]; [done|]. simpl.
  destruct (negb (bool_decide (join_segs segs ∈ set))); simpl; by rewrite IH.
Qed.

(** Removing files that are there, each once, goes through. *)
Lemma forEach_removeSync_succeeds segss :
  ∀ fs,
    NoDup segss ->
    (∀ segs, segs ∈ segss ->
       segs ≠ [] ∧ Forall (fun s => valid_nameb s = true) segs
       ∧ ∃ c, lookup_path segs fs = Some (File c)) ->
    ∃ fs', forEach removeSync (map join_segs segss) fs = Ok fs'.
Proof.
  induction segss as [|segs rest IH]; intros fs Hnd Hall.
  { by exists fs. }
  apply NoDup_cons in Hnd as [Hnotin Hnd].
  destruct (Hall segs) as (Hne & Hvalid & c & Hlk); [by left|].
  destruct (remove_at_succeeds segs fs _ Hne Hlk) as [fs1 Hrm].
  destruct (IH fs1 Hnd) as [fs' Hrest].
  - intros segs' Hin. destruct (Hall segs') as (Hne' & Hvalid' & c' & Hlk').
    { by right. }
    split; [done|]. split; [done|]. exists c'.
    apply (lookup_remove_at _ _ _ _ _ Hrm). split; [done|].
    destruct (is_prefix segs segs') eqn:Hpre; [|done].
    apply is_prefix_spec in Hpre as [r ->].
    rewrite (lookup_below_File _ _ _ _ _ Hlk Hlk'), app_nil_r in Hin. done.
  - exists fs'. cbn [map]. apply forEach_cons. exists fs1. split; [|done].
    apply removeSync_Ok. exists segs. split; [|done].
    by apply resolve_join_segs.
Qed.

(** The loop that removes the files not in the recipe goes through on any
    directory, and keeps exactly the files of the recipe. *)
Lemma prune_exact es dir set :
  wf (Dir es) ->
  ∃ fs1,
    forEach removeSync (extraFiles set (traverse (Dir es) dir true "")) (Dir es)
    = Ok fs1
    ∧ wf fs1 ∧ isDirectory fs1 = true
    ∧ ∀ segs c,
        lookup_path segs fs1 = Some (File c) <->
        lookup_path segs (Dir es) = Some (File c) ∧ join_segs segs ∈ set.
Proof.
  intros Hwf.
  assert (Hfile : ∀ x, x ∈ extraFiles set (traverse (Dir es) dir true "") ->
            ∃ segs c, x = join_segs segs ∧ resolve x = Some segs
                      ∧ lookup_path segs (Dir es) = Some (File c) ∧ x ∉ set).
  { intros x [Hx Hset]%elem_of_extraFiles.
    apply elem_of_traverse in Hx as (segs & c & -> & Hres & Hlk); [|done].
    by exists segs, c. }
  destruct (forEach_removeSync_succeeds
              (List.filter (fun segs => negb (bool_decide (join_segs segs ∈ set)))
                 (files_of (Dir es))) (Dir es)) as [fs1 Hrun].
  { apply NoDup_List_filter. by apply NoDup_files_of. }
  { intros segs Hin. apply list_elem_of_In, filter_In in Hin as [Hin _].
    apply list_elem_of_In in Hin.
    split; [|split].
    - intros ->. by apply files_of_lookup in Hin as [c Hc].
    - by eapply files_of_valid.
    - by apply files_of_lookup in Hin. }
  rewrite <- extraFiles_map, <- (traverse_join_segs es dir Hwf) in Hrun.
  exists fs1. split; [done|].
  destruct (forEach_removeSync _ _ _ Hwf Hrun) as (Hwf1 & Hdir & Hfiles).
  split; [done|]. split; [done|].
  intros segs c. rewrite Hfiles. split.
  - intros [Hlk Hrest]. split; [done|].
    destruct (decide (join_segs segs ∈ set)) as [|Hnot]; [done|].
    assert (Hvalid : Forall (fun s => valid_nameb s = true) segs).
    { apply (files_of_valid (Dir es) Hwf), (files_of_lookup _ Hwf). by exists c. }
    assert (Hx : join_segs segs ∈ extraFiles set (traverse (Dir es) dir true "")).
    { apply elem_of_extraFiles. split; [|done].
      apply elem_of_traverse; [done|]. exists segs, c.
      split; [done|]. split; [|done]. by apply resolve_join_segs. }
    specialize (Hrest _ _ Hx (resolve_join_segs _ Hvalid)).
    by rewrite is_prefix_refl in Hrest.
  - intros [Hlk Hin]. split; [done|].
    intros x segs' Hx Hres.
    destruct (Hfile x Hx) as (s & c' & -> & Hres' & Hlk' & Hset).
    assert (s = segs') as -> by congruence.
    destruct (is_prefix segs' segs) eqn:Hpre; [|done].
    apply is_prefix_spec in Hpre as [r ->].
    rewrite (lookup_below_File _ _ _ _ _ Hlk' Hlk), app_nil_r in Hin. done.
Qed.

(** X10: without moves [followBoxRecipe]'s pruning goes through on any
    directory: a file is there afterwards exactly when it was there and
    its path is in the recipe, with its content; the files reported as
    removed are the others, each once. *)
Theorem reconcile_without_moves_prunes_exactly
    (destination : string) (paths : gset string) (es : entries)
    (Hwf : wf (Dir es)) :
  ∃ fs' extra,
    reconcile destination paths [] (Dir es) = Ok (fs', extra)
    ∧ wf fs'
    ∧ (∀ segs c,
         lookup_path segs fs' = Some (File c) <->
         lookup_path segs (Dir es) = Some (File c) ∧ join_segs segs ∈ paths)
    ∧ NoDup extra
    ∧ (∀ q, q ∈ extra <->
            (∃ segs c, q = join_segs segs
                       ∧ lookup_path segs (Dir es) = Some (File c))
            ∧ q ∉ paths).
Proof.
  destruct (prune_exact es destination paths Hwf)
    as (fs1 & Hrun & Hwf1 & Hdir & Hfiles).
  destruct fs1 as [c1|es1]; [done|].
  exists (Dir (visited es1)),
         (extraFiles paths (traverse (Dir es) destination true "")).
  assert (Hrm : removeEmptyDirs (Dir es1) true = Some (Dir (visited es1))).
  { apply removeEmptyDirs_root. }
  split; [|split; [|split; [|split]]].
  - apply reconcile_Ok. exists es, (Dir es1), (Dir es1). by repeat split.
  - by eapply wf_removeEmptyDirs.
  - intros segs c. rewrite (removeEmptyDirs_files _ _ _ Hwf1 Hrm). apply Hfiles.
  - apply NoDup_List_filter. rewrite traverse_join_segs by done.
    apply NoDup_fmap_2_strong; [|by apply NoDup_files_of].
    intros s1 s2 H1 H2 Heq.
    pose proof (resolve_join_segs _ (files_of_valid _ Hwf _ H1)) as R1.
    pose proof (resolve_join_segs _ (files_of_valid _ Hwf _ H2)) as R2.
    congruence.
  - intros q. rewrite elem_of_extraFiles, elem_of_traverse by done. split.
    + intros [(segs & c & -> & _ & Hlk) Hnot]. split; [|done]. by exists segs, c.
    + intros [(segs & c & -> & Hlk) Hnot]. split; [|done]. exists segs, c.
      split; [done|]. split; [|done]. apply resolve_join_segs.
      apply (files_of_valid (Dir es) Hwf), (files_of_lookup _ Hwf). by exists c.
Qed.

Lemma lookup_write_at_File_kept p :
  ∀ n n' v q c,
    write_at p v n = Ok n' ->
    lookup_path q n = Some (File c) -> is_prefix p q = false ->
    lookup_path q n' = Some (File c).
Proof.
  induction p as [|name p IH]; intros n n' v q c; simpl; [done|].
  destruct n as [c0|es]; [done|].
  destruct q as [|a q]; [done|].
  destruct p as [|b p].
  - intros [= <-]. simpl. case_eqb name a; [done|].
    intros Hlk _. by rewrite get_entry_set_ne.
  - destruct (get_entry name es) as [child|] eqn:Hg; [|done].
    destruct (write_at (b :: p) v child) as [child'|e] eqn:Hr; [|done].
    intros [= <-]. cbn [lookup_path is_prefix]. case_eqb name a.
    + subst. rewrite get_entry_set_eq, Hg. simpl. by eapply IH.
    + intros Hlk _. by rewrite get_entry_set_ne.
Qed.

(** A move leaves alone the files that are not at or below its ends. *)
Lemma applyMv_keeps mv fs fs' q c :
  applyMv mv fs = Ok fs' ->
  lookup_path q fs = Some (File c) ->
  (∀ mvFrom mvTo,
     resolve (from mv) = Some mvFrom -> resolve (to mv) = Some mvTo ->
     is_prefix mvFrom q = false ∧ is_prefix mvTo q = false) ->
  lookup_path q fs' = Some (File c).
Proof.
  intros (mvFrom & mvTo & fs1 & Hf & Ht & Hens & Hren)%applyMv_Ok Hlk Haway.
  destruct (Haway _ _ Hf Ht) as [Hpf Hpt].
  apply (lookup_ensureDir_at_File _ _ _ q c Hens) in Hlk.
  apply rename_at_Ok in Hren
    as (src & _ & [[_ ->]|(_ & _ & _ & n1 & Hrm & Hwr)]); [done|].
  eapply lookup_write_at_File_kept; [done| |done].
  by apply (lookup_remove_at _ _ _ _ _ Hrm).
Qed.

Lemma forEach_applyMv_keeps mvs :
  ∀ fs fs' q c,
    forEach applyMv mvs fs = Ok fs' ->
    lookup_path q fs = Some (File c) ->
    (∀ mv mvFrom mvTo,
       mv ∈ mvs ->
       resolve (from mv) = Some mvFrom -> resolve (to mv) = Some mvTo ->
       is_prefix mvFrom q = false ∧ is_prefix mvTo q = false) ->
    lookup_path q fs' = Some (File c).
Proof.
  induction mvs as [|mv mvs IH]; intros fs fs' q c.
  - by intros [= <-].
  - intros (fs1 & H1 & Hrest)%forEach_cons Hlk Haway.
    eapply IH; [done| |].
    + eapply applyMv_keeps; [done..|]. intros f t. apply Haway. by left.
    + intros mv' f t Hin. apply Haway. by right.
Qed.

(** X11: a file of the recipe that is not at or below the [from] or the
    [to] of a move comes through [followBoxRecipe]'s pruning, moving and
    cleaning up where it was, with its content. *)
Theorem reconcile_keeps_files_away_from_moves
    (destination : string) (paths : gset string)
    (moves : list boxConfigRecipeSpecMv) (fs fs' : node) (extra : list string)
    (segs : list string) (c : string)
    (Hwf : wf fs)
    (Hrun : reconcile destination paths moves fs = Ok (fs', extra))
    (Hfile : lookup_path segs fs = Some (File c))
    (Hpath : join_segs segs ∈ paths)
    (Haway : ∀ mv mvFrom mvTo,
       mv ∈ moves ->
       resolve (from mv) = Some mvFrom -> resolve (to mv) = Some mvTo ->
       is_prefix mvFrom segs = false ∧ is_prefix mvTo segs = false) :
  lookup_path segs fs' = Some (File c) ∧ join_segs segs ∉ extra.
Proof.
  apply reconcile_Ok in Hrun as (es & fs1 & fs2 & -> & -> & Hprune & Hmv & Hrm).
  destruct (prune_exact es destination paths Hwf)
    as (fs1' & Hrun & _ & _ & Hfiles).
  assert (fs1' = fs1) as -> by congruence.
  split.
  - destruct (removeEmptyDirs_keeps_file fs2 true segs c) as (n' & Hn' & Hl').
    + eapply forEach_applyMv_keeps; [done| |done]. by apply Hfiles.
    + congruence.
  - by intros [_ Hnot]%elem_of_extraFiles.
Qed.

(** ** [promptOverwrites] and [copyTempIntoDestination] *)

(** X12: [promptOverwrites] asks about every collision once, in the order
    of the list, and returns the names the user agreed to; the tree it
    leaves is the one that removing these names from the working
    directory, in that order, leaves. *)
Theorem promptOverwrites_asks_in_order
    (user : confirmer) (cwd : list string) (contentCollisions : list string)
    (confirms : list string) (fs : node)
    (overwriteContents confirms' : list string) (fs' : node) :
  promptOverwrites user cwd contentCollisions confirms fs
  = Ok (overwriteContents, confirms', fs')
  <-> overwriteContents = agreed user (length confirms) contentCollisions
      ∧ confirms' = (confirms ++ contentCollisions)%list
      ∧ forEach (fun file => remove_at (cwd ++ [file])) overwriteContents fs
        = Ok fs'.
Proof.
  revert confirms fs overwriteContents confirms' fs'.
  induction contentCollisions as [|file rest IH];
    intros confirms fs ow confirms' fs'.
  - simpl. rewrite app_nil_r. split.
    + by intros [= <- <- <-].
    + by intros (-> & -> & [= <-]).
  - cbn [promptOverwrites agreed].
    assert (Hlen : length (confirms ++ [file]) = S (length confirms)).
    { rewrite length_app. simpl. lia. }
    assert (Happ : ((confirms ++ [file]) ++ rest = confirms ++ file :: rest)%list).
    { by rewrite <- app_assoc. }
    destruct (user (length confirms) file).
    + split.
      * intros (fs1 & Hrm & Hk)%bind_Ok.
        destruct (promptOverwrites user cwd rest (confirms ++ [file]) fs1)
          as [[[ow1 c1] fs2]|e] eqn:Hrest; [|done].
        injection Hk as <- <- <-.
        apply IH in Hrest as (-> & -> & Hrun). rewrite Hlen in Hrun |- *.
        rewrite Happ. split; [done|]. split; [done|].
        apply forEach_cons. by exists fs1.
      * intros (-> & -> & (fs1 & Hrm & Hrun)%forEach_cons).
        apply bind_Ok. exists fs1. split; [done|].
        assert (Hrest : promptOverwrites user cwd rest (confirms ++ [file]) fs1
                        = Ok (agreed user (S (length confirms)) rest,
                              ((confirms ++ [file]) ++ rest)%list, fs')).
        { apply IH. by rewrite Hlen. }
        by rewrite Hrest, Happ.
    + rewrite IH, Hlen, Happ. done.
Qed.

Lemma copyTempIntoDestination_Ok user cwd tmpDir destination options fs fs'
    confirms :
  copyTempIntoDestination user cwd tmpDir destination options fs
  = Ok (fs', confirms) ->
  ∃ fs0 et ed shouldCopy fs1,
    ensureDir_at destination fs = Ok fs0
    ∧ lookup_path tmpDir fs0 = Some (Dir et)
    ∧ lookup_path destination fs0 = Some (Dir ed)
    ∧ (force options = true ∧ shouldCopy = names et ∧ confirms = []
       ∧ fs1 = fs0
       ∨ force options = false
         ∧ ∃ overwriteContents,
             promptOverwrites user cwd
               (List.filter (fun filename => includes (names ed) filename)
                  (names et)) [] fs0
             = Ok (overwriteContents, confirms, fs1)
             ∧ shouldCopy
               = (List.filter
                    (fun filename => negb (includes (names ed) filename))
                    (names et) ++ overwriteContents)%list)
    ∧ forEach (fun file => copySync (tmpDir ++ [file]) (destination ++ [file]))
        shouldCopy fs1 = Ok fs'.
Proof.
  unfold copyTempIntoDestination.
  intros (fs0 & H0 & (box & (et & Het & ->)%readdirSync_Ok & H)%bind_Ok)%bind_Ok.
  apply bind_Ok in H as (dc & (ed & Hed & ->)%readdirSync_Ok & H).
  apply bind_Ok in H as ([[shouldCopy c'] fs1] & H1 & H).
  apply bind_Ok in H as (fs2 & H2 & [= <- <-]).
  exists fs0, et, ed, shouldCopy, fs1.
  split; [done|]. split; [done|]. split; [done|]. split; [|done].
  destruct (force options).
  - left. by injection H1 as <- <- <-.
  - right. split; [done|].
    apply bind_Ok in H1 as ([[ow c''] fs1'] & Hprompt & [= <- <- <-]).
    by exists ow.
Qed.

Lemma lookup_before_ensureDir_at p q n n' v :
  ensureDir_at p n = Ok n' -> is_prefix q p = false ->
  lookup_path q n' = Some v -> lookup_path q n = Some v.
Proof.
  intros Hens Hpre Hv.
  destruct (lookup_ensureDir_at_other _ _ _ q Hens Hpre) as [<-|Hn]; [done|].
  pose proof (lookup_ensureDir_at_new _ _ _ q Hens Hn) as Hnew.
  rewrite Hv, Hpre in Hnew. by discriminate Hnew.
Qed.

Lemma set_entry_same name v es :
  get_entry name es = Some v -> set_entry name v es = es.
Proof.
  induction es as [|[n w] rest IH]; simpl; [done|]. case_eqb n name.
  - by intros [= ->].
  - intros H. by rewrite IH.
Qed.

Lemma ensureDir_at_exists p :
  ∀ n es, lookup_path p n = Some (Dir es) -> ensureDir_at p n = Ok n.
Proof.
  induction p as [|name p IH]; intros n es; simpl.
  - by intros [= ->].
  - destruct n as [c|ds]; [done|].
    destruct (get_entry name ds) as [child|] eqn:Hg; [|done]. simpl.
    intros Hlk. rewrite (IH _ _ Hlk). simpl. by rewrite set_entry_same.
Qed.

Lemma elem_of_names name es :
  name ∈ names es <-> ∃ v, get_entry name es = Some v.
Proof.
  induction es as [|[n w] rest IH]; simpl.
  - split; [by intros ?%elem_of_nil | by intros [? ?]].
  - rewrite elem_of_cons, IH. case_eqb n name.
    + split; [by exists w | by left].
    + split; [by intros [?|?] | by right].
Qed.

Lemma lookup_child d name fs es :
  lookup_path d fs = Some (Dir es) ->
  lookup_path (d ++ [name]) fs = get_entry name es.
Proof.
  intros H. rewrite lookup_path_app, H. simpl. by destruct (get_entry name es).
Qed.

Lemma filter_none {A : Type} (f : A -> bool) (l : list A) :
  (∀ x, In x l -> f x = false) ->
  List.filter f l = [] ∧ List.filter (fun x => negb (f x)) l = l.
Proof.
  induction l as [|x l IH]; intros H; [done|]. simpl.
  rewrite (H x) by (by left). simpl.
  destruct IH as [-> ->]; [|done]. intros y Hy. apply H. by right.
Qed.

(** X13: when no name is an entry of both the box and the destination,
    [force] makes no difference: nobody is asked and the same entries are
    copied. *)
Theorem force_matters_only_for_collisions
    (user : confirmer) (cwd tmpDir destination : list string) (fs : node)
    (Hnone : ∀ name, lookup_path (tmpDir ++ [name]) fs ≠ None ->
                     lookup_path (destination ++ [name]) fs = None) :
  copyTempIntoDestination user cwd tmpDir destination {| force := false |} fs
  = copyTempIntoDestination user cwd tmpDir destination {| force := true |} fs.
Proof.
  unfold copyTempIntoDestination.
  destruct (ensureDir_at destination fs) as [fs0|e] eqn:H0; [|done]. simpl.
  destruct (readdirSync tmpDir fs0) as [box|e] eqn:Hbox; [|done]. simpl.
  destruct (readdirSync destination fs0) as [dc|e] eqn:Hdc; [|done]. simpl.
  apply readdirSync_Ok in Hbox as (et & Het & ->).
  apply readdirSync_Ok in Hdc as (ed & Hed & ->).
  destruct (filter_none (fun filename => includes (names ed) filename)
              (names et)) as [E1 E2]; [|rewrite E1, E2; simpl; by rewrite app_nil_r].
  intros name Hbox. apply not_true_iff_false. intros Hdc.
  apply list_elem_of_In, elem_of_names in Hbox as [a Ha].
  apply includes_In, list_elem_of_In, elem_of_names in Hdc as [b Hb].
  rewrite <- (lookup_child _ _ _ _ Het) in Ha.
  rewrite <- (lookup_child _ _ _ _ Hed) in Hb.
  destruct (lookup_path destination fs) as [[c|es]|] eqn:Hd.
  - apply (lookup_ensureDir_at_File _ _ _ destination c H0) in Hd. congruence.
  - rewrite (ensureDir_at_exists _ _ _ Hd) in H0. injection H0 as <-.
    rewrite Hnone in Hb; [done | congruence].
  - assert (Hn : lookup_path (destination ++ [name]) fs = None).
    { by rewrite lookup_path_app, Hd. }
    pose proof (lookup_ensureDir_at_new _ _ _ _ H0 Hn) as Hnew.
    rewrite parent_no_prefix in Hnew. rewrite Hb in Hnew.
    by discriminate Hnew.
Qed.

(** What a copy keeps of a directory it merges into. *)
Lemma copy_node_keeps src :
  wf src ->
  ∀ d r p c,
    copy_node src (Some d) = Ok r ->
    lookup_path p d = Some (File c) -> lookup_path p src = None ->
    lookup_path p r = Some (File c).
Proof.
  induction src as [c0|es IH] using node_ind'; intros Hwf d r p c.
  - destruct p; [done|]. destruct d; [by destruct p | done].
  - destruct d as [cd|ds]; [done|].
    intros (ds' & Hcopy & [= <-])%bind_Ok.
    destruct p as [|name p]; [done|]. cbn [lookup_path].
    destruct (get_entry name ds) as [dchild|] eqn:Hd; [|done].
    intros Hlk Hnone.
    apply wf_Dir in Hwf as [Hnd Hall].
    revert ds dchild Hd Hlk Hcopy.
    induction es as [|[n ch] rest IHrest]; intros ds dchild Hd Hlk.
    { intros [= <-]. by rewrite Hd. }
    apply Forall_cons_1 in IH as [IHch IHr].
    apply Forall_cons_1 in Hall as [[_ Hwfch] Hall].
    simpl in Hnd. apply NoDup_cons in Hnd as [Hn Hnd].
    rewrite copy_entries_cons. intros (ch' & Hch & Hrest)%bind_Ok.
    simpl in Hnone. case_eqb n name.
    + subst n.
      rewrite (copy_entries_other _ _ _ _ _ Hrest Hn), get_entry_set_eq.
      rewrite Hd in Hch. by eapply IHch.
    + eapply (IHrest IHr Hnd Hall Hnone (set_entry n ch' ds)); [|done..].
      by rewrite get_entry_set_ne.
Qed.

Lemma copySync_merge_keeps src dst fs fs' s rest c :
  copySync src dst fs = Ok fs' ->
  lookup_path src fs = Some s -> wf s ->
  lookup_path (dst ++ rest) fs = Some (File c) ->
  lookup_path (src ++ rest) fs = None ->
  lookup_path (dst ++ rest) fs' = Some (File c).
Proof.
  intros (s' & fs1 & copied & Hs' & H1 & H2 & H3)%copySync_Ok Hs Hwf Hd Hnone.
  rewrite Hs in Hs'. injection Hs' as <-.
  apply (lookup_ensureDir_at_File _ _ _ (dst ++ rest) c H1) in Hd.
  rewrite lookup_path_app, Hs in Hnone. simpl in Hnone.
  rewrite lookup_path_app in Hd.
  destruct (lookup_path dst fs1) as [d|] eqn:Hdst; [|done]. simpl in Hd.
  rewrite lookup_path_app, (lookup_write_at _ _ _ _ H3). simpl.
  by eapply copy_node_keeps.
Qed.

Lemma forEach_copySync_merge tmpDir destination t files :
  wf t ->
  is_prefix destination tmpDir = false ->
  is_prefix tmpDir destination = false ->
  ∀ fs fs' q c,
    lookup_path tmpDir fs = Some t ->
    forEach (fun file => copySync (tmpDir ++ [file]) (destination ++ [file]))
      files fs = Ok fs' ->
    lookup_path (destination ++ q) fs = Some (File c) ->
    lookup_path (tmpDir ++ q) fs = None ->
    lookup_path (destination ++ q) fs' = Some (File c).
Proof.
  intros Hwf Hd1 Hd2. induction files as [|g0 tl IH]; intros fs fs' q c Ht.
  - by intros [= <-].
  - intros (fs1 & Hstep & Hrest)%forEach_cons Hq Hnone.
    assert (Ht1 : lookup_path tmpDir fs1 = Some t).
    { apply (copySync_apart _ _ _ _ _ _ Hstep Ht).
      - rewrite <- (app_nil_r tmpDir). by apply disjoint_no_prefix.
      - rewrite <- (app_nil_r tmpDir) at 1. by apply disjoint_no_prefix. }
    apply (IH fs1 fs' q c Ht1 Hrest).
    + destruct (is_prefix (destination ++ [g0]) (destination ++ q)) eqn:Hpre.
      * apply is_prefix_spec in Hpre as [r Hr].
        rewrite <- app_assoc in Hr. apply app_inv_head in Hr. subst q.
        pose proof Hstep as (s & _ & _ & Hs & _)%copySync_Ok.
        change (g0 :: r) with ([g0] ++ r) in Hq, Hnone |- *.
        rewrite app_assoc in Hq, Hnone |- *.
        eapply copySync_merge_keeps; [done..| |done|done].
        eapply (wf_lookup_path [g0] t); [done|].
        by rewrite lookup_path_app, Ht in Hs.
      * destruct (copySync_kept _ _ _ _ _ _ Hstep Hq Hpre) as (b & Hb & Hk).
        by apply same_kind_File in Hk as ->.
    + rewrite lookup_path_app, Ht1. by rewrite lookup_path_app, Ht in Hnone.
Qed.

(** X14: with [force] the box is merged into the destination: a file of
    the destination at a path where the box has nothing keeps its
    content. *)
Theorem force_keeps_files_the_box_lacks
    (user : confirmer) (cwd tmpDir destination : list string)
    (fs fs' : node) (confirms : list string) (rest : list string) (c : string)
    (Hwf : wf fs)
    (Hapart : is_prefix destination tmpDir = false
              ∧ is_prefix tmpDir destination = false)
    (Hrun : copyTempIntoDestination user cwd tmpDir destination
              {| force := true |} fs = Ok (fs', confirms))
    (Hfile : lookup_path (destination ++ rest) fs = Some (File c))
    (Hlacks : lookup_path (tmpDir ++ rest) fs = None) :
  lookup_path (destination ++ rest) fs' = Some (File c).
Proof.
  apply copyTempIntoDestination_force in Hrun as (fs0 & es & H0 & Hes & Hloop & ->).
  destruct Hapart as [Hd1 Hd2].
  pose proof (lookup_before_ensureDir_at _ _ _ _ _ H0 Hd2 Hes) as Hes0.
  pose proof (wf_lookup_path _ _ _ Hwf Hes0) as Hwft.
  apply (forEach_copySync_merge tmpDir destination (Dir es) (names es)
           Hwft Hd1 Hd2 fs0 fs' rest c Hes Hloop).
  - by apply (lookup_ensureDir_at_File _ _ _ (destination ++ rest) c H0).
  - rewrite lookup_path_app, Hes. by rewrite lookup_path_app, Hes0 in Hlacks.
Qed.

(** X15: the directory the box was fetched into comes out of
    [copyTempIntoDestination] as it went in, with or without [force],
    when it lies apart from the destination and from the working
    directory. *)
Theorem copyTempIntoDestination_leaves_the_box
    (user : confirmer) (cwd tmpDir destination : list string)
    (options : unboxOptions) (fs fs' : node) (confirms : list string)
    (Hwf : wf fs)
    (Hapart : is_prefix destination tmpDir = false
              ∧ is_prefix tmpDir destination = false)
    (Hcwd : is_prefix cwd tmpDir = false ∧ is_prefix tmpDir cwd = false)
    (Hrun : copyTempIntoDestination user cwd tmpDir destination options fs
            = Ok (fs', confirms)) :
  lookup_path tmpDir fs' = lookup_path tmpDir fs.
Proof.
  apply copyTempIntoDestination_Ok in Hrun
    as (fs0 & et & ed & shouldCopy & fs1 & H0 & Het & Hed & Hmode & Hloop).
  destruct Hapart as [Hd1 Hd2]. destruct Hcwd as [Hc1 Hc2].
  pose proof (lookup_before_ensureDir_at _ _ _ _ _ H0 Hd2 Het) as Het0.
  pose proof (wf_lookup_path _ _ _ Hwf Het0) as Hwft.
  assert (Het1 : lookup_path tmpDir fs1 = Some (Dir et)).
  { destruct Hmode as [(_ & _ & _ & ->)|(_ & ow & Hprompt & _)]; [done|].
    destruct (promptOverwrites_spec _ _ _ _ _ _ _ _ Hprompt) as [_ Hframe].
    rewrite Hframe; [done|]. intros g _. split.
    - rewrite <- (app_nil_r tmpDir). by apply disjoint_no_prefix.
    - rewrite <- (app_nil_r tmpDir) at 1. by apply disjoint_no_prefix. }
  destruct (forEach_copySync _ _ _ _ Hwft Hd1 Hd2 _ _ Het1 Hloop) as (-> & _).
  done.
Qed.

(** X16: run from the destination, a collision the user declines leaves
    the entry of the destination and all that is below it as they were. *)
Theorem declined_entry_is_untouched
    (user : confirmer) (tmpDir destination : list string)
    (fs fs' : node) (confirms : list string) (name : string) (kept : node)
    (Hno : ∀ n, user n name = false)
    (Hkept : lookup_path (destination ++ [name]) fs = Some kept)
    (Hrun : copyTempIntoDestination user destination tmpDir destination
              {| force := false |} fs = Ok (fs', confirms)) :
  ∀ rest, lookup_path (destination ++ name :: rest) fs'
          = lookup_path (destination ++ name :: rest) fs.
Proof.
  intros rest. change (name :: rest) with ([name] ++ rest).
  rewrite !app_assoc, !(lookup_path_app (destination ++ [name])), Hkept.
  by rewrite (declined_entry_kept_in_working_directory _ _ _ _ _ _ _ _
                Hno Hkept Hrun).
Qed.

Lemma set_entry_new name v es :
  get_entry name es = None -> set_entry name v es = (es ++ [(name, v)])%list.
Proof.
  induction es as [|[n w] rest IH]; simpl; [done|]. case_eqb n name; [done|].
  intros H. by rewrite IH.
Qed.

Lemma get_entry_app_None name es es' :
  get_entry name es = None -> get_entry name (es ++ es') = get_entry name es'.
Proof.
  induction es as [|[n w] rest IH]; simpl; [done|]. by case_eqb n name.
Qed.

(** Copied to a place that holds nothing, a tree arrives as it is. *)
Lemma copy_node_fresh src : wf src -> copy_node src None = Ok src.
Proof.
  induction src as [c|es IH] using node_ind'; intros Hwf; [done|].
  apply wf_Dir in Hwf as [Hnd Hall]. cbn [copy_node].
  assert (Hgo : ∀ ds,
            (∀ x, x ∈ names es -> get_entry x ds = None) ->
            copy_entries copy_node es ds = Ok (ds ++ es)%list).
  { induction es as [|[n ch] rest IHrest]; intros ds Hfree.
    { by rewrite app_nil_r. }
    apply Forall_cons_1 in IH as [IHch IHr].
    apply Forall_cons_1 in Hall as [[_ Hwfch] Hall].
    simpl in Hnd. apply NoDup_cons in Hnd as [Hn Hnd].
    simpl in IHch. rewrite copy_entries_cons, (Hfree n) by left.
    rewrite (IHch Hwfch). simpl. rewrite (set_entry_new _ _ _ (Hfree n ltac:(left))).
    rewrite (IHrest IHr Hnd Hall).
    - by rewrite <- app_assoc.
    - intros x Hx. rewrite get_entry_app_None by (apply Hfree; by right).
      simpl. case_eqb n x; [by subst | done]. }
  by rewrite (Hgo []).
Qed.

Lemma remove_at_None p :
  ∀ n n' q,
    remove_at p n = Ok n' -> lookup_path q n = None -> lookup_path q n' = None.
Proof.
  induction p as [|name p IH]; intros n n' q; simpl; [done|].
  destruct n as [c0|es]; [done|].
  destruct q as [|a q]; [done|].
  destruct p as [|b p].
  - intros [= <-]. simpl. case_eqb name a.
    + subst. by rewrite get_entry_del_eq.
    + by rewrite get_entry_del_ne.
  - destruct (get_entry name es) as [child|] eqn:Hg; [|by intros [= <-]].
    destruct (remove_at (b :: p) child) as [child'|e] eqn:Hr; [|done].
    intros [= <-]. cbn [lookup_path]. case_eqb name a.
    + subst. rewrite get_entry_set_eq, Hg. by eapply IH.
    + by rewrite get_entry_set_ne.
Qed.

Lemma promptOverwrites_None user cwd collisions :
  ∀ confirms fs ow confirms' fs' q,
    promptOverwrites user cwd collisions confirms fs = Ok (ow, confirms', fs') ->
    lookup_path q fs = None -> lookup_path q fs' = None.
Proof.
  induction collisions as [|file rest IH]; intros confirms fs ow confirms' fs' q.
  - by intros [= <- <- <-].
  - cbn [promptOverwrites]. destruct (user (length confirms) file).
    + intros (fs1 & Hrm & H)%bind_Ok Hq.
      apply bind_Ok in H as ([[ow' c'] fs''] & Hrest & [= <- <- <-]).
      eapply IH; [done|]. by eapply remove_at_None.
    + apply IH.
Qed.

Lemma promptOverwrites_accepted user cwd collisions :
  ∀ confirms fs ow confirms' fs',
    promptOverwrites user cwd collisions confirms fs = Ok (ow, confirms', fs') ->
    (NoDup collisions -> NoDup ow)
    ∧ (∀ g, g ∈ ow -> lookup_path (cwd ++ [g]) fs' = None)
    ∧ (∀ g, g ∈ collisions -> (∀ n, user n g = true) -> g ∈ ow).
Proof.
  induction collisions as [|file rest IH]; intros confirms fs ow confirms' fs'.
  - intros [= <- <- <-]. split; [done|]. split; by intros g ?%elem_of_nil.
  - cbn [promptOverwrites]. destruct (user (length confirms) file) eqn:Hans.
    + intros (fs1 & Hrm & H)%bind_Ok.
      apply bind_Ok in H as ([[ow' c'] fs''] & Hrest & [= <- <- <-]).
      destruct (IH _ _ _ _ _ Hrest) as (Hnd & Hgone & Hacc).
      destruct (promptOverwrites_spec _ _ _ _ _ _ _ _ Hrest) as [Hmem _].
      split; [|split].
      * intros [Hn Hnd']%NoDup_cons. apply NoDup_cons. split; [|auto].
        intros Hin. by destruct (Hmem _ Hin).
      * intros g [->|Hg]%elem_of_cons; [|auto].
        eapply promptOverwrites_None; [done|].
        by eapply lookup_remove_at_gone.
      * intros g [->|Hg]%elem_of_cons Hyes; [left | right; auto].
    + intros Hrest. destruct (IH _ _ _ _ _ Hrest) as (Hnd & Hgone & Hacc).
      split; [|split].
      * intros [_ ?]%NoDup_cons. auto.
      * done.
      * intros g [->|Hg]%elem_of_cons Hyes; [by rewrite Hyes in Hans | auto].
Qed.

Lemma copySync_sibling_None src d g name fs fs' :
  g ≠ name ->
  copySync src (d ++ [g]) fs = Ok fs' ->
  lookup_path (d ++ [name]) fs = None ->
  lookup_path (d ++ [name]) fs' = None.
Proof.
  intros Hne (s & fs1 & copied & Hs & H1 & H2 & H3)%copySync_Ok Hnone.
  destruct (sibling_apart d g name Hne) as [Ha Hb].
  rewrite (lookup_write_at_other _ _ _ _ _ H3 Ha Hb).
  rewrite removelast_last in H1.
  destruct (lookup_path (d ++ [name]) fs1) eqn:E; [|done].
  pose proof (lookup_ensureDir_at_new _ _ _ (d ++ [name]) H1 Hnone) as Hnew.
  rewrite E, parent_no_prefix in Hnew. by discriminate Hnew.
Qed.

Lemma copySync_fresh src d name fs fs' s :
  copySync src (d ++ [name]) fs = Ok fs' ->
  lookup_path src fs = Some s -> wf s ->
  lookup_path (d ++ [name]) fs = None ->
  lookup_path (d ++ [name]) fs' = Some s.
Proof.
  intros (s' & fs1 & copied & Hs' & H1 & H2 & H3)%copySync_Ok Hs Hwf Hnone.
  rewrite Hs in Hs'. injection Hs' as <-.
  rewrite removelast_last in H1.
  assert (E : lookup_path (d ++ [name]) fs1 = None).
  { destruct (lookup_path (d ++ [name]) fs1) eqn:E; [|done].
    pose proof (lookup_ensureDir_at_new _ _ _ (d ++ [name]) H1 Hnone) as Hnew.
    rewrite E, parent_no_prefix in Hnew. by discriminate Hnew. }
  rewrite E, copy_node_fresh in H2 by done. injection H2 as <-.
  by apply (lookup_write_at _ _ _ _ H3).
Qed.

Lemma forEach_copySync_fresh tmpDir destination t name s files :
  wf t ->
  is_prefix destination tmpDir = false ->
  is_prefix tmpDir destination = false ->
  NoDup files -> name ∈ files ->
  ∀ fs fs',
    lookup_path tmpDir fs = Some t ->
    lookup_path (tmpDir ++ [name]) fs = Some s ->
    lookup_path (destination ++ [name]) fs = None ->
    forEach (fun file => copySync (tmpDir ++ [file]) (destination ++ [file]))
      files fs = Ok fs' ->
    lookup_path (destination ++ [name]) fs' = Some s.
Proof.
  intros Hwf Hd1 Hd2. induction files as [|g0 tl IH]; intros Hnd Hin fs fs' Ht Hs.
  { by apply elem_of_nil in Hin. }
  apply NoDup_cons in Hnd as [Hn Hnd].
  intros Hnone (fs1 & Hstep & Hrest)%forEach_cons.
  assert (Ht1 : lookup_path tmpDir fs1 = Some t).
  { apply (copySync_apart _ _ _ _ _ _ Hstep Ht).
    - rewrite <- (app_nil_r tmpDir). by apply disjoint_no_prefix.
    - rewrite <- (app_nil_r tmpDir) at 1. by apply disjoint_no_prefix. }
  destruct (decide (g0 = name)) as [->|Hne].
  - eapply forEach_copySync_sibling; [exact Hn | exact Hrest |].
    eapply copySync_fresh; [done..| |done].
    eapply (wf_lookup_path [name] t); [done|].
    by rewrite lookup_path_app, Ht in Hs.
  - apply elem_of_cons in Hin as [->|Hin]; [done|].
    apply (IH Hnd Hin fs1 fs' Ht1); [| |done].
    + rewrite lookup_path_app, Ht1. by rewrite lookup_path_app, Ht in Hs.
    + by eapply copySync_sibling_None.
Qed.

(** X17: run from the destination without [force], an entry of the box
    that the user agrees to overwrite replaces the entry of the
    destination: what is at its place afterwards is the entry of the box,
    with nothing of the old entry left.  An entry the destination did not
    have arrives in the same way, without a question. *)
Theorem accepted_entry_is_replaced
    (user : confirmer) (tmpDir destination : list string)
    (fs fs' : node) (confirms : list string) (name : string) (s : node)
    (Hwf : wf fs)
    (Hapart : is_prefix destination tmpDir = false
              ∧ is_prefix tmpDir destination = false)
    (Hyes : lookup_path (destination ++ [name]) fs ≠ None ->
            ∀ n, user n name = true)
    (Hbox : lookup_path (tmpDir ++ [name]) fs = Some s)
    (Hrun : copyTempIntoDestination user destination tmpDir destination
              {| force := false |} fs = Ok (fs', confirms)) :
  lookup_path (destination ++ [name]) fs' = Some s.
Proof.
  apply copyTempIntoDestination_Ok in Hrun
    as (fs0 & et & ed & shouldCopy & fs1 & H0 & Het & Hed & Hmode & Hloop).
  destruct Hmode as [(Hf & _)|(_ & ow & Hprompt & ->)]; [done|].
  destruct Hapart as [Hd1 Hd2].
  pose proof (lookup_before_ensureDir_at _ _ _ _ _ H0 Hd2 Het) as Het0.
  pose proof (wf_lookup_path _ _ _ Hwf Het0) as Hwft.
  pose proof Hwft as [Hnd _]%wf_Dir.
  destruct (promptOverwrites_spec _ _ _ _ _ _ _ _ Hprompt) as [Hmem Hframe].
  destruct (promptOverwrites_accepted _ _ _ _ _ _ _ _ Hprompt)
    as (Hndow & Hgone & Hacc).
  assert (Hname : get_entry name et = Some s).
  { by rewrite <- (lookup_child _ _ _ _ Het0). }
  assert (Hin : name ∈ names et).
  { apply elem_of_names. by exists s. }
  assert (Het1 : lookup_path tmpDir fs1 = Some (Dir et)).
  { rewrite Hframe; [done|]. intros g _. split.
    - rewrite <- (app_nil_r tmpDir). by apply disjoint_no_prefix.
    - rewrite <- (app_nil_r tmpDir) at 1. by apply disjoint_no_prefix. }
  assert (Hyes' : includes (names ed) name = true -> ∀ n, user n name = true).
  { intros [v Hv]%includes_In%list_elem_of_In%elem_of_names. apply Hyes.
    rewrite <- (lookup_child _ _ _ _ Hed) in Hv.
    by rewrite (lookup_before_ensureDir_at _ _ _ _ _ H0
                  (parent_no_prefix _ _) Hv). }
  assert (Hcoll : ∀ g, g ∈ ow -> includes (names ed) g = true).
  { intros g Hg. destruct (Hmem g Hg) as [Hc _].
    by apply list_elem_of_In, filter_In in Hc as [_ Hc]. }
  eapply (forEach_copySync_fresh tmpDir destination (Dir et) name s);
    [done..| | | exact Het1 | | | exact Hloop].
  - apply NoDup_app. split; [by apply NoDup_List_filter|]. split.
    + intros g Hg Hg'. apply Hcoll in Hg'.
      apply list_elem_of_In, filter_In in Hg as [_ Hg].
      by rewrite Hg' in Hg.
    + apply Hndow. by apply NoDup_List_filter.
  - apply elem_of_app.
    destruct (includes (names ed) name) eqn:Hinc.
    + right. apply Hacc; [|auto]. apply list_elem_of_In, filter_In.
      split; [by apply list_elem_of_In | done].
    + left. apply list_elem_of_In, filter_In.
      split; [by apply list_elem_of_In | by rewrite Hinc].
  - by rewrite (lookup_child _ _ _ _ Het1).
  - destruct (includes (names ed) name) eqn:Hinc.
    + apply Hgone, Hacc; [|auto]. apply list_elem_of_In, filter_In.
      split; [by apply list_elem_of_In | done].
    + eapply promptOverwrites_None; [done|].
      rewrite (lookup_child _ _ _ _ Hed).
      destruct (get_entry name ed) as [v|] eqn:Hv; [|done].
      assert (Hc : includes (names ed) name = true).
      { apply includes_In, list_elem_of_In, elem_of_names. by exists v. }
      congruence.
Qed.

(** ** [prepareToCopyFiles] *)

Lemma remove_at_File_on_the_way q :
  ∀ n c a r, lookup_path q n = Some (File c) ->
             ∃ e, remove_at (q ++ a :: r) n = Err e.
Proof.
  induction q as [|name q IH]; intros n c a r; simpl.
  - intros [= ->]. by eexists.
  - destruct n as [c0|es]; [done|].
    destruct (get_entry name es) as [child|] eqn:Hg; [|done]. intros Hlk.
    destruct (IH child c a r Hlk) as [e He]. rewrite He.
    destruct (q ++ a :: r)%list eqn:E; [by destruct q|]. by eexists.
Qed.

(** After a removal no file lies at the path or on the way to it. *)
Lemma remove_at_no_File p n n' q c :
  remove_at p n = Ok n' -> is_prefix q p = true ->
  lookup_path q n' ≠ Some (File c).
Proof.
  intros Hrm Hpre Hlk.
  apply (lookup_remove_at _ _ _ _ _ Hrm) in Hlk as [Hlk Hnp].
  apply is_prefix_spec in Hpre as [r ->].
  destruct r as [|a r].
  - by rewrite app_nil_r, is_prefix_refl in Hnp.
  - destruct (remove_at_File_on_the_way q n c a r Hlk) as [e He]. congruence.
Qed.

Lemma del_entry_absent name es :
  get_entry name es = None -> del_entry name es = es.
Proof.
  unfold del_entry. induction es as [|[n w] rest IH]; simpl; [done|].
  case_eqb n name; [done|]. intros H. simpl. by rewrite IH.
Qed.

(** Removing what is not there changes nothing. *)
Lemma remove_at_absent p :
  ∀ n, p ≠ [] -> lookup_path p n = None ->
       (∀ q c, is_prefix q p = true -> lookup_path q n ≠ Some (File c)) ->
       remove_at p n = Ok n.
Proof.
  induction p as [|name p IH]; intros n Hne Hnone Hway; [done|].
  destruct n as [c0|es]; [by destruct (Hway [] c0 eq_refl)|].
  cbn [remove_at lookup_path] in *.
  destruct p as [|b p].
  - destruct (get_entry name es) as [child|] eqn:Hg; [done|].
    by rewrite del_entry_absent.
  - destruct (get_entry name es) as [child|] eqn:Hg; [|done].
    rewrite (IH child); [|done|done|].
    + simpl. by rewrite set_entry_same.
    + intros q c Hq Hlk. apply (Hway (name :: q) c).
      * simpl. by rewrite String.eqb_refl.
      * simpl. by rewrite Hg.
Qed.

(** [join_names] and [path_string] give the string of [path.join]. *)
Lemma split_on_join_append pre b :
  pre ≠ [] -> Forall (fun s => has_slash s = false) pre ->
  split_on slash (join_segs pre +:+ "/" +:+ b) = (pre ++ split_on slash b)%list.
Proof.
  induction pre as [|p [|q pre] IH]; intros Hne Hns; [done| |].
  - apply Forall_cons_1 in Hns as [Hp _].
    change (join_segs [p]) with p. by rewrite split_on_append.
  - apply Forall_cons_1 in Hns as [Hp Hns].
    rewrite join_segs_cons, !append_assoc, split_on_append by done.
    by rewrite IH.
Qed.

Lemma normalizeString_push allow pre segs :
  Forall (fun s => valid_nameb s = true) pre ->
  ∀ res, normalizeString allow res (pre ++ segs)
         = normalizeString allow (rev pre ++ res) segs.
Proof.
  induction 1 as [|s pre Hs _ IH]; intros res; [done|].
  apply valid_nameb_inv in Hs as (H1 & H2 & H3 & _).
  cbn [app normalizeString]. rewrite H1, H2, H3. cbn [orb].
  rewrite IH. simpl rev. by rewrite <- app_assoc.
Qed.

Lemma normalizeString_names allow segs :
  ∀ res, Forall (fun s => s ≠ "") res ->
         Forall (fun s => s ≠ "") (normalizeString allow res segs).
Proof.
  induction segs as [|seg segs IH]; intros res Hres; simpl.
  - by apply Forall_rev.
  - destruct (String.eqb seg "") eqn:E1; [by apply IH|].
    destruct (String.eqb seg ".") eqn:E2; [by apply IH|]. cbn [orb].
    apply String.eqb_neq in E1.
    destruct (String.eqb seg "..") eqn:E3.
    + destruct res as [|last res'].
      * apply IH. destruct allow; by repeat constructor.
      * apply Forall_cons_1 in Hres as [Hl Hres'].
        destruct (String.eqb last ".."); [|by apply IH].
        apply IH. destruct allow; [|by constructor].
        by repeat constructor.
    + apply IH. by constructor.
Qed.

Lemma path_join_names (tempDir : list string) (fileName : string) :
  Forall (fun s => valid_nameb s = true) tempDir ->
  path_join (abs_path tempDir) fileName
  = path_string (join_names tempDir fileName) (trailing_slash fileName).
Proof.
  intros Hvalid. unfold join_names.
  destruct fileName as [|c fileName].
  - change (split_on slash "") with [""]. cbn [normalizeString String.eqb orb].
    rewrite rev_involutive. change (trailing_slash "") with false.
    change (path_join (abs_path tempDir) "") with (normalize (abs_path tempDir)).
    destruct tempDir as [|p tempDir]; [done|].
    apply (normalize_abs [] (p :: tempDir)); [constructor|done..].
  - set (b := String c fileName).
    assert (Hb : b ≠ "") by done.
    change (path_join (abs_path tempDir) b)
      with (normalize (String "/" (join_segs tempDir +:+ "/" +:+ b))).
    assert (Hlast : last_char (String "/" (join_segs tempDir +:+ "/" +:+ b))
                    = last_char b).
    { change (String "/" (join_segs tempDir +:+ "/" +:+ b))
        with ("/" +:+ join_segs tempDir +:+ "/" +:+ b).
      rewrite <- (append_assoc "/" (join_segs tempDir) ("/" +:+ b)).
      rewrite <- (append_assoc ("/" +:+ join_segs tempDir) "/" b).
      by apply last_char_append. }
    assert (Hsplit : normalizeString false []
                       (split_on slash
                          (String "/" (join_segs tempDir +:+ "/" +:+ b)))
                     = normalizeString false (rev tempDir) (split_on slash b)).
    { cbn [split_on]. change (Ascii.eqb "/" slash) with true. cbn iota.
      cbn [normalizeString String.eqb orb].
      destruct tempDir as [|p tempDir].
      - change (join_segs [] +:+ "/" +:+ b) with (String "/" b).
        cbn [split_on]. change (Ascii.eqb "/" slash) with true. cbn iota.
        by cbn [normalizeString String.eqb orb].
      - rewrite split_on_join_append by (done || by apply valid_no_slash).
        rewrite normalizeString_push by done. by rewrite app_nil_r. }
    unfold normalize. cbn [first_char is_slash].
    change (Ascii.eqb "/" slash) with true. cbn [negb].
    rewrite Hlast, Hsplit. fold (trailing_slash b).
    pose proof (normalizeString_names false (split_on slash b) (rev tempDir))
      as Hnames.
    destruct (normalizeString false (rev tempDir) (split_on slash b))
      as [|a rest] eqn:E; [done|].
    assert (Ha : a ≠ "").
    { assert (Hres : Forall (fun s => s ≠ "") (rev tempDir)).
      { apply Forall_rev. eapply Forall_impl; [exact Hvalid|].
        intros s. apply valid_nonempty. }
      specialize (Hnames Hres). by apply Forall_cons_1 in Hnames as [? _]. }
    pose proof (join_segs_nonempty a rest Ha) as Hj.
    unfold path_string, abs_path.
    destruct (join_segs (a :: rest)) as [|x body] eqn:Ej; [done|].
    destruct (trailing_slash b); [|done].
    by rewrite !append_cons, append_nil.
Qed.

Lemma join_names_name tempDir name :
  valid_nameb name = true -> join_names tempDir name = (tempDir ++ [name])%list.
Proof.
  intros Hname. unfold join_names.
  rewrite split_on_no_slash by (by apply valid_nameb_inv in Hname as (_ & _ & _ & ?)).
  pose proof (normalizeString_valid false [name]) as H.
  rewrite H by (by repeat constructor). by rewrite rev_involutive.
Qed.

Lemma rimraf_Ok segs dirOnly fs fs' :
  rimraf segs dirOnly fs = Ok fs' -> segs ≠ [] ∧ remove_at segs fs = Ok fs'.
Proof.
  unfold rimraf. destruct segs as [|a segs]; [done|].
  destruct (lookup_path (a :: segs) fs) as [[c|es]|]; [|done..].
  by destruct dirOnly.
Qed.

Lemma rimraf_absent segs dirOnly fs :
  segs ≠ [] -> lookup_path segs fs = None ->
  (∀ q c, is_prefix q segs = true -> lookup_path q fs ≠ Some (File c)) ->
  rimraf segs dirOnly fs = Ok fs.
Proof.
  intros Hne Hnone Hway. unfold rimraf. destruct segs as [|a segs]; [done|].
  rewrite Hnone. by apply remove_at_absent.
Qed.

Lemma forEach_removeListed tempDir xs :
  ∀ fs fs',
    forEach (removeListed tempDir) xs fs = Ok fs' ->
    (wf fs -> wf fs')
    ∧ ∀ q c,
        lookup_path q fs' = Some (File c) <->
        lookup_path q fs = Some (File c)
        ∧ ∀ x, x ∈ xs -> is_prefix (join_names tempDir x) q = false.
Proof.
  induction xs as [|x xs IH]; intros fs fs'.
  - intros [= <-]. split; [done|]. intros q c. split; [|by intros [? _]].
    intros Hq. split; [done|]. by intros x ?%elem_of_nil.
  - intros (fs1 & [_ Hrm]%rimraf_Ok & Hrest)%forEach_cons.
    destruct (IH _ _ Hrest) as [Hwf Hfiles]. split.
    + intros Hwf0. apply Hwf. by eapply wf_remove_at.
    + intros q c. rewrite Hfiles, (lookup_remove_at _ _ _ q c Hrm). split.
      * intros [[Hq Hx] Hxs]. split; [done|].
        by intros y [->|Hy]%elem_of_cons; [|apply Hxs].
      * intros [Hq Hall]. split; [split; [done|]|].
        -- apply Hall. by left.
        -- intros y Hy. apply Hall. by right.
Qed.

Lemma forEach_removeListed_stays_gone tempDir xs :
  ∀ fs fs' segs,
    forEach (removeListed tempDir) xs fs = Ok fs' ->
    lookup_path segs fs = None ->
    (∀ q c, is_prefix q segs = true -> lookup_path q fs ≠ Some (File c)) ->
    lookup_path segs fs' = None
    ∧ ∀ q c, is_prefix q segs = true -> lookup_path q fs' ≠ Some (File c).
Proof.
  induction xs as [|x xs IH]; intros fs fs' segs.
  - by intros [= <-].
  - intros (fs1 & [_ Hrm1]%rimraf_Ok & Hrest)%forEach_cons Hnone Hway.
    apply (IH fs1 fs' segs Hrest).
    + by eapply remove_at_None.
    + intros q c Hq Hlk.
      apply (lookup_remove_at _ _ _ _ _ Hrm1) in Hlk as [Hlk _].
      by apply (Hway q c).
Qed.

(** What a run of removals leaves of each of its paths. *)
Lemma forEach_removeListed_gone tempDir xs :
  ∀ fs fs',
    forEach (removeListed tempDir) xs fs = Ok fs' ->
    ∀ x, x ∈ xs ->
      join_names tempDir x ≠ []
      ∧ lookup_path (join_names tempDir x) fs' = None
      ∧ ∀ q c, is_prefix q (join_names tempDir x) = true ->
               lookup_path q fs' ≠ Some (File c).
Proof.
  induction xs as [|x0 xs IH]; intros fs fs'.
  - by intros _ x ?%elem_of_nil.
  - intros (fs1 & [Hne Hrm]%rimraf_Ok & Hrest)%forEach_cons x.
    intros [->|Hin]%elem_of_cons; [|by eapply IH].
    split; [done|].
    apply (forEach_removeListed_stays_gone _ _ _ _ _ Hrest).
    + by eapply lookup_remove_at_gone.
    + intros q c Hq. by eapply remove_at_no_File.
Qed.

Lemma forEach_removeListed_again tempDir xs :
  ∀ fs,
    (∀ x, x ∈ xs ->
       join_names tempDir x ≠ []
       ∧ lookup_path (join_names tempDir x) fs = None
       ∧ ∀ q c, is_prefix q (join_names tempDir x) = true ->
                lookup_path q fs ≠ Some (File c)) ->
    forEach (removeListed tempDir) xs fs = Ok fs.
Proof.
  induction xs as [|x xs IH]; intros fs Hall; [done|].
  apply forEach_cons. exists fs. split.
  - destruct (Hall x) as (Hne & Hnone & Hway); [by left|].
    by apply rimraf_absent.
  - apply IH. intros y Hy. apply Hall. by right.
Qed.

(** X18: after [prepareToCopyFiles] the two files that describe the box
    and every path of [ignore], wherever [path.join] takes it, are gone; a
    file of the file system that is not at or below one of these paths is
    there as before; and the [ignore] list of the configuration has the two
    names at its end. *)
Theorem prepareToCopyFiles_removes
    (tempDir ignore ignore' : list string) (fs fs' : node)
    (Hrun : prepareToCopyFiles tempDir ignore fs = Ok (fs', ignore')) :
  ignore' = (ignore ++ ["truffle-box.json"; "truffle-init.json"])%list
  ∧ (wf fs -> wf fs')
  ∧ lookup_path (tempDir ++ ["truffle-box.json"]) fs' = None
  ∧ lookup_path (tempDir ++ ["truffle-init.json"]) fs' = None
  ∧ (∀ p, p ∈ ignore -> lookup_path (join_names tempDir p) fs' = None)
  ∧ (∀ q c,
       lookup_path q fs' = Some (File c) <->
       lookup_path q fs = Some (File c)
       ∧ ∀ p, p ∈ ignore' -> is_prefix (join_names tempDir p) q = false).
Proof.
  unfold prepareToCopyFiles in Hrun.
  apply bind_Ok in Hrun as (fs1 & Hloop & [= <- <-]).
  pose proof (forEach_removeListed_gone _ _ _ _ Hloop) as Hgone.
  destruct (forEach_removeListed _ _ _ _ Hloop) as (Hwf' & Hfiles).
  split; [done|]. split; [done|]. split; [|split; [|split]].
  - rewrite <- (join_names_name tempDir "truffle-box.json") by done.
    apply Hgone. apply elem_of_app. right. left.
  - rewrite <- (join_names_name tempDir "truffle-init.json") by done.
    apply Hgone. apply elem_of_app. right. right. left.
  - intros p Hp. apply Hgone. apply elem_of_app. by left.
  - done.
Qed.

(** X19: a second [prepareToCopyFiles] with the configuration the first
    one left finds nothing to remove: the file system stays as it is, and
    the [ignore] list gets the two names once more. *)
Theorem prepareToCopyFiles_again
    (tempDir ignore ignore' : list string) (fs fs' : node)
    (Hrun : prepareToCopyFiles tempDir ignore fs = Ok (fs', ignore')) :
  prepareToCopyFiles tempDir ignore' fs'
  = Ok (fs', (ignore' ++ ["truffle-box.json"; "truffle-init.json"])%list).
Proof.
  unfold prepareToCopyFiles in *.
  apply bind_Ok in Hrun as (fs1 & Hloop & [= <- <-]).
  pose proof (forEach_removeListed_gone _ _ _ _ Hloop) as Hgone.
  rewrite forEach_removeListed_again; [done|].
  intros x [Hx|Hx]%elem_of_app; apply Hgone; [done|].
  apply elem_of_app. by right.
Qed.

(** ** [gitIgnoreFilter] *)

Lemma append_nil_r (s : string) : s +:+ "" = s.
Proof. induction s as [|c s IH]; [done|]. by rewrite append_cons, IH. Qed.

Lemma split_lines_line l rest w ws :
  no_line_break l = true -> split_lines rest = w :: ws ->
  split_lines (l +:+ rest) = (l +:+ w) :: ws.
Proof.
  intros Hl Hrest. induction l as [|c l IH].
  - by rewrite !append_nil.
  - simpl in Hl. apply andb_true_iff in Hl as [[Hlf Hcr]%andb_true_iff Hl].
    apply negb_true_iff in Hlf, Hcr.
    rewrite !append_cons. cbn [split_lines]. rewrite Hlf, Hcr, (IH Hl). done.
Qed.

Lemma strip_slash_append p : strip_slash (p +:+ "/") = p.
Proof.
  induction p as [|c p IH]; [done|]. rewrite append_cons.
  cbn [strip_slash]. rewrite IH.
  destruct (p +:+ "/") eqn:E; [|done].
  destruct p; [rewrite append_nil in E | rewrite append_cons in E]; done.
Qed.

Lemma strip_slash_none p : trailing_slash p = false -> strip_slash p = p.
Proof.
  unfold trailing_slash. induction p as [|c p IH]; [done|].
  destruct p as [|c' p].
  - simpl. by intros ->.
  - intros H. change (strip_slash (String c (String c' p)))
      with (String c (strip_slash (String c' p))).
    by rewrite IH.
Qed.

(** X20: the patterns [gitIgnoreFilter] hands to the filter are the lines
    of [.gitignore], whether they end in a line feed or in a carriage
    return and a line feed, each without one slash at its end; without a
    readable [.gitignore] there is no pattern. *)
Theorem gitIgnoreFilter_patterns (lines : list string)
    (Hlines : lines ≠ [])
    (Hplain : Forall (fun l => no_line_break l = true) lines) :
  gitIgnoreFilter (Some (String.concat (String LF "") lines))
  = map strip_slash lines
  ∧ gitIgnoreFilter (Some (String.concat (String CR (String LF "")) lines))
    = map strip_slash lines
  ∧ gitIgnoreFilter None = []
  ∧ (∀ p, strip_slash (p +:+ "/") = p)
  ∧ (∀ p, trailing_slash p = false -> strip_slash p = p).
Proof.
  assert (Hsplit : ∀ sep,
            (∀ rest, split_lines (sep +:+ rest) = "" :: split_lines rest) ->
            split_lines (String.concat sep lines) = lines).
  { intros sep Hsep.
    induction lines as [|l [|l' ls] IH]; [done| |].
    - apply Forall_cons_1 in Hplain as [Hl _]. simpl.
      rewrite <- (append_nil_r l) at 1.
      rewrite (split_lines_line l "" "" []); [|done..]. by rewrite append_nil_r.
    - apply Forall_cons_1 in Hplain as [Hl Hplain].
      change (String.concat sep (l :: l' :: ls))
        with (l +:+ sep +:+ String.concat sep (l' :: ls)).
      rewrite (split_lines_line l _ "" (l' :: ls)); [|done|].
      + by rewrite append_nil_r.
      + rewrite Hsep, IH; done. }
  unfold gitIgnoreFilter. rewrite !Hsplit; [|done..].
  split; [done|]. split; [done|]. split; [done|].
  split; [apply strip_slash_append | apply strip_slash_none].
Qed.

(** ** [followBoxRecipe], from the option to the tree *)


(** ** What the merger throws, and what it always leaves *)

Lemma same_kind_isDirectory a b : same_kind a b -> isDirectory a = isDirectory b.
Proof. by destruct a, b. Qed.

Lemma copy_node_same_kind s d r :
  copy_node s (Some d) = Ok r -> isDirectory s = isDirectory d.
Proof. by destruct s, d. Qed.

Lemma forEach_copySync_clash tmpDir destination t name a b files :
  is_prefix destination tmpDir = false ->
  is_prefix tmpDir destination = false ->
  isDirectory a ≠ isDirectory b ->
  name ∈ files ->
  ∀ fs fs',
    lookup_path tmpDir fs = Some t ->
    lookup_path (tmpDir ++ [name]) fs = Some a ->
    lookup_path (destination ++ [name]) fs = Some b ->
    forEach (fun file => copySync (tmpDir ++ [file]) (destination ++ [file]))
      files fs ≠ Ok fs'.
Proof.
  intros Hd1 Hd2 Hkind. induction files as [|g0 tl IH]; intros Hin fs fs' Ht Ha Hb.
  { by apply elem_of_nil in Hin. }
  intros (fs1 & Hstep & Hrest)%forEach_cons.
  destruct (decide (g0 = name)) as [->|Hne].
  - apply copySync_Ok in Hstep as (s & fs0 & copied & Hs & H1 & H2 & _).
    destruct (lookup_ensureDir_at_kind _ _ _ _ _ H1 Hb) as (b' & Hb' & Hk).
    rewrite Hb' in H2. apply copy_node_same_kind in H2.
    apply same_kind_isDirectory in Hk. congruence.
  - apply elem_of_cons in Hin as [->|Hin]; [done|].
    assert (Ht1 : lookup_path tmpDir fs1 = Some t).
    { apply (copySync_apart _ _ _ _ _ _ Hstep Ht).
      - rewrite <- (app_nil_r tmpDir). by apply disjoint_no_prefix.
      - rewrite <- (app_nil_r tmpDir) at 1. by apply disjoint_no_prefix. }
    apply (IH Hin fs1 fs' Ht1); [| |done].
    + rewrite lookup_path_app, Ht1. by rewrite lookup_path_app, Ht in Ha.
    + eapply copySync_sibling; [|done..]. congruence.
Qed.

(** X22: [force] does not put a file in the place of a directory, nor a
    directory in the place of a file: when an entry of the box and the
    entry of the destination with its name are not of the same kind,
    [copyTempIntoDestination] throws. *)
Theorem force_throws_on_kind_clash
    (user : confirmer) (cwd tmpDir destination : list string) (fs : node)
    (name : string) (a b : node)
    (Hapart : is_prefix destination tmpDir = false
              ∧ is_prefix tmpDir destination = false)
    (Hbox : lookup_path (tmpDir ++ [name]) fs = Some a)
    (Hdest : lookup_path (destination ++ [name]) fs = Some b)
    (Hkind : isDirectory a ≠ isDirectory b) :
  ∃ e, copyTempIntoDestination user cwd tmpDir destination
         {| force := true |} fs = Err e.
Proof.
  destruct (copyTempIntoDestination user cwd tmpDir destination
              {| force := true |} fs) as [[fs' confirms]|e] eqn:Hrun;
    [exfalso | by exists e].
  apply copyTempIntoDestination_force in Hrun as (fs0 & es & H0 & Hes & Hloop & _).
  destruct Hapart as [Hd1 Hd2].
  destruct (lookup_ensureDir_at_kind _ _ _ _ _ H0 Hbox) as (a0 & Ha0 & Hka).
  destruct (lookup_ensureDir_at_kind _ _ _ _ _ H0 Hdest) as (b0 & Hb0 & Hkb).
  apply same_kind_isDirectory in Hka, Hkb.
  apply (forEach_copySync_clash tmpDir destination (Dir es) name a0 b0
           (names es) Hd1 Hd2) with (fs := fs0) (fs' := fs'); try done.
  - congruence.
  - apply elem_of_names. exists a0. by rewrite <- (lookup_child _ _ _ _ Hes).
Qed.

Lemma copySync_parent src d g fs fs' :
  copySync src (d ++ [g]) fs = Ok fs' ->
  ∃ es, lookup_path d fs' = Some (Dir es).
Proof.
  intros (s & fs1 & copied & _ & _ & _ & H3)%copySync_Ok.
  assert (Hne : (d ++ [g])%list ≠ []) by (by destruct d).
  destruct (write_at_parent _ _ _ _ Hne H3) as [es Hes].
  rewrite removelast_last in Hes. by exists es.
Qed.

Lemma forEach_copySync_destination tmpDir destination files :
  ∀ fs fs',
    forEach (fun file => copySync (tmpDir ++ [file]) (destination ++ [file]))
      files fs = Ok fs' ->
    files ≠ [] ∨ (∃ es, lookup_path destination fs = Some (Dir es)) ->
    ∃ es, lookup_path destination fs' = Some (Dir es).
Proof.
  induction files as [|g tl IH]; intros fs fs'.
  - intros [= <-] [?|?]; done.
  - intros (fs1 & Hstep & Hrest)%forEach_cons _.
    apply (IH fs1 fs' Hrest). right. by eapply copySync_parent.
Qed.

(** X23: whenever [copyTempIntoDestination] returns, with or without
    [force] and wherever the process runs, the destination is a
    directory, also when it did not exist before. *)
Theorem copyTempIntoDestination_leaves_a_destination
    (user : confirmer) (cwd tmpDir destination : list string)
    (options : unboxOptions) (fs fs' : node) (confirms : list string)
    (Hrun : copyTempIntoDestination user cwd tmpDir destination options fs
            = Ok (fs', confirms)) :
  ∃ es, lookup_path destination fs' = Some (Dir es).
Proof.
  apply copyTempIntoDestination_Ok in Hrun
    as (fs0 & et & ed & shouldCopy & fs1 & H0 & Het & Hed & Hmode & Hloop).
  apply (forEach_copySync_destination _ _ _ _ _ Hloop).
  destruct Hmode as [(_ & _ & _ & ->)|(_ & ow & Hprompt & ->)].
  - right. by exists ed.
  - destruct ow as [|g ow].
    + right. exists ed.
      destruct (promptOverwrites_spec _ _ _ _ _ _ _ _ Hprompt) as [_ Hframe].
      rewrite Hframe; [done|]. by intros g ?%elem_of_nil.
    + left. intros Heq. by apply app_eq_nil in Heq as [_ ?].
Qed.

(** * The moves of a run *)

Lemma followBoxRecipe_moved user cfg destination option fs r :
  followBoxRecipe user cfg destination option fs = Ok r ->
  moved r ≠ [] ->
  ∃ recipeFiles extra,
    moved r = move_specs recipeFiles
    ∧ reconcile destination (manifest_paths recipeFiles)
        (move_specs recipeFiles) fs = Ok (tree r, extra).
Proof.
  unfold followBoxRecipe. destruct (recipes cfg) as [rs|]; [|by intros [= <-]].
  intros (optionArr & _ & H)%bind_Ok _.
  apply bind_Ok in H as ([recipeFiles st] & _ & H).
  rewrite classify_spec in H.
  apply bind_Ok in H as ([fs' extra] & Hrec & [= <-]).
  by exists recipeFiles, extra.
Qed.

(** A move puts nothing at a place that is apart from its [to]. *)
Lemma applyMv_None_kept mv fs fs' q :
  applyMv mv fs = Ok fs' ->
  lookup_path q fs = None ->
  (∀ mvTo, resolve (to mv) = Some mvTo ->
           is_prefix mvTo q = false ∧ is_prefix q mvTo = false) ->
  lookup_path q fs' = None.
Proof.
  intros (mvFrom & mvTo & fs1 & Hf & Ht & Hens & Hren)%applyMv_Ok Hnone Hapart.
  destruct (Hapart _ Ht) as [Htq Hqt].
  assert (Hnone1 : lookup_path q fs1 = None).
  { destruct (lookup_path q fs1) eqn:E; [|done]. exfalso.
    pose proof (lookup_ensureDir_at_new _ _ _ q Hens Hnone) as Hnew.
    rewrite E in Hnew. specialize (Hnew ltac:(done)).
    destruct mvTo as [|a t]; [by destruct q|].
    apply is_prefix_removelast in Hnew as [Hnew _]; [|done]. congruence. }
  apply rename_at_Ok in Hren
    as (src & _ & [[_ ->]|(_ & _ & _ & n1 & Hrm & Hwr)]); [done|].
  rewrite (lookup_write_at_other _ _ _ _ q Hwr Htq Hqt).
  by eapply remove_at_None.
Qed.

Lemma forEach_applyMv_None_kept mvs :
  ∀ fs fs' q,
    forEach applyMv mvs fs = Ok fs' ->
    lookup_path q fs = None ->
    (∀ mv mvTo, mv ∈ mvs -> resolve (to mv) = Some mvTo ->
                is_prefix mvTo q = false ∧ is_prefix q mvTo = false) ->
    lookup_path q fs' = None.
Proof.
  induction mvs as [|mv mvs IH]; intros fs fs' q.
  - by intros [= <-].
  - intros (fs1 & H1 & Hrest)%forEach_cons Hnone Hapart.
    eapply IH; [done| |].
    + eapply applyMv_None_kept; [done..|]. intros t. apply Hapart. by left.
    + intros mv' t Hin. apply Hapart. by right.
Qed.

(** [removeEmptyDirs] puts nothing anywhere. *)
Lemma removeEmptyDirs_None n :
  ∀ isRoot n' p,
    wf n -> removeEmptyDirs n isRoot = Some n' ->
    lookup_path p n = None -> lookup_path p n' = None.
Proof.
  induction n as [c0|files IH] using node_ind'; intros isRoot n' p Hwf.
  - by intros [= <-].
  - intros Hrm Hnone.
    assert (Hn' : n' = Dir (visited files)).
    { rewrite removeEmptyDirs_Dir in Hrm.
      destruct (visited files), isRoot; congruence. }
    subst n'. destruct p as [|name p]; [done|]. cbn [lookup_path] in *.
    destruct (get_entry name (visited files)) as [c'|] eqn:Hg; [|done].
    apply get_entry_visited in Hg as (child & Hin & Hc).
    apply wf_Dir in Hwf as [Hnd Hall]. rewrite Forall_forall in IH, Hall.
    apply list_elem_of_In in Hin.
    rewrite (get_entry_NoDup _ _ _ Hnd Hin) in Hnone.
    apply (IH _ Hin false c' p); [|done..]. by destruct (Hall _ Hin).
Qed.

(** What the three phases do with one move of the list. *)
Lemma reconcile_applies_move destination paths moves fs fs' extra
    earlier mv later mvFrom mvTo c :
  wf fs ->
  reconcile destination paths moves fs = Ok (fs', extra) ->
  moves = (earlier ++ mv :: later)%list ->
  resolve (from mv) = Some mvFrom -> resolve (to mv) = Some mvTo ->
  join_segs mvFrom ∈ paths ->
  lookup_path mvFrom fs = Some (File c) ->
  (∀ mv' f t, mv' ∈ earlier ->
     resolve (from mv') = Some f -> resolve (to mv') = Some t ->
     is_prefix f mvFrom = false ∧ is_prefix t mvFrom = false) ->
  (∀ mv' f t, mv' ∈ later ->
     resolve (from mv') = Some f -> resolve (to mv') = Some t ->
     is_prefix f mvTo = false ∧ is_prefix t mvTo = false
     ∧ is_prefix t mvFrom = false ∧ is_prefix mvFrom t = false) ->
  lookup_path mvTo fs' = Some (File c)
  ∧ (∃ es, lookup_path (removelast mvTo) fs' = Some (Dir es))
  ∧ (mvFrom ≠ mvTo -> lookup_path mvFrom fs' = None).
Proof.
  intros Hwf Hrun -> Hf Ht Hpath Hfile Hearlier Hlater.
  apply reconcile_Ok in Hrun as (es & fs1 & fs2 & -> & -> & Hprune & Hmv & Hrm).
  destruct (prune_exact es destination paths Hwf)
    as (fs1' & Hrun & Hwf1 & _ & Hfiles).
  assert (fs1' = fs1) as -> by congruence.
  destruct (forEach_applyMv_files _ _ _ Hwf1 Hmv) as [Hwf2 _].
  rewrite forEach_app in Hmv.
  apply bind_Ok in Hmv as (fa & Ha & (fb & Hb & Hc)%forEach_cons).
  assert (Hfa : lookup_path mvFrom fa = Some (File c)).
  { eapply forEach_applyMv_keeps; [done| |done]. by apply Hfiles. }
  destruct (applyMv_File _ _ _ _ _ _ Hf Ht Hfa Hb) as (Hto & _ & Hgone).
  assert (Hto2 : lookup_path mvTo fs2 = Some (File c)).
  { eapply forEach_applyMv_keeps; [done..|].
    intros mv' f t Hin Hf' Ht'.
    by destruct (Hlater mv' f t Hin Hf' Ht') as (? & ? & _). }
  assert (Hto' : lookup_path mvTo fs' = Some (File c)).
  { destruct (removeEmptyDirs_keeps_file fs2 true mvTo c Hto2)
      as (n' & Hn' & Hl'). congruence. }
  split; [done|]. split.
  - destruct mvTo as [|a t] using rev_ind.
    + destruct fs2 as [c2|es2]; [|by rewrite removeEmptyDirs_root in Hrm;
                                   injection Hrm as <-].
      apply forEach_applyMv_isDirectory in Hc; [done|].
      by eapply applyMv_isDirectory.
    + rewrite removelast_last.
      destruct (lookup_path_Dir_prefix _ _ _ _ _ Hto') as (es' & Hes' & _).
      by exists es'.
  - intros Hne. eapply removeEmptyDirs_None; [done..|].
    eapply forEach_applyMv_None_kept; [done|by apply Hgone|].
    intros mv' t Hin Ht'.
    destruct (resolve (from mv')) as [f|] eqn:Hf'.
    + by destruct (Hlater mv' f t Hin Hf' Ht') as (_ & _ & ? & ?).
    + exfalso.
      apply list_elem_of_split in Hin as (l1 & l2 & ->).
      rewrite forEach_app in Hc.
      apply bind_Ok in Hc as (fc & _ & (fd & Hd & _)%forEach_cons).
      apply applyMv_Ok in Hd as (f & _ & _ & Hf'' & _). congruence.
Qed.

(** C8: each move first makes sure that the directory which is to hold
    [to] exists and then renames.  So a move of a file goes through whenever
    no file stands in the way of those directories and [to] is not a
    directory; when it goes through the file is at [to], in a directory,
    and nothing is left at [from].  A move whose [from] does not exist when
    its turn comes makes [followBoxRecipe] throw.  And when [followBoxRecipe]
    returns, it has applied the moves of the recipe: the file that was at
    the [from] of a move is at its [to], in a directory, and nothing is at
    [from], the other moves of the list being about other places. *)
Theorem moves_are_applied_or_throw :
  (∀ mv fs mvFrom mvTo c,
      resolve (from mv) = Some mvFrom -> resolve (to mv) = Some mvTo ->
      trailing_slash (from mv) = false -> trailing_slash (to mv) = false ->
      isDirectory fs = true ->
      lookup_path mvFrom fs = Some (File c) ->
      (∀ q c', is_prefix q (removelast mvTo) = true ->
               lookup_path q fs ≠ Some (File c')) ->
      (∀ es, lookup_path mvTo fs ≠ Some (Dir es)) ->
      ∃ fs', applyMv mv fs = Ok fs')
  ∧ (∀ mv fs fs' mvFrom mvTo c,
      resolve (from mv) = Some mvFrom -> resolve (to mv) = Some mvTo ->
      lookup_path mvFrom fs = Some (File c) ->
      applyMv mv fs = Ok fs' ->
      lookup_path mvTo fs' = Some (File c)
      ∧ (∃ es, lookup_path (removelast mvTo) fs' = Some (Dir es))
      ∧ (mvFrom ≠ mvTo -> lookup_path mvFrom fs' = None))
  ∧ (∀ user cfg rs destination option fs recipeFiles st
       allFiles fs1 earlier mv later fs2 mvFrom,
      recipes cfg = Some rs ->
      locate user rs (split_on comma option) (specs rs) nav0
      = Ok (recipeFiles, st) ->
      traverseDir fs destination true "" = Ok allFiles ->
      forEach removeSync (extraFiles (manifest_paths recipeFiles) allFiles) fs
      = Ok fs1 ->
      move_specs recipeFiles = earlier ++ mv :: later ->
      forEach applyMv earlier fs1 = Ok fs2 ->
      resolve (from mv) = Some mvFrom ->
      lookup_path mvFrom fs2 = None ->
      ∃ e, applyMv mv fs2 = Err e
           ∧ followBoxRecipe user cfg destination (Given option) fs = Err e)
  ∧ (∀ user cfg destination option fs r earlier mv later mvFrom mvTo c,
      wf fs ->
      followBoxRecipe user cfg destination option fs = Ok r ->
      moved r = (earlier ++ mv :: later)%list ->
      resolve (from mv) = Some mvFrom -> resolve (to mv) = Some mvTo ->
      from mv = join_segs mvFrom ->
      lookup_path mvFrom fs = Some (File c) ->
      (∀ mv' f t, mv' ∈ earlier ->
         resolve (from mv') = Some f -> resolve (to mv') = Some t ->
         is_prefix f mvFrom = false ∧ is_prefix t mvFrom = false) ->
      (∀ mv' f t, mv' ∈ later ->
         resolve (from mv') = Some f -> resolve (to mv') = Some t ->
         is_prefix f mvTo = false ∧ is_prefix t mvTo = false
         ∧ is_prefix t mvFrom = false ∧ is_prefix mvFrom t = false) ->
      lookup_path mvTo (tree r) = Some (File c)
      ∧ (∃ es, lookup_path (removelast mvTo) (tree r) = Some (Dir es))
      ∧ (mvFrom ≠ mvTo -> lookup_path mvFrom (tree r) = None)).
Proof.
  split; [apply applyMv_succeeds|]. split; [apply applyMv_File|]. split.
  - intros user cfg rs destination option fs recipeFiles st allFiles fs1
      earlier mv later fs2 mvFrom Hrs Hloc Hall Hprune Hmvs Hearlier Hf Hnone.
    destruct (applyMv_missing _ _ _ Hf Hnone) as [e He]. exists e.
    split; [done|]. eapply followBoxRecipe_Err; [done..|].
    unfold reconcile. rewrite Hall. simpl bind. rewrite Hprune. simpl bind.
    rewrite Hmvs, forEach_app, Hearlier. simpl. by rewrite He.
  - intros user cfg destination option fs r earlier mv later mvFrom mvTo c
      Hwf Hrun Hmoved Hf Ht Hnormal Hfile Hearlier Hlater.
    destruct (followBoxRecipe_moved _ _ _ _ _ _ Hrun)
      as (recipeFiles & extra & Hmvs & Hrec).
    { rewrite Hmoved. by destruct earlier. }
    eapply reconcile_applies_move; [done|exact Hrec|by rewrite <- Hmvs|done..| |
                                    done|done|done].
    rewrite <- Hnormal. apply elem_of_manifest_paths. right. exists mv.
    split; [|done]. apply elem_of_move_specs. rewrite <- Hmvs, Hmoved.
    apply elem_of_app. right. left.
Qed.

Lemma moves_are_applied_or_throw_witness :
  (∃ fs',
      applyMv tpl_move scenario_destination = Ok fs'
      ∧ lookup_path ["src"; "tpl.txt"] fs' = Some (File "template")
      ∧ (∃ es, lookup_path ["src"] fs' = Some (Dir es))
      ∧ lookup_path ["tpl.txt"] fs' = None)
  ∧ (∃ e,
      applyMv tpl_move destination_without_template = Err e
      ∧ followBoxRecipe first_choice scenario_config "/dest" (Given "ts")
          destination_without_template = Err e)
  ∧ wf scenario_destination
  ∧ followBoxRecipe first_choice scenario_config "/dest" (Given "ts")
      scenario_destination
    = Ok {| tree := scenario_result; questions := [];
            removed := ["a.js"; "extra.md"]; moved := [tpl_move] |}
  ∧ lookup_path ["tpl.txt"] scenario_destination = Some (File "template")
  ∧ lookup_path ["src"; "tpl.txt"] scenario_result = Some (File "template")
  ∧ (∃ es, lookup_path ["src"] scenario_result = Some (Dir es))
  ∧ lookup_path ["tpl.txt"] scenario_result = None.
Proof.
  destruct moves_are_applied_or_throw as (Hgoes & Hmoved & Hthrow & Hrun).
  split; [|split].
  - destruct (Hgoes tpl_move scenario_destination ["tpl.txt"]
                ["src"; "tpl.txt"] "template" eq_refl eq_refl eq_refl eq_refl
                eq_refl eq_refl) as [fs' Hfs'].
    + intros q c' Hq. change (removelast ["src"; "tpl.txt"]) with ["src"] in Hq.
      destruct q as [|a [|b q]]; [done| |].
      * simpl in Hq. rewrite andb_true_r in Hq.
        apply String.eqb_eq in Hq as ->. done.
      * simpl in Hq. by rewrite andb_false_r in Hq.
    + done.
    + exists fs'. split; [done|].
      destruct (Hmoved tpl_move scenario_destination fs' ["tpl.txt"]
                  ["src"; "tpl.txt"] "template" eq_refl eq_refl eq_refl Hfs')
        as (Hto & Hparent & Hfrom).
      split; [exact Hto|]. split; [exact Hparent|]. by apply Hfrom.
  - apply (Hthrow first_choice scenario_config scenario_recipes "/dest" "ts"
             destination_without_template scenario_files
             {| useOption := true; counter := 1; asked := [] |}
             ["a.js"; "a.ts"; "README.md"]
             (Dir [("a.ts", File "ts source"); ("README.md", File "read me")])
             [] tpl_move []
             (Dir [("a.ts", File "ts source"); ("README.md", File "read me")])
             ["tpl.txt"]); reflexivity.
  - split; [reflexivity|]. split; [vm_compute; reflexivity|].
    split; [reflexivity|].
    destruct (Hrun first_choice scenario_config "/dest" (Given "ts")
                scenario_destination
                {| tree := scenario_result; questions := [];
                   removed := ["a.js"; "extra.md"]; moved := [tpl_move] |}
                [] tpl_move [] ["tpl.txt"] ["src"; "tpl.txt"] "template")
      as (Hto & Hparent & Hfrom).
    + reflexivity.
    + vm_compute. reflexivity.
    + reflexivity.
    + reflexivity.
    + reflexivity.
    + reflexivity.
    + reflexivity.
    + intros mv' f t Hin. by apply elem_of_nil in Hin.
    + intros mv' f t Hin. by apply elem_of_nil in Hin.
    + split; [exact Hto|]. split; [exact Hparent|]. by apply Hfrom.
Defined.

(** ** Concrete instances *)

Lemma traverseDir_lists_the_files_witness :
  wf (Dir merge_entries)
  ∧ ∃ files,
      traverseDir (Dir merge_entries) "/" true "" = Ok files ∧ NoDup files
      ∧ (∀ q, q ∈ files <->
              ∃ segs c, q = join_segs segs
                        ∧ lookup_path segs (Dir merge_entries) = Some (File c))
      ∧ (∀ q, q ∈ files ->
              ∃ segs c, resolve q = Some segs
                        ∧ lookup_path segs (Dir merge_entries) = Some (File c)).
Proof.
  split; [reflexivity|].
  apply (traverseDir_lists_the_files merge_entries "/"). reflexivity.
Defined.

Lemma traverseDir_absolute_witness :
  wf (Dir merge_entries)
  ∧ Forall (fun s => valid_nameb s = true) ["mnt"]
  ∧ ∃ files,
      traverseDir (Dir merge_entries) (abs_path ["mnt"]) true "" = Ok files
      ∧ traverseDir (Dir merge_entries) (abs_path ["mnt"]) false ""
        = Ok (map (path_join (abs_path ["mnt"])) files).
Proof.
  assert (Hpre : Forall (fun s => valid_nameb s = true) ["mnt"]).
  { repeat constructor. }
  split; [reflexivity|]. split; [exact Hpre|].
  apply (traverseDir_absolute merge_entries ["mnt"]); [reflexivity | exact Hpre].
Defined.

Lemma removeEmptyDirs_keeps_what_holds_a_file_witness :
  wf (Dir sparse_entries)
  ∧ removeEmptyDirs (Dir sparse_entries) true = Some (Dir sparse_pruned_entries)
  ∧ wf (Dir sparse_pruned_entries)
  ∧ (∀ p c, lookup_path p (Dir sparse_pruned_entries) = Some (File c) <->
            lookup_path p (Dir sparse_entries) = Some (File c))
  ∧ (∀ p, p ≠ [] ->
          is_Some (lookup_path p (Dir sparse_pruned_entries)) <->
          ∃ q c, lookup_path (p ++ q) (Dir sparse_entries) = Some (File c)).
Proof.
  split; [reflexivity|]. split; [reflexivity|].
  apply (removeEmptyDirs_keeps_what_holds_a_file
           (Dir sparse_entries) (Dir sparse_pruned_entries)); reflexivity.
Defined.

Lemma removeEmptyDirs_fixed_point_witness :
  wf (Dir sparse_pruned_entries)
  ∧ (removeEmptyDirs (Dir sparse_pruned_entries) true
     = Some (Dir sparse_pruned_entries) <->
     ∀ p es, p ≠ [] ->
             lookup_path p (Dir sparse_pruned_entries) = Some (Dir es) ->
             es ≠ []).
Proof.
  split; [reflexivity|].
  apply (removeEmptyDirs_fixed_point sparse_pruned_entries). reflexivity.
Defined.

Lemma locate_presets_never_ask_witness :
  length ["ts"; "vue"] ≤ length (prompts two_level_recipes)
  ∧ follow ["ts"; "vue"] (specs two_level_recipes) = Some [Plain "ts/vue.ts"]
  ∧ ∃ st',
      locate first_choice two_level_recipes ["ts"; "vue"]
        (specs two_level_recipes) nav0
      = Ok ([Plain "ts/vue.ts"] ++ common two_level_recipes, st')
      ∧ asked st' = [] ∧ useOption st' = true
      ∧ counter st' ≤ length ["ts"; "vue"].
Proof.
  split; [simpl; lia|]. split; [reflexivity|].
  apply (locate_presets_never_ask first_choice two_level_recipes ["ts"; "vue"]
           [Plain "ts/vue.ts"]); [simpl; lia | reflexivity].
Defined.

Lemma locate_keeps_asking_witness :
  useOption {| useOption := false; counter := 0; asked := [] |} = false
  ∧ locate first_choice two_level_recipes ["ts"; "vue"]
      (specs two_level_recipes)
      {| useOption := false; counter := 0; asked := [] |}
    = locate first_choice two_level_recipes []
        (specs two_level_recipes)
        {| useOption := false; counter := 0; asked := [] |}
  ∧ ∀ files st',
      locate first_choice two_level_recipes ["ts"; "vue"]
        (specs two_level_recipes)
        {| useOption := false; counter := 0; asked := [] |}
      = Ok (files, st') ->
      useOption st' = false
      ∧ length (asked st') = 0 + (counter st' - 0).
Proof.
  split; [reflexivity|].
  apply (locate_keeps_asking first_choice two_level_recipes ["ts"; "vue"] []
           (specs two_level_recipes)
           {| useOption := false; counter := 0; asked := [] |}).
  reflexivity.
Defined.

Lemma locate_questions_witness :
  locate first_choice two_level_recipes ["py"; "vue"]
    (specs two_level_recipes) nav0
  = Ok ([Plain "js/react.js"; Plain "README.md"], two_level_asked)
  ∧ counter two_level_asked ≤ length (prompts two_level_recipes)
  ∧ length (asked two_level_asked) ≤ counter two_level_asked
  ∧ (useOption two_level_asked = true <-> asked two_level_asked = [])
  ∧ (∀ j q, asked two_level_asked !! j = Some q ->
       ∃ p, prompts two_level_recipes
              !! (counter two_level_asked - length (asked two_level_asked) + j)
            = Some p
            ∧ q_message q = message p)
  ∧ (∀ i, i < counter two_level_asked - length (asked two_level_asked) ->
          is_Some (["py"; "vue"] !! i)).
Proof.
  split; [reflexivity|].
  apply (locate_questions first_choice two_level_recipes ["py"; "vue"]
           [Plain "js/react.js"; Plain "README.md"] two_level_asked).
  reflexivity.
Defined.

Lemma locate_ignores_further_tokens_witness :
  locate first_choice two_level_recipes ["ts"; "vue"]
    (specs two_level_recipes) nav0
  = Ok ([Plain "ts/vue.ts"; Plain "README.md"],
        {| useOption := true; counter := 2; asked := [] |})
  ∧ take 2 ["ts"; "vue"; "more"; "tokens"] = take 2 ["ts"; "vue"]
  ∧ locate first_choice two_level_recipes ["ts"; "vue"; "more"; "tokens"]
      (specs two_level_recipes) nav0
    = Ok ([Plain "ts/vue.ts"; Plain "README.md"],
          {| useOption := true; counter := 2; asked := [] |}).
Proof.
  split; [reflexivity|]. split; [reflexivity|].
  apply (locate_ignores_further_tokens first_choice two_level_recipes
           ["ts"; "vue"] ["ts"; "vue"; "more"; "tokens"]); reflexivity.
Defined.

Lemma reconcile_without_moves_prunes_exactly_witness :
  wf (Dir scenario_entries)
  ∧ ∃ fs' extra,
      reconcile "/dest" (manifest_paths plain_files) [] (Dir scenario_entries)
      = Ok (fs', extra)
      ∧ wf fs'
      ∧ (∀ segs c,
           lookup_path segs fs' = Some (File c) <->
           lookup_path segs (Dir scenario_entries) = Some (File c)
           ∧ join_segs segs ∈ manifest_paths plain_files)
      ∧ NoDup extra
      ∧ (∀ q, q ∈ extra <->
              (∃ segs c, q = join_segs segs
                         ∧ lookup_path segs (Dir scenario_entries)
                           = Some (File c))
              ∧ q ∉ manifest_paths plain_files).
Proof.
  split; [reflexivity|].
  apply (reconcile_without_moves_prunes_exactly "/dest"
           (manifest_paths plain_files) scenario_entries).
  reflexivity.
Defined.

Lemma reconcile_keeps_files_away_from_moves_witness :
  wf scenario_destination
  ∧ reconcile "/dest" (manifest_paths scenario_files) [tpl_move]
      scenario_destination
    = Ok (scenario_result, ["a.js"; "extra.md"])
  ∧ lookup_path ["a.ts"] scenario_destination = Some (File "ts source")
  ∧ lookup_path ["a.ts"] scenario_result = Some (File "ts source")
  ∧ join_segs ["a.ts"] ∉ ["a.js"; "extra.md"].
Proof.
  split; [reflexivity|]. split; [vm_compute; reflexivity|].
  split; [reflexivity|].
  apply (reconcile_keeps_files_away_from_moves "/dest"
           (manifest_paths scenario_files) [tpl_move]
           scenario_destination scenario_result ["a.js"; "extra.md"]
           ["a.ts"] "ts source").
  - reflexivity.
  - vm_compute. reflexivity.
  - reflexivity.
  - apply elem_of_manifest_paths. left. left.
  - intros mv mvFrom mvTo Hin Hf Ht.
    apply elem_of_cons in Hin as [->|Hin]; [|by apply elem_of_nil in Hin].
    vm_compute in Hf, Ht. injection Hf as <-. injection Ht as <-.
    split; reflexivity.
Defined.

Lemma force_matters_only_for_collisions_witness :
  (∀ name, lookup_path (["tmp"; "box"] ++ [name]) merge_fs ≠ None ->
           lookup_path (["w"; "new"] ++ [name]) merge_fs = None)
  ∧ copyTempIntoDestination overwrite_b ["w"] ["tmp"; "box"] ["w"; "new"]
      {| force := false |} merge_fs
    = copyTempIntoDestination overwrite_b ["w"] ["tmp"; "box"] ["w"; "new"]
        {| force := true |} merge_fs.
Proof.
  assert (Hnone : ∀ name,
            lookup_path (["tmp"; "box"] ++ [name]) merge_fs ≠ None ->
            lookup_path (["w"; "new"] ++ [name]) merge_fs = None).
  { intros name _. reflexivity. }
  split; [exact Hnone|].
  apply (force_matters_only_for_collisions overwrite_b ["w"] ["tmp"; "box"]
           ["w"; "new"] merge_fs Hnone).
Defined.

Lemma force_keeps_files_the_box_lacks_witness :
  wf merge_fs
  ∧ copyTempIntoDestination overwrite_b ["w"] ["tmp"; "box"] ["w"; "b"]
      {| force := true |} merge_fs = Ok (merge_forced, [])
  ∧ lookup_path (["w"; "b"] ++ ["b"; "y"]) merge_fs = Some (File "by")
  ∧ lookup_path (["tmp"; "box"] ++ ["b"; "y"]) merge_fs = None
  ∧ lookup_path (["w"; "b"] ++ ["b"; "y"]) merge_forced = Some (File "by").
Proof.
  split; [reflexivity|]. split; [reflexivity|]. split; [reflexivity|].
  split; [reflexivity|].
  apply (force_keeps_files_the_box_lacks overwrite_b ["w"] ["tmp"; "box"]
           ["w"; "b"] merge_fs merge_forced [] ["b"; "y"] "by");
    [reflexivity | split; reflexivity | reflexivity..].
Defined.

Lemma copyTempIntoDestination_leaves_the_box_witness :
  wf merge_fs
  ∧ copyTempIntoDestination overwrite_b ["w"; "b"] ["tmp"; "box"] ["w"; "b"]
      {| force := false |} merge_fs = Ok (merge_asked, ["a.txt"; "b"])
  ∧ lookup_path ["tmp"; "box"] merge_asked = lookup_path ["tmp"; "box"] merge_fs.
Proof.
  split; [reflexivity|]. split; [reflexivity|].
  apply (copyTempIntoDestination_leaves_the_box overwrite_b ["w"; "b"]
           ["tmp"; "box"] ["w"; "b"] {| force := false |} merge_fs merge_asked
           ["a.txt"; "b"]);
    [reflexivity | split; reflexivity | split; reflexivity | reflexivity].
Defined.

Lemma declined_entry_is_untouched_witness :
  (∀ n, overwrite_b n "a.txt" = false)
  ∧ lookup_path (["w"; "b"] ++ ["a.txt"]) merge_fs = Some (File "old")
  ∧ copyTempIntoDestination overwrite_b ["w"; "b"] ["tmp"; "box"] ["w"; "b"]
      {| force := false |} merge_fs = Ok (merge_asked, ["a.txt"; "b"])
  ∧ ∀ rest, lookup_path (["w"; "b"] ++ "a.txt" :: rest) merge_asked
            = lookup_path (["w"; "b"] ++ "a.txt" :: rest) merge_fs.
Proof.
  assert (Hno : ∀ n, overwrite_b n "a.txt" = false) by (intros n; reflexivity).
  split; [exact Hno|]. split; [reflexivity|]. split; [reflexivity|].
  apply (declined_entry_is_untouched overwrite_b ["tmp"; "box"] ["w"; "b"]
           merge_fs merge_asked ["a.txt"; "b"] "a.txt" (File "old") Hno);
    reflexivity.
Defined.

Lemma accepted_entry_is_replaced_witness :
  wf merge_fs
  ∧ (∀ n, overwrite_b n "b" = true)
  ∧ lookup_path (["tmp"; "box"] ++ ["b"]) merge_fs
    = Some (Dir [("x", File "bx")])
  ∧ lookup_path (["w"; "b"] ++ ["b"]) merge_fs = Some (Dir [("y", File "by")])
  ∧ copyTempIntoDestination overwrite_b ["w"; "b"] ["tmp"; "box"] ["w"; "b"]
      {| force := false |} merge_fs = Ok (merge_asked, ["a.txt"; "b"])
  ∧ lookup_path (["w"; "b"] ++ ["b"]) merge_asked
    = Some (Dir [("x", File "bx")]).
Proof.
  assert (Hyes : ∀ n, overwrite_b n "b" = true) by (intros n; reflexivity).
  split; [reflexivity|]. split; [exact Hyes|]. split; [reflexivity|].
  split; [reflexivity|]. split; [reflexivity|].
  apply (accepted_entry_is_replaced overwrite_b ["tmp"; "box"] ["w"; "b"]
           merge_fs merge_asked ["a.txt"; "b"] "b" (Dir [("x", File "bx")]));
    [reflexivity | split; reflexivity | intros _; exact Hyes
    | reflexivity | reflexivity].
Defined.

Lemma prepareToCopyFiles_removes_witness :
  prepareToCopyFiles ["tmp"; "box"] ["docs/"; "README.md"; "../outside.txt"]
    box_fs
  = Ok (box_prepared,
        ["docs/"; "README.md"; "../outside.txt";
         "truffle-box.json"; "truffle-init.json"])
  ∧ lookup_path (["tmp"; "box"] ++ ["truffle-box.json"]) box_prepared = None
  ∧ (∀ p, p ∈ ["docs/"; "README.md"; "../outside.txt"] ->
          lookup_path (join_names ["tmp"; "box"] p) box_prepared = None)
  ∧ (∀ q c,
       lookup_path q box_prepared = Some (File c) <->
       lookup_path q box_fs = Some (File c)
       ∧ ∀ p, p ∈ ["docs/"; "README.md"; "../outside.txt";
                   "truffle-box.json"; "truffle-init.json"] ->
              is_prefix (join_names ["tmp"; "box"] p) q = false).
Proof.
  split; [reflexivity|].
  destruct (prepareToCopyFiles_removes ["tmp"; "box"]
              ["docs/"; "README.md"; "../outside.txt"]
              ["docs/"; "README.md"; "../outside.txt";
               "truffle-box.json"; "truffle-init.json"]
              box_fs box_prepared eq_refl)
    as (_ & _ & Hbox & _ & Hignored & Hfiles).
  split; [exact Hbox|]. split; [exact Hignored | exact Hfiles].
Defined.

Lemma prepareToCopyFiles_again_witness :
  prepareToCopyFiles ["tmp"; "box"] ["docs/"; "README.md"; "../outside.txt"]
    box_fs
  = Ok (box_prepared,
        ["docs/"; "README.md"; "../outside.txt";
         "truffle-box.json"; "truffle-init.json"])
  ∧ prepareToCopyFiles ["tmp"; "box"]
      ["docs/"; "README.md"; "../outside.txt";
       "truffle-box.json"; "truffle-init.json"]
      box_prepared
    = Ok (box_prepared,
          ["docs/"; "README.md"; "../outside.txt";
           "truffle-box.json"; "truffle-init.json";
           "truffle-box.json"; "truffle-init.json"]).
Proof.
  split; [reflexivity|].
  apply (prepareToCopyFiles_again ["tmp"; "box"]
           ["docs/"; "README.md"; "../outside.txt"]
           ["docs/"; "README.md"; "../outside.txt";
            "truffle-box.json"; "truffle-init.json"]
           box_fs box_prepared).
  reflexivity.
Defined.

Lemma gitIgnoreFilter_patterns_witness :
  ["node_modules/"; "build"; ""] ≠ []
  ∧ Forall (fun l => no_line_break l = true) ["node_modules/"; "build"; ""]
  ∧ gitIgnoreFilter
      (Some (String.concat (String LF "") ["node_modules/"; "build"; ""]))
    = ["node_modules"; "build"; ""]
  ∧ gitIgnoreFilter
      (Some (String.concat (String CR (String LF ""))
               ["node_modules/"; "build"; ""]))
    = ["node_modules"; "build"; ""].
Proof.
  assert (Hlines : ["node_modules/"; "build"; ""] ≠ ([] : list string)).
  { discriminate. }
  assert (Hplain : Forall (fun l => no_line_break l = true)
                     ["node_modules/"; "build"; ""]).
  { repeat constructor. }
  split; [exact Hlines|]. split; [exact Hplain|].
  destruct (gitIgnoreFilter_patterns ["node_modules/"; "build"; ""]
              Hlines Hplain) as (Hlf & Hcrlf & _).
  split; [exact Hlf | exact Hcrlf].
Defined.


Lemma force_throws_on_kind_clash_witness :
  lookup_path (["tmp"; "box"] ++ ["a.txt"]) clash_fs
  = Some (Dir [("x", File "bx")])
  ∧ lookup_path (["w"; "b"] ++ ["a.txt"]) clash_fs = Some (File "old")
  ∧ ∃ e, copyTempIntoDestination overwrite_b ["w"] ["tmp"; "box"] ["w"; "b"]
           {| force := true |} clash_fs = Err e.
Proof.
  split; [reflexivity|]. split; [reflexivity|].
  apply (force_throws_on_kind_clash overwrite_b ["w"] ["tmp"; "box"]
           ["w"; "b"] clash_fs "a.txt" (Dir [("x", File "bx")]) (File "old"));
    [split; reflexivity | reflexivity | reflexivity | discriminate].
Defined.

Lemma copyTempIntoDestination_leaves_a_destination_witness :
  lookup_path ["w"; "new"] merge_fs = None
  ∧ copyTempIntoDestination overwrite_b ["w"] ["tmp"; "box"] ["w"; "new"]
      {| force := false |} merge_fs = Ok (merge_new, [])
  ∧ ∃ es, lookup_path ["w"; "new"] merge_new = Some (Dir es).
Proof.
  split; [reflexivity|]. split; [reflexivity|].
  apply (copyTempIntoDestination_leaves_a_destination overwrite_b ["w"]
           ["tmp"; "box"] ["w"; "new"] {| force := false |} merge_fs merge_new
           []).
  reflexivity.
Defined.
